(** * HEIG: imaging-genetics toolkit -- verification of the specification

    Shallow embedding of the parts of the repository the specification's
    testable claims are about:

    - [heig/sumstats.py]  (GWAS summary-statistics preprocessor),
    - [heri_gc.py]        (heritability / genetic-correlation estimator),
    - [parse.py]          (PLINK .bed/.bim/.fam parser),
    - [ldmatrix.py]       (LD matrix engine).

    Conventions.  A Python exception is a value of [error]; a function that
    may raise returns a [result].  Python integers are [Z] or [nat] (sizes,
    cursors); floating-point numbers are modelled by exact rationals [Q]
    where the code only compares, adds and selects them, and by real numbers
    [R] where it takes square roots.  A numpy vector is a [list]; a 2-D
    array is the list of its rows. *)

From Stdlib Require Import List Bool Arith ZArith QArith Lia String Ascii.
From Stdlib Require Import Reals Lra FinFun.
From Stdlib Require Lqa.
Import ListNotations.

Close Scope R_scope.
Close Scope Q_scope.

Set Implicit Arguments.

(** ** Exceptions and results *)

Inductive error : Type :=
| ValueError (msg : string)
| IOError (msg : string)
| KeyError (msg : string)
| IndexError (msg : string)
| EOFError
| LinAlgError.

Inductive result (A : Type) : Type :=
| Ok (a : A)
| Raise (e : error).

Arguments Ok {A} a.
Arguments Raise {A} e.

Definition bind {A B} (r : result A) (k : A -> result B) : result B :=
  match r with
  | Ok a => k a
  | Raise e => Raise e
  end.

Notation "'do' x <- r ; k" := (bind r (fun x => k))
  (at level 10, x name, r at level 100, k at level 200).

(** Boolean-mask row selection, [frame.loc[mask]]. *)
Fixpoint loc_mask {A} (rows : list A) (mask : list bool) : list A :=
  match rows, mask with
  | r :: rs, b :: bs => if b then r :: loc_mask rs bs else loc_mask rs bs
  | _, _ => []
  end.

(** A dictionary with string keys, as an association list: [dict_get] is
    [d[k]], [dict_mem] is [k in d]. *)
Fixpoint dict_get (d : list (string * string)) (k : string) : option string :=
  match d with
  | [] => None
  | (k', v) :: t => if String.eqb k k' then Some v else dict_get t k
  end.

Definition dict_mem (d : list (string * string)) (k : string) : bool :=
  match dict_get d k with Some _ => true | None => false end.

(** The rows of a GWAS table as the strand filter sees them. *)
Record snp_row : Type := mk_row { SNP : string; A1 : string; A2 : string }.

(** The condition of the claim: both alleles are single characters of the
    complement map, and the complement of A1 is not A2. *)
Definition kept_by_claim (d : list (string * string)) (a1 a2 : string) : Prop :=
  String.length a1 = 1 /\ String.length a2 = 1 /\
  exists c1 c2, dict_get d a1 = Some c1 /\ dict_get d a2 = Some c2 /\ c1 <> a2.

(** ** heig/sumstats.py *)

Module sumstats.

Local Open Scope string_scope.

(** [GWAS.complement = {'A': 'T', 'T': 'A', 'C': 'G', 'G': 'C'}]. *)
Definition complement : list (string * string) :=
  [("A", "T"); ("T", "A"); ("C", "G"); ("G", "C")].

(** One entry of the list comprehension of [_prune_snps] (lines 367-370):
    [True if len(a2_) == 1 and len(a1_) == 1 and a2_ in complement and
     a1_ in complement and complement[a2_] != a1_ else False]. *)
Definition not_strand_ambiguous_entry (a2_ a1_ : string) : bool :=
  (String.length a2_ =? 1)%nat && (String.length a1_ =? 1)%nat &&
  dict_mem complement a2_ && dict_mem complement a1_ &&
  match dict_get complement a2_ with
  | Some c => negb (String.eqb c a1_)
  | None => false
  end.

(** Lines 367-371: the mask over [zip(gwas['A2'], gwas['A1'])] and the
    selection [gwas.loc[not_strand_ambiguous]]. *)
Definition not_strand_ambiguous (gwas : list snp_row) : list bool :=
  map (fun r => not_strand_ambiguous_entry (A2 r) (A1 r)) gwas.

Definition prune_strand_step (gwas : list snp_row) : list snp_row :=
  loc_mask gwas (not_strand_ambiguous gwas).

(** *** [_check_median] *)

Local Open Scope Q_scope.

(** A float of the effect column: [None] is not-a-number. *)
Definition float := option Q.

Fixpoint insert_sorted (x : Q) (l : list Q) : list Q :=
  match l with
  | [] => [x]
  | y :: t => if Qle_bool x y then x :: l else y :: insert_sorted x t
  end.

Definition sort (l : list Q) : list Q := fold_right insert_sorted [] l.

Fixpoint drop_nan (data : list float) : list Q :=
  match data with
  | [] => []
  | Some x :: t => x :: drop_nan t
  | None :: t => drop_nan t
  end.

(** [np.nanmedian]: the median of the entries that are numbers; the
    middle one, or the mean of the two middle ones; not-a-number when
    there is none. *)
Definition nanmedian (data : list float) : float :=
  let xs := sort (drop_nan data) in
  let n := List.length xs in
  if (n =? 0)%nat then None
  else if Nat.odd n then nth_error xs (n / 2)
  else match nth_error xs (n / 2 - 1), nth_error xs (n / 2) with
       | Some a, Some b => Some ((a + b) / 2)
       | _, _ => None
       end.

(** The literal [0.1] of line 458 is a double: the one nearest to one
    tenth, 3602879701896397 / 2^55, a little above it.  The difference
    of a double and an integer null value that comes out near 0.1 is
    computed without rounding, so the comparison of the exact difference
    with this number is the comparison the code makes. *)
Definition tenth : Q := 3602879701896397 # 36028797018963968.

(** [median_beta - null_value > 0.1]: a comparison with not-a-number is
    false. *)
Definition diff_gt_tenth (median_beta : float) (null_value : Z) : bool :=
  match median_beta with
  | Some m => negb (Qle_bool (m - inject_Z null_value) tenth)
  | None => false
  end.

(** [np.abs] of a numpy boolean is that boolean. *)
Definition np_abs_bool (b : bool) : bool := b.

(** The error of line 459; it names the column.  The rounded median and
    the null value of the message are left out. *)
Definition mislabeled (effect : string) : error :=
  ValueError ("median value of " ++ effect ++ " (should be close to the null value). This column may be mislabeled").

(** Lines 445-464.  The log line of the [else] branch is not modelled. *)
Definition _check_median (data : list float) (effect : string) (null_value : Z)
  : result unit :=
  let median_beta := nanmedian data in
  if np_abs_bool (diff_gt_tenth median_beta null_value)
  then Raise (mislabeled effect)
  else Ok tt.

(** What the claim asks of the check: the distance of the median to the
    null value exceeds 0.1. *)
Definition far_from_null (median_beta : Q) (null_value : Z) : Prop :=
  1 # 10 < Qabs.Qabs (median_beta - inject_Z null_value).

End sumstats.

(** ** heri_gc.py *)

Module heri_gc.

Local Open Scope string_scope.

(** [COMPLEMENT = {'A': 'T', 'T': 'A', 'C': 'G', 'G': 'C'}] (line 18). *)
Definition COMPLEMENT : list (string * string) :=
  [("A", "T"); ("T", "A"); ("C", "G"); ("G", "C")].

(** One entry of the list comprehension of [GWAS._prune_snps]
    (lines 130-133). *)
Definition not_strand_ambiguous_entry (a2_ a1_ : string) : bool :=
  (String.length a2_ =? 1)%nat && (String.length a1_ =? 1)%nat &&
  dict_mem COMPLEMENT a2_ && dict_mem COMPLEMENT a1_ &&
  match dict_get COMPLEMENT a2_ with
  | Some c => negb (String.eqb c a1_)
  | None => false
  end.

(** Lines 130-134. *)
Definition not_strand_ambiguous (gwas : list snp_row) : list bool :=
  map (fun r => not_strand_ambiguous_entry (A2 r) (A1 r)) gwas.

Definition prune_strand_step (gwas : list snp_row) : list snp_row :=
  loc_mask gwas (not_strand_ambiguous gwas).

Local Open Scope R_scope.

(** *** Vectors and matrices of reals *)

Definition vec := list R.
Definition mat := list vec.

Fixpoint zip_with {A B C} (f : A -> B -> C) (l : list A) (l' : list B) : list C :=
  match l, l' with
  | a :: t, b :: t' => f a b :: zip_with f t t'
  | _, _ => []
  end.

Definition vsub (u v : vec) : vec := zip_with Rminus u v.
Definition vscale (c : R) (v : vec) : vec := map (Rmult c) v.

Definition rsum (v : vec) : R := fold_right Rplus 0 v.

(** Number of columns of a 2-D array given by its rows. *)
Definition width (a : mat) : nat := List.length (hd [] a).

Definition column (j : nat) (a : mat) : vec := map (fun row => nth j row 0) a.

(** [np.sum(a, axis=0)] and [np.mean(a, axis=0)]. *)
Definition sum_axis0 (a : mat) : vec :=
  map (fun j => rsum (column j a)) (seq 0 (width a)).

Definition mean_axis0 (a : mat) : vec :=
  map (fun j => rsum (column j a) / INR (List.length a)) (seq 0 (width a)).

(** *** [Estimation._get_heri_se] (lines 464-485) *)

(** An entry of a numpy array of floats that need not be a number:
    [None] stands for not-a-number and for the two infinities.  None of
    the operations below turns one of them back into a number. *)
Definition npfloat := option R.

(** [x / y] for two numbers, [d] and [n] being numpy floats (lines 430,
    442): dividing by zero gives an infinity, or not-a-number for 0 / 0,
    and no exception. *)
Definition np_div (x y : R) : npfloat :=
  if Req_dec_T y 0 then None else Some (x / y).

(** [x + y]: a sum with an infinity or with not-a-number is one of
    them. *)
Definition np_add (x y : npfloat) : npfloat :=
  match x, y with
  | Some a, Some b => Some (a + b)
  | _, _ => None
  end.

(** [res[np.abs(res) < 10 ** -10] = 0], one entry that is a number; the
    comparison is false for an infinity and for not-a-number, which are
    left as they are. *)
Definition clip_small (x : R) : R :=
  if Rlt_dec (Rabs x) (powerRZ 10 (-10)) then 0 else x.

(** [np.sqrt], one entry: not-a-number below zero. *)
Definition np_sqrt (x : npfloat) : npfloat :=
  match x with
  | Some a => if Rlt_dec a 0 then None else Some (sqrt a)
  | None => None
  end.

Definition _get_heri_se (heri : vec) (d n : R) : list npfloat :=
  let part1 := np_div (2 * d) (n ^ 2) in
  let part2 := map (fun h => np_div (2 * h) n) heri in
  let part3 := map (fun h => np_div (2 * h * (1 - h)) n) heri in
  let res := zip_with np_add (map (np_add part1) part2) part3 in
  let res := map (option_map clip_small) res in
  map np_sqrt res.

(** *** [TwoSample._lobo_estimate] (lines 661-670) *)

(** The inner loop [for ii in blocks: lobo_est_i -= block_est[ii]]; an
    index past the end of [block_est] raises. *)
Fixpoint subtract_blocks (lobo_est_i : vec) (block_est : mat) (blocks : list nat)
  : result vec :=
  match blocks with
  | [] => Ok lobo_est_i
  | ii :: rest =>
      match nth_error block_est ii with
      | Some b => subtract_blocks (vsub lobo_est_i b) block_est rest
      | None => Raise (IndexError "index out of bounds")
      end
  end.

Fixpoint _lobo_estimate (total_est : vec) (block_est : mat)
  (merged_blocks : list (list nat)) : result mat :=
  match merged_blocks with
  | [] => Ok []
  | blocks :: rest =>
      do lobo_est_i <- subtract_blocks total_est block_est blocks;
      do lobo_est <- _lobo_estimate total_est block_est rest;
      Ok (lobo_est_i :: lobo_est)
  end.

(** *** [TwoSample._jackknife] (lines 636-658) *)

(** [np.squeeze] only drops axes of length one; the entries are the
    same, so the two results are kept as vectors. *)
Definition _jackknife (total : vec) (lobo : mat) (n_blocks : nat) : vec * vec :=
  let k := INR n_blocks in
  let mean_lobo := mean_axis0 lobo in
  let estimate := vsub (vscale k total) (vscale (k - 1) mean_lobo) in
  let dev2 := map (fun row => map (fun x => x ^ 2) (vsub row mean_lobo)) lobo in
  let se := map (fun s => sqrt ((k - 1) / k * s)) (sum_axis0 dev2) in
  (estimate, se).

(** The composition the consistency property is about: the
    leave-one-block-out estimates of [total] fed to the jackknife, with
    [n_blocks = len(merged_blocks)] as at line 575. *)
Definition jackknife_of_lobo (total : vec) (block_est : mat)
  (merged_blocks : list (list nat)) : result (vec * vec) :=
  do lobo <- _lobo_estimate total block_est merged_blocks;
  Ok (_jackknife total lobo (List.length merged_blocks)).

(** Sum of the block-level estimates of one merged block. *)
Definition group_sum (N : nat) (block_est : mat) (blocks : list nat) : vec :=
  fold_right (fun ii acc => zip_with Rplus (nth ii block_est (repeat 0 N)) acc)
    (repeat 0 N) blocks.

(** Every merged block lies inside [block_est], every block-level
    estimate has the shape of [total], and every merged block contributes
    [total / k]. *)
Definition equal_share (total : vec) (block_est : mat)
  (merged_blocks : list (list nat)) : Prop :=
  let k := INR (List.length merged_blocks) in
  Forall (fun b => List.length b = List.length total) block_est /\
  Forall (fun blocks =>
            Forall (fun ii => (ii < List.length block_est)%nat) blocks /\
            group_sum (List.length total) block_est blocks
            = map (fun t => t / k) total) merged_blocks.

Local Close Scope R_scope.

(** *** The in-memory [GWAS] object (lines 55-59) *)

Record GWAS : Type := mkGWAS {
  z_mat : list (list Q);
  SNP : list string;
  A1 : list string;
  A2 : list string;
  N : list Z
}.

(** The list comprehension of [align_alleles] (lines 183-184) from
    position [i] on: [-gwas2.z_mat[i] if a11 != a12 else gwas2.z_mat[i]]. *)
Fixpoint aligned_rows (z : list (list Q)) (i : nat) (alleles : list (string * string))
  : result (list (list Q)) :=
  match alleles with
  | [] => Ok []
  | (a11, a12) :: rest =>
      match nth_error z i with
      | None => Raise (IndexError "index out of bounds")
      | Some row =>
          do more <- aligned_rows z (S i) rest;
          Ok ((if negb (String.eqb a11 a12) then map Qopp row else row) :: more)
      end
  end.

(** [align_alleles] (lines 158-189); both arguments are [GWAS] objects.
    The returned object is [gwas2] after its two assignments. *)
Definition align_alleles (gwas1 gwas2 : GWAS) : result GWAS :=
  if negb (List.length (SNP gwas1) =? List.length (SNP gwas2))%nat
  then Raise (ValueError "The gwas2 has different number of SNPs than the current gwas")
  else if existsb (fun p => negb (String.eqb (fst p) (snd p)))
                  (combine (SNP gwas1) (SNP gwas2))
  then Raise (ValueError "Two gwas files have some different SNPs")
  else
    do aligned_z <- aligned_rows (z_mat gwas2) 0 (combine (A1 gwas1) (A1 gwas2));
    Ok (mkGWAS aligned_z (SNP gwas2) (A1 gwas1) (A2 gwas2) (N gwas2)).

(** The columns of an object have one entry for every SNP. *)
Definition aligned_columns (g : GWAS) : bool :=
  (List.length (A1 g) =? List.length (SNP g))%nat &&
  (List.length (z_mat g) =? List.length (SNP g))%nat.

(** *** [get_common_snps] (lines 308-337) *)

(** A Python set of rsIDs as a list without repetitions; the order of a
    set is not specified and no statement depends on it. *)
Definition set_of (snp : list string) : list string := nodup string_dec snp.

Definition intersection (s snp : list string) : list string :=
  filter (fun x => existsb (String.eqb x) snp) s.

(** [not common_snps]: [None] and the empty set are false. *)
Definition falsy (common_snps : option (list string)) : bool :=
  match common_snps with
  | None => true
  | Some [] => true
  | Some (_ :: _) => false
  end.

(** The loop; an argument with a [SNP] attribute is [Some] of that
    column, any other argument is [None]. *)
Fixpoint common_loop (common_snps : option (list string))
  (snp_list : list (option (list string))) : option (list string) :=
  match snp_list with
  | [] => common_snps
  | None :: rest => common_loop common_snps rest
  | Some snp :: rest =>
      if falsy common_snps then common_loop (Some (set_of snp)) rest
      else
        match common_snps with
        | Some s => common_loop (Some (intersection s snp)) rest
        | None => common_loop (Some (set_of snp)) rest
        end
  end.

Definition get_common_snps (snp_list : list (option (list string)))
  : result (list string) :=
  if (List.length snp_list =? 0)%nat then Raise (ValueError "No snp list provided")
  else
    match common_loop None snp_list with
    | Some (x :: s) => Ok (x :: s)
    | _ => Raise (ValueError "All the input snp lists are None or do not have a SNP column")
    end.

(** *** Vocabulary and sample objects *)

(** The rows of [z] from position [i] on, each negated where the two
    alleles differ. *)
Fixpoint flipped (rows : list (list Q)) (alleles : list (string * string)) : list (list Q) :=
  match rows, alleles with
  | row :: rt, (a, b) :: at_ =>
      (if negb (String.eqb a b) then map Qopp row else row) :: flipped rt at_
  | _, _ => []
  end.

Definition image_gwas : GWAS :=
  mkGWAS [[1 # 2]; [3 # 1]]%Q ["rs1"; "rs2"]%string ["A"; "C"]%string
                 ["G"; "T"]%string [100; 100]%Z.

Definition trait_gwas : GWAS :=
  mkGWAS [[2 # 1]; [5 # 1]]%Q ["rs1"; "rs2"]%string ["G"; "C"]%string
                 ["A"; "T"]%string [200; 200]%Z.

(** *** [GWAS.extract_snps] (lines 148-154) *)

(** [idxs = self.SNP.isin(keep_snps)] selects the rows of every column.
    The columns of an object are cut from one table (lines 55-59) and so
    share the row index of [SNP]: the mask is applied to them by position.
    numpy refuses a boolean index whose length is not the number of rows
    of [z_mat]. *)
Definition extract_snps (self : GWAS) (keep_snps : list string) : result GWAS :=
  let idxs := map (fun s => existsb (String.eqb s) keep_snps) (SNP self) in
  if negb (List.length (z_mat self) =? List.length idxs)%nat
  then Raise (IndexError "boolean index did not match indexed array")
  else Ok (mkGWAS (loc_mask (z_mat self) idxs) (loc_mask (SNP self) idxs)
                  (loc_mask (A1 self) idxs) (loc_mask (A2 self) idxs)
                  (loc_mask (N self) idxs)).

(** Every column of an object, [A2] and [N] too, has one entry for every
    SNP. *)
Definition all_columns_aligned (g : GWAS) : bool :=
  aligned_columns g &&
  (List.length (A2 g) =? List.length (SNP g))%nat &&
  (List.length (N g) =? List.length (SNP g))%nat.

(** The rows of an object: each rsID with its Z-scores, alleles and
    sample size. *)
Definition rows (g : GWAS)
  : list (string * (list Q * (string * (string * Z)))) :=
  combine (SNP g) (combine (z_mat g) (combine (A1 g) (combine (A2 g) (N g)))).

End heri_gc.

(** ** parse.py *)

Module parse.

Import Stdlib.Strings.Byte.

(** A decoded genotype, a float of the dosage matrix: [0.], [1.], [2.]
    or not-a-number (missing). *)
Inductive dosage : Type := D0 | D1 | D2 | DNaN.

Definition bits := list bool.

(** [self._bedcode] (lines 74-79), in the order the dictionary lists
    it; a [bitarray('xy')] is the bit sequence [x; y]. *)
Definition _bedcode : list (dosage * bits) :=
  [ (D2, [true; true]); (DNaN, [true; false]);
    (D1, [false; true]); (D0, [false; false]) ].

Definition bits_eqb (a b : bits) : bool :=
  (List.length a =? List.length b)%nat && forallb (fun p => Bool.eqb (fst p) (snd p)) (combine a b).

Fixpoint symbol_of (codedict : list (dosage * bits)) (code : bits) : option dosage :=
  match codedict with
  | [] => None
  | (s, c) :: t => if bits_eqb c code then Some s else symbol_of t code
  end.

(** [bitarray.decode(codedict)].  Every code word of [_bedcode] has two
    bits, so prefix decoding consumes the bits two at a time; a trailing
    single bit, or a pair that is no code word, raises. *)
Fixpoint decode (codedict : list (dosage * bits)) (a : bits) : result (list dosage) :=
  match a with
  | [] => Ok []
  | b0 :: b1 :: rest =>
      match symbol_of codedict [b0; b1] with
      | Some s => do xs <- decode codedict rest; Ok (s :: xs)
      | None => Raise (ValueError "prefix code unrecognized in bitarray")
      end
  | [_] => Raise (ValueError "incomplete prefix code at position")
  end.

(** [bitarray(endian='little').fromfile]: each byte contributes its
    eight bits, least significant first. *)
Definition bits_of_byte (b : byte) : bits :=
  let '(b0, (b1, (b2, (b3, (b4, (b5, (b6, b7))))))) := to_bits b in
  [b0; b1; b2; b3; b4; b5; b6; b7].

Definition fromfile (bytes : list byte) : bits := flat_map bits_of_byte bytes.

(** [a.fromfile(fh, k)]: exactly [k] bytes, [EOFError] when the file has
    fewer; the file handle advances. *)
Definition fromfile_n (fh : list byte) (k : nat) : result (bits * list byte) :=
  if (k <=? List.length fh)%nat
  then Ok (fromfile (firstn k fh), skipn k fh)
  else Raise EOFError.

Definition endswith (s suffix : string) : bool :=
  (String.length suffix <=? String.length s)%nat &&
  String.eqb (substring (String.length s - String.length suffix)
                        (String.length suffix) s) suffix.

(** Python slice [l[a:b]] for [0 <= a], [0 <= b]. *)
Definition py_slice {A} (l : list A) (a b : nat) : list A :=
  firstn (b - a) (skipn a l).

(** The object: [__GenotypeArrayInMemory__] fields (lines 60-63). *)
Record PlinkBEDFile : Type := mkBED {
  m : nat;
  n : nat;
  nru : nat;
  geno : bits;
  _currentSNP : nat
}.

(** [bitarray('0011011011011000')] and [bitarray('10000000')]. *)
Definition magic_bits : bits :=
  [false; false; true; true; false; true; true; false;
   true; true; false; true; true; false; false; false].

Definition mode_bits : bits :=
  [true; false; false; false; false; false; false; false].

(** [__test_length__] (lines 109-113). *)
Definition __test_length__ (geno : bits) (m nru : nat) : result unit :=
  let exp_len := 2 * m * nru in
  let real_len := List.length geno in
  if negb (real_len =? exp_len)%nat
  then Raise (IOError "Plink .bed file has the wrong number of bits")
  else Ok tt.

(** [__read__] (lines 83-107); [fh] is the content of the file [fname].
    [self.m] was set by the constructor before the call. *)
Definition __read__ (self_m : nat) (fname : string) (fh : list byte) (m n : nat)
  : result (nat * bits) :=
  if negb (endswith fname ".bed")
  then Raise (ValueError ".bed filename must end in .bed")
  else
    do r1 <- fromfile_n fh 2;
    let '(magicNumber, fh) := r1 in
    do r2 <- fromfile_n fh 1;
    let '(bedMode, fh) := r2 in
    let e := if negb (n mod 4 =? 0)%nat then 4 - n mod 4 else 0 in
    let nru := n + e in
    if negb (bits_eqb magicNumber magic_bits)
    then Raise (IOError "Magic number from PLINK .bed file not recognized")
    else if negb (bits_eqb bedMode mode_bits)
    then Raise (IOError "Plink .bed file must be in default SNP-major mode")
    else
      let geno := fromfile fh in
      do _u <- __test_length__ geno self_m nru;
      Ok (nru, geno).

(** The constructor (lines 59-63 and 73-81); [snp_list_len] is
    [len(snp_list.IDList)]. *)
Definition __init__ (fname : string) (fh : list byte) (n snp_list_len : nat)
  : result PlinkBEDFile :=
  let m := snp_list_len in
  do r <- __read__ m fname fh m n;
  let '(nru, geno) := r in
  Ok (mkBED m n nru geno 0).

(** *** The dosage matrix: the list of its [n] rows *)

Definition matrix := list (list dosage).

Definition zeros (rows cols : nat) : matrix := repeat (repeat D0 cols) rows.

Fixpoint set_nth {A} (i : nat) (x : A) (l : list A) : list A :=
  match l, i with
  | [], _ => []
  | _ :: t, O => x :: t
  | a :: t, S i' => a :: set_nth i' x t
  end.

Fixpoint zip_rows (i : nat) (snps : matrix) (X : list dosage) : matrix :=
  match snps, X with
  | row :: rs, x :: xs => set_nth i x row :: zip_rows i rs xs
  | _, _ => []
  end.

(** [snps[:, i] = X]: the lengths must agree, except that a single
    value is broadcast down the column. *)
Definition set_col (snps : matrix) (i : nat) (X : list dosage) : result matrix :=
  if (List.length X =? List.length snps)%nat then Ok (zip_rows i snps X)
  else match X with
       | [x] => Ok (map (set_nth i x) snps)
       | _ => Raise (ValueError "could not broadcast input array")
       end.

Definition advance (self : PlinkBEDFile) : PlinkBEDFile :=
  mkBED (m self) (n self) (nru self) (geno self) (_currentSNP self + 1).

(** The body of [for i in range(num)] (lines 122-130), for the [k]
    iterations from [i] on.  The object is returned as the call leaves
    it, also when it raises. *)
Fixpoint nextSNPs_loop (self : PlinkBEDFile) (snps : matrix) (i k : nat)
  : PlinkBEDFile * result matrix :=
  match k with
  | O => (self, Ok snps)
  | S k' =>
      if (m self <? _currentSNP self + 1)%nat
      then (self, Raise (ValueError "No more SNPs remaining"))
      else
        let slice := py_slice (geno self) (2 * _currentSNP self * nru self)
                              (2 * (_currentSNP self + 1) * nru self) in
        match decode _bedcode slice with
        | Raise e => (self, Raise e)
        | Ok X =>
            let X := py_slice X 0 (n self) in
            match set_col snps i X with
            | Raise e => (self, Raise e)
            | Ok snps' => nextSNPs_loop (advance self) snps' (S i) k'
            end
        end
  end.

(** [nextSNPs] (lines 115-132). *)
Definition nextSNPs (self : PlinkBEDFile) (num : nat)
  : PlinkBEDFile * result matrix :=
  nextSNPs_loop self (zeros (n self) num) 0 num.

(** [np.hstack] of two 2-D arrays with the same number of rows. *)
Fixpoint hstack (a b : matrix) : matrix :=
  match a, b with
  | ra :: ta, rb :: tb => (ra ++ rb) :: hstack ta tb
  | _, _ => []
  end.

(** A successfully read file whose cursor has been moved by calls of
    [nextSNPs]. *)
Definition valid (self : PlinkBEDFile) : Prop :=
  List.length (geno self) = 2 * m self * nru self /\
  nru self = n self + (if negb (n self mod 4 =? 0)%nat then 4 - n self mod 4 else 0).

(** *** The PLINK .bed encoding, as the round-trip property words it

    Not code of the repository: the 2-bit SNP-major packed format with
    codes 00 -> 0, 01 -> 1, 11 -> 2, 10 -> missing, the three header
    bytes, each SNP padded to a multiple of four samples. *)

Definition code_of (g : dosage) : bits :=
  match g with
  | D0 => [false; false]
  | D1 => [false; true]
  | D2 => [true; true]
  | DNaN => [true; false]
  end.

(** Eight bits to a byte, least significant first. *)
Fixpoint pack (a : bits) : list byte :=
  match a with
  | b0 :: b1 :: b2 :: b3 :: b4 :: b5 :: b6 :: b7 :: rest =>
      of_bits (b0, (b1, (b2, (b3, (b4, (b5, (b6, b7))))))) :: pack rest
  | _ => []
  end.

Definition padding (n : nat) : nat := (4 - n mod 4) mod 4.

Definition snp_column (G : matrix) (j : nat) : list dosage :=
  map (fun row => nth j row D0) G.

Definition encode_snp (n : nat) (G : matrix) (j : nat) : list byte :=
  pack (flat_map code_of (snp_column G j ++ repeat D0 (padding n))).

Definition header : list byte := [x6c; x1b; x01].

Definition encode_bed (n m : nat) (G : matrix) : list byte :=
  header ++ flat_map (encode_snp n G) (seq 0 m).

(** [G] is an [n] x [m] array. *)
Definition shape (n m : nat) (G : matrix) : Prop :=
  List.length G = n /\ Forall (fun row => List.length row = m) G.

(** *** Pure counterparts of the cursor loop, and a sample file *)

(** Writing the columns [cols] at the positions [i], [i+1], ... *)
Fixpoint fill (snps : matrix) (i : nat) (cols : list (list dosage)) : matrix :=
match cols with
| [] => snps
| col :: rest => fill (zip_rows i snps col) (S i) rest
end.

Fixpoint fill_row (row : list dosage) (i : nat) (vals : list dosage) : list dosage :=
match vals with
| [] => row
| v :: rest => fill_row (set_nth i v row) (S i) rest
end.

(** The matrix with the given columns. *)
Definition from_cols (n : nat) (cols : list (list dosage)) : matrix :=
map (fun r => map (fun col => nth r col D0) cols) (seq 0 n).

Definition symbol (b0 b1 : bool) : dosage :=
match b0, b1 with
| true, true => D2
| true, false => DNaN
| false, true => D1
| false, false => D0
end.

(** The symbols of a bit sequence read two bits at a time. *)
Fixpoint decode_pairs (a : bits) : list dosage :=
match a with
| b0 :: b1 :: rest => symbol b0 b1 :: decode_pairs rest
| _ => []
end.

(** The genotypes of SNP [c] of an object: its slice of [geno], decoded
  and cut to the [n] samples. *)
Definition snp_of (self : PlinkBEDFile) (c : nat) : list dosage :=
py_slice (decode_pairs (py_slice (geno self) (2 * c * nru self)
                                 (2 * (c + 1) * nru self)))
         0 (n self).

Definition with_cursor (self : PlinkBEDFile) (c : nat) : PlinkBEDFile :=
mkBED (m self) (n self) (nru self) (geno self) c.

(** The bits of one encoded SNP. *)
Definition snp_bits (n : nat) (G : matrix) (j : nat) : bits :=
flat_map code_of (snp_column G j ++ repeat D0 (padding n)).

Definition sample_matrix : matrix := [[D0; DNaN]; [D1; D2]; [D2; D0]].

Definition sample_bed : PlinkBEDFile :=
mkBED 2 3 4 (fromfile (skipn 3 (encode_bed 3 2 sample_matrix))) 0.

(** *** [gen_SNPs] (lines 134-140) *)

(** The generator, as the list of the pairs it yields and the way it
    ends: exhausted, or an exception of [decode].  It reads the object and
    does not change it. *)
Fixpoint gen_SNPs_over (self : PlinkBEDFile) (cs : list nat)
  : list (nat * list dosage) * result unit :=
  match cs with
  | [] => ([], Ok tt)
  | c :: rest =>
      let slice := py_slice (geno self) (2 * c * nru self) (2 * (c + 1) * nru self) in
      match decode _bedcode slice with
      | Raise e => ([], Raise e)
      | Ok X =>
          let X := py_slice X 0 (n self) in
          let '(yielded, ending) := gen_SNPs_over self rest in
          ((c, X) :: yielded, ending)
      end
  end.

Definition gen_SNPs (self : PlinkBEDFile) : list (nat * list dosage) * result unit :=
  gen_SNPs_over self (seq 0 (m self)).

(** [nru] as [__read__] computes it from [n] (lines 92-93). *)
Definition nru_of (n : nat) : nat :=
  n + (if negb (n mod 4 =? 0)%nat then 4 - n mod 4 else 0).

End parse.

(** ** ldmatrix.py *)

Module ldmatrix.

Local Open Scope Z_scope.

(** *** numpy arrays and indexing *)

(** A block of [self.data]: the strict lower triangle as a 1-D array,
    or a dense 2-D array (the list of its rows). *)
Inductive ndarray : Type :=
| Arr1 (v : list Q)
| Arr2 (a : list (list Q)).

(** [l[i]] for a Python or numpy integer index: negative indices count
    from the end, anything else out of range raises. *)
Definition py_getitem {A} (l : list A) (i : Z) : result A :=
  let len := Z.of_nat (List.length l) in
  let j := if i <? 0 then i + len else i in
  if (j <? 0) || (len <=? j) then Raise (IndexError "index out of bounds")
  else match nth_error l (Z.to_nat j) with
       | Some x => Ok x
       | None => Raise (IndexError "index out of bounds")
       end.

(** [data[idx]] for an integer index array. *)
Fixpoint np_take {A} (data : list A) (idx : list Z) : result (list A) :=
  match idx with
  | [] => Ok []
  | i :: t => do x <- py_getitem data i; do xs <- np_take data t; Ok (x :: xs)
  end.

(** [np.cumsum]. *)
Fixpoint cumsum_from (acc : Z) (l : list Z) : list Z :=
  match l with
  | [] => []
  | x :: t => (acc + x) :: cumsum_from (acc + x) t
  end.

Definition cumsum (l : list Z) : list Z := cumsum_from 0 l.

(** [range(k)] as integers. *)
Definition range (k : nat) : list Z := map Z.of_nat (seq 0 k).

Definition dense := list (list Q).

Definition np_zeros (rows cols : nat) : dense := repeat (repeat 0%Q cols) rows.

Definition mat_get (a : dense) (r c : nat) : Q := nth c (nth r a []) 0%Q.

Fixpoint set_nth {A} (i : nat) (x : A) (l : list A) : list A :=
  match l, i with
  | [], _ => []
  | _ :: t, O => x :: t
  | a :: t, S i' => a :: set_nth i' x t
  end.

Definition mat_set (a : dense) (r c : nat) (x : Q) : dense :=
  set_nth r (set_nth c x (nth r a [])) a.

(** [np.tril_indices(n, k=-1)]: the positions strictly below the
    diagonal, row by row. *)
Definition tril_indices (n : nat) : list (nat * nat) :=
  flat_map (fun r => map (fun c => (r, c)) (seq 0 r)) (seq 0 n).

(** [matrix[indices] = values], positions and values paired in order. *)
Definition scatter (a : dense) (indices : list (nat * nat)) (values : list Q) : dense :=
  fold_left (fun a' p => mat_set a' (fst (fst p)) (snd (fst p)) (snd p))
            (combine indices values) a.

(** [matrix[indices]]. *)
Definition gather (a : dense) (indices : list (nat * nat)) : list Q :=
  map (fun p => mat_get a (fst p) (snd p)) indices.

Definition mk_matrix (rows cols : nat) (f : nat -> nat -> Q) : dense :=
  map (fun r => map (fun c => f r c) (seq 0 cols)) (seq 0 rows).

(** [matrix + matrix.T] for a square array of dimension [dim]. *)
Definition add_transpose (dim : nat) (a : dense) : dense :=
  mk_matrix dim dim (fun r c => (mat_get a r c + mat_get a c r)%Q).

(** [np.fill_diagonal(matrix, 1)]. *)
Definition fill_diagonal (dim : nat) (a : dense) (x : Q) : dense :=
  mk_matrix dim dim (fun r c => if (r =? c)%nat then x else mat_get a r c).

(** [matrix[np.ix_(idxs, idxs)]]: rows and columns [idxs]. *)
Definition submatrix (a : dense) (idxs : list nat) : dense :=
  map (fun r => map (fun c => mat_get a r c) idxs) idxs.

(** *** The info table *)

(** One row of [ld_info]; [label] is its index label. *)
Record info_row : Type := mk_info {
  label : Z;
  CHR : Z; SNP : string; CM : Q; POS : Z; A0 : string; A1 : string;
  N : Z; block : Z; block_idx : Z
}.

Definition set_label (l : Z) (r : info_row) : info_row :=
  mk_info l (CHR r) (SNP r) (CM r) (POS r) (A0 r) (A1 r) (N r) (block r) (block_idx r).

Definition set_block_idx (b : Z) (r : info_row) : info_row :=
  mk_info (label r) (CHR r) (SNP r) (CM r) (POS r) (A0 r) (A1 r) (N r) (block r) b.

(** [pd.unique]: distinct values in order of first appearance. *)
Fixpoint unique_from (seen : list Z) (l : list Z) : list Z :=
  match l with
  | [] => []
  | x :: t => if existsb (Z.eqb x) seen then unique_from seen t
              else x :: unique_from (x :: seen) t
  end.

Definition unique (l : list Z) : list Z := unique_from [] l.

(** [(np.diff(l) > 0).all()]. *)
Definition diff_all_positive (l : list Z) : bool :=
  forallb (fun p => 0 <? snd p - fst p) (combine l (tl l)).

Fixpoint insert_sorted (x : Z) (l : list Z) : list Z :=
  match l with
  | [] => [x]
  | y :: t => if x <=? y then x :: l else y :: insert_sorted x t
  end.

(** The distinct block labels in increasing order: the group keys of
    [groupby('block')] and of [value_counts().sort_index()]. *)
Definition block_labels (ld_info : list info_row) : list Z :=
  unique (fold_right insert_sorted [] (map block ld_info)).

Definition group (ld_info : list info_row) (k : Z) : list info_row :=
  filter (fun r => block r =? k) ld_info.

(** [_get_block_info] (lines 28-37). *)
Fixpoint ranges_from (e : nat) (block_sizes : list nat) : list (nat * nat) :=
  match block_sizes with
  | [] => []
  | block_size :: t => (e, (e + block_size)%nat) :: ranges_from (e + block_size)%nat t
  end.

Definition _get_block_info (ld_info : list info_row) : list nat * list (nat * nat) :=
  let block_sizes := map (fun k => List.length (group ld_info k)) (block_labels ld_info) in
  (block_sizes, ranges_from 0%nat block_sizes).

(** *** The object *)

Record LDmatrix : Type := mkLD {
  ld_info : list info_row;
  data : list ndarray;
  is_truncated : bool;
  block_sizes : list nat;
  block_ranges : list (nat * nat)
}.

(** The two files behind a prefix: the rows of [<prefix>_ld_info.txt]
    and the unpickled list of [<prefix>_ld.dat]. *)
Record ld_file : Type := mk_file {
  info_txt : list info_row;
  ld_dat : list ndarray
}.

(** [read_csv] labels the rows 0, 1, 2, ... *)
Definition range_index (rows : list info_row) : list info_row :=
  map (fun p => set_label (fst p) (snd p)) (combine (range (List.length rows)) rows).

Definition FileNotFound : error := IOError "No such file or directory".

(** [__init__] (lines 7-25); [fs] maps a prefix to its files. *)
Definition LDmatrix_init (fs : string -> option ld_file) (ld_prefix : string)
  : result LDmatrix :=
  match fs ld_prefix with
  | None => Raise FileNotFound
  | Some f =>
      let ld_info := range_index (info_txt f) in
      if negb (diff_all_positive (unique (map CHR ld_info)))
      then Raise (ValueError "The chrs in the LD matrix are not sorted")
      else
        let '(block_sizes, block_ranges) := _get_block_info ld_info in
        Ok (mkLD ld_info (ld_dat f) false block_sizes block_ranges)
  end.

(** [_get_2d_matrix] (lines 40-52).  The assignment at the triangle
    positions needs as many values as positions, or a single value that
    is broadcast. *)
Definition _get_2d_matrix (dim : nat) (tril : ndarray) : result dense :=
  match tril with
  | Arr2 _ =>
      Raise (ValueError "The block has wrong dimension (data may have been truncated)")
  | Arr1 v =>
      let matrix := np_zeros dim dim in
      let indices := tril_indices dim in
      do values <-
        (if (List.length v =? List.length indices)%nat then Ok v
         else match v with
              | [x] => Ok (repeat x (List.length indices))
              | _ => Raise (ValueError "shape mismatch")
              end);
      let matrix := scatter matrix indices values in
      let matrix := add_transpose dim matrix in
      let matrix := fill_diagonal dim matrix 1%Q in
      Ok matrix
  end.

(** [LDmatrixBED._get_lower_triangle] (lines 273-278). *)
Definition _get_lower_triangle (matrix : dense) : list Q :=
  gather matrix (tril_indices (List.length matrix)).

(** [_extract_by_idxs] (lines 112-133). *)
Fixpoint offsets (cum_sum : list Z) (before : list Z) (rest : list Z)
  : result (list (list Z)) :=
  match rest with
  | [] => Ok []
  | x :: t =>
      do c <- py_getitem cum_sum (x - 1);
      do more <- offsets cum_sum (before ++ [x]) t;
      Ok (map (Z.add c) before :: more)
  end.

(** [[cum_sum[idxs[i] - 1] + idxs[:i] for i in range(1, len(idxs))]]. *)
Definition offset_lists (cum_sum : list Z) (idxs : list Z) : result (list (list Z)) :=
  match idxs with
  | [] => Ok []
  | x0 :: t => offsets cum_sum [x0] t
  end.

Definition _extract_by_idxs {A} (data : list A) (size : nat) (idxs : list Z)
  : result (list A) :=
  let cum_sum := cumsum (range (size - 1)) in
  do idx <- offset_lists cum_sum idxs;
  if (0 <? List.length idx)%nat
  then np_take data (List.concat idx)
  else Ok [].

(** *** [_merge_blocks] (lines 206-240)

    [mean_size = sum(block_sizes) / 200] is a float; the sizes are
    integers, and the comparisons of integers with it are modelled by
    the exact rational comparisons. *)

Definition Q_of_nat (k : nat) : Q := inject_Z (Z.of_nat k).

(** [cur_size + block_size <= mean_size or
     cur_size + block_size // 2 <= mean_size]. *)
Definition fits (mean_size : Q) (cur_size block_size : nat) : bool :=
  Qle_bool (Q_of_nat (cur_size + block_size)) mean_size ||
  Qle_bool (Q_of_nat (cur_size + block_size / 2)) mean_size.

(** The loop over [enumerate(block_sizes)], from position [i] on. *)
Fixpoint merge_blocks_loop (n_blocks : nat) (mean_size : Q) (i : nat)
  (sizes : list nat) (merged_blocks : list (list nat))
  (cur_size : nat) (cur_group : list nat) : list (list nat) :=
  match sizes with
  | [] => merged_blocks
  | block_size :: rest =>
      if (i <? n_blocks - 1)%nat then
        if fits mean_size cur_size block_size
        then merge_blocks_loop n_blocks mean_size (S i) rest merged_blocks
               (cur_size + block_size)%nat (cur_group ++ [i])
        else merge_blocks_loop n_blocks mean_size (S i) rest
               (merged_blocks ++ [cur_group]) block_size [i]
      else
        if fits mean_size cur_size block_size
        then merge_blocks_loop n_blocks mean_size (S i) rest
               (merged_blocks ++ [cur_group ++ [i]]) cur_size (cur_group ++ [i])
        else merge_blocks_loop n_blocks mean_size (S i) rest
               (merged_blocks ++ [[i]]) cur_size cur_group
  end.

Definition _merge_blocks (block_sizes : list nat) : list (list nat) :=
  let n_blocks := List.length block_sizes in
  let mean_size := (Q_of_nat (fold_right Nat.add 0%nat block_sizes) / 200)%Q in
  merge_blocks_loop n_blocks mean_size 0 block_sizes [] 0 [].

(** The plan covers a block index. *)
Definition covered (merged_blocks : list (list nat)) (i : nat) : bool :=
  existsb (existsb (Nat.eqb i)) merged_blocks.

(** *** The operations on the object *)

(** [for x in xs: body], stopping at the first exception; the object is
    returned as the loop leaves it. *)
Fixpoint for_each {S X} (body : S -> X -> S * result unit) (s : S) (xs : list X)
  : S * result unit :=
  match xs with
  | [] => (s, Ok tt)
  | x :: t =>
      match body s x with
      | (s', Ok _) => for_each body s' t
      | (s', Raise e) => (s', Raise e)
      end
  end.

(** [frame.loc[lbl, 'CHR']]; the labels of a table are distinct (they
    come from [read_csv] and from row selection). *)
Definition loc_CHR (frame : list info_row) (lbl : Z) : result Z :=
  match find (fun r => label r =? lbl) frame with
  | Some r => Ok (CHR r)
  | None => Raise (KeyError "label")
  end.

Definition truncated_error : error := ValueError "The LD matrix has been truncated".
Definition order_error : error :=
  ValueError "Can only merge LD matrices in order (chr1, chr2, ...)".
Definition not_truncated_error : error :=
  ValueError "Truncate the LD matrix first then estimate LD scores".

(** The column labels of [ld_info] (line 17). *)
Definition columns : list string :=
  ["CHR"; "SNP"; "CM"; "POS"; "A0"; "A1"; "N"; "block"; "block_idx"]%string.

(** Line 74 evaluates [self.ld_info[self.ld_info.index[-1], 'block']],
    that is [DataFrame.__getitem__] with the tuple [(label, 'block')] as
    the key.  The column labels are the strings of [columns]; a tuple is
    none of them, and pandas raises [KeyError]. *)
Definition tuple_key_error : error := KeyError "(label, 'block')".

Definition with_data (self : LDmatrix) (d : list ndarray) : LDmatrix :=
  mkLD (ld_info self) d (is_truncated self) (block_sizes self) (block_ranges self).

Definition with_info (self : LDmatrix) (info : list info_row) : LDmatrix :=
  mkLD info (data self) (is_truncated self) (block_sizes self) (block_ranges self).

Section Operations.

(** The file system seen by [LDmatrix(ld_prefix)]. *)
Variable fs : string -> option ld_file.

(** The numerical kernel of [truncate] for [prop != 1] (lines 162-172):
    the eigen-decomposition by [np.linalg.eigh], the selection of the
    leading eigenvalues and the product [V L V^T] or [V L^-1 V^T];
    [np.linalg.eigh] raises when it does not converge. *)
Variable eig_kernel : Q -> bool -> dense -> result dense.

(** The body of the loop of [merge] (lines 70-79).  Lines 75-79 are
    never reached, see [tuple_key_error]. *)
Definition merge_body (self : LDmatrix) (ld_prefix : string) : LDmatrix * result unit :=
  match
    (do ld_i <- LDmatrix_init fs ld_prefix;
     do first <- py_getitem (map label (ld_info ld_i)) 0;
     do chr_i <- loc_CHR (ld_info ld_i) first;
     do last <- py_getitem (map label (ld_info self)) (-1);
     do chr_self <- loc_CHR (ld_info self) last;
     if chr_self <=? chr_i then Raise order_error else Ok ld_i)
  with
  | Raise e => (self, Raise e)
  | Ok ld_i => (with_data self (data self ++ data ld_i), Raise tuple_key_error)
  end.

(** [merge] (lines 55-79). *)
Definition merge (self : LDmatrix) (ld_files : list string) : LDmatrix * result unit :=
  if is_truncated self then (self, Raise truncated_error)
  else if (List.length ld_files =? 0)%nat
  then (self, Raise (ValueError "There is nothing in the ld list"))
  else for_each merge_body self ld_files.

(** One block of [extract]: [_extract_by_idxs] selects entries of a
    1-D array and rows of a 2-D one; with fewer than two indices it
    returns the empty 1-D array. *)
Definition extract_block (d : ndarray) (size : nat) (idxs : list Z) : result ndarray :=
  match d with
  | Arr1 v => do r <- _extract_by_idxs v size idxs; Ok (Arr1 r)
  | Arr2 a =>
      do r <- _extract_by_idxs a size idxs;
      Ok (if (1 <? List.length idxs)%nat then Arr2 r else Arr1 [])
  end.

Fixpoint assoc_get {V} (d : list (Z * V)) (k : Z) : option V :=
  match d with
  | [] => None
  | (k', v) :: t => if k =? k' then Some v else assoc_get t k
  end.

(** The loop of [extract] (lines 101-106) at position [i]: [done] are
    the blocks before [i] as the loop left them, [todo] the blocks
    from [i] on, [keep] the blocks of [keep_list]. *)
Fixpoint extract_loop (sizes : list nat) (block_dict : list (Z * list Z))
  (i : nat) (done todo keep : list ndarray)
  : list ndarray * result (list ndarray) :=
  match todo with
  | [] => (done, Ok keep)
  | d :: t =>
      match assoc_get block_dict (Z.of_nat i) with
      | None => extract_loop sizes block_dict (S i) (done ++ [d]) t keep
      | Some idxs =>
          match nth_error sizes i with
          | None => (done ++ d :: t, Raise (IndexError "list index out of range"))
          | Some size =>
              match extract_block d size idxs with
              | Raise e => (done ++ d :: t, Raise e)
              | Ok d' => extract_loop sizes block_dict (S i) (done ++ [d']) t (keep ++ [d'])
              end
          end
      end
  end.

Definition isin (snps : list string) (s : string) : bool :=
  existsb (String.eqb s) snps.

(** [extract] (lines 82-109). *)
Definition extract (self : LDmatrix) (snps : list string) : LDmatrix * result unit :=
  if is_truncated self then (self, Raise truncated_error)
  else
    let info := filter (fun r => isin snps (SNP r)) (ld_info self) in
    let self := with_info self info in
    let block_dict :=
      map (fun k => (k, map block_idx (group info k))) (block_labels info) in
    match extract_loop (block_sizes self) block_dict 0 [] (data self) [] with
    | (d, Raise e) => (with_data self d, Raise e)
    | (_, Ok keep) =>
        let self := with_data self keep in
        let new_idx :=
          flat_map (fun k => range (List.length (group info k))) (block_labels info) in
        if negb (List.length new_idx =? List.length info)%nat
        then (self, Raise (ValueError "Length of values does not match length of index"))
        else
          let info := map (fun p => set_block_idx (fst p) (snd p)) (combine new_idx info) in
          let '(sizes, ranges) := _get_block_info info in
          (mkLD info keep (is_truncated self) sizes ranges, Ok tt)
    end.

(** The two loops of [truncate] (lines 155-172). *)
Fixpoint truncate_loop (prop : Q) (inv : bool) (sizes : list nat) (i : nat)
  (blocks : list ndarray) : result (list dense) :=
  match blocks with
  | [] => Ok []
  | d :: t =>
      match nth_error sizes i with
      | None => Raise (IndexError "list index out of range")
      | Some size =>
          do block <- _get_2d_matrix size d;
          do block <- (if Qeq_bool prop 1 then Ok block else eig_kernel prop inv block);
          do ld_bd <- truncate_loop prop inv sizes (S i) t;
          Ok (block :: ld_bd)
      end
  end.

(** [truncate] (lines 136-174). *)
Definition truncate (self : LDmatrix) (prop : Q) (inv : bool) : LDmatrix * result unit :=
  if is_truncated self then (self, Raise truncated_error)
  else
    match truncate_loop prop inv (block_sizes self) 0 (data self) with
    | Raise e => (self, Raise e)
    | Ok ld_bd =>
        (mkLD (ld_info self) (map Arr2 ld_bd) true (block_sizes self) (block_ranges self),
         Ok tt)
    end.

(** A float of the LD-score vector; [None] stands for the infinity or
    not-a-number numpy produces when it divides by zero. *)
Definition float := option Q.

Definition width (a : dense) : nat := List.length (hd [] a).

(** [raw_ld - (1 - raw_ld) / (n_i - 2)]. *)
Definition adjust (n_i : Z) (raw_ld : Q) : float :=
  if (n_i - 2 =? 0)%Z then None
  else Some (raw_ld - (1 - raw_ld) / inject_Z (n_i - 2))%Q.

Definition sum_sq (v : list Q) : Q := fold_right Qplus 0%Q (map (fun x => x * x)%Q v).

(** [np.sum(block ** 2, axis=0)]: the column sums of a 2-D block, a
    single number for a 1-D one. *)
Definition raw_ld_of (block : ndarray) : list Q + Q :=
  match block with
  | Arr2 a => inl (map (fun j => sum_sq (map (fun row => nth j row 0%Q) a)) (seq 0 (width a)))
  | Arr1 v => inr (sum_sq v)
  end.

(** [ldscore[begin: end] = adj_ld]. *)
Definition slice_assign (ldscore : list float) (b e : nat) (adj_ld : list float + float)
  : result (list float) :=
  let len := List.length ldscore in
  let b' := Nat.min b len in
  let e' := Nat.min e len in
  let k := (e' - b')%nat in
  let put (v : list float) := firstn b' ldscore ++ v ++ skipn (b' + k) ldscore in
  match adj_ld with
  | inr x => Ok (put (repeat x k))
  | inl v =>
      if (List.length v =? k)%nat then Ok (put v)
      else match v with
           | [x] => Ok (put (repeat x k))
           | _ => Raise (ValueError "could not broadcast input array")
           end
  end.

(** The loop of [estimate_ldscore] (lines 195-199). *)
Fixpoint ldscore_loop (blocks : list ndarray) (n_samples : list Z) (i : nat)
  (ranges : list (nat * nat)) (ldscore : list float) : result (list float) :=
  match ranges with
  | [] => Ok ldscore
  | (b, e) :: t =>
      match nth_error blocks i with
      | None => Raise (IndexError "list index out of range")
      | Some block =>
          let raw_ld := raw_ld_of block in
          match nth_error n_samples i with
          | None => Raise (IndexError "index out of bounds")
          | Some n_i =>
              let adj_ld :=
                match raw_ld with
                | inl v => inl (map (adjust n_i) v)
                | inr x => inr (adjust n_i x)
                end in
              do ldscore <- slice_assign ldscore b e adj_ld;
              ldscore_loop blocks n_samples (S i) t ldscore
          end
      end
  end.

(** [estimate_ldscore] (lines 183-203); the object is not changed. *)
Definition estimate_ldscore (self : LDmatrix) : result (list float * list (list nat)) :=
  if negb (is_truncated self) then Raise not_truncated_error
  else
    let n_samples := map N (ld_info self) in
    let ldscore := repeat (Some 0%Q) (List.length (ld_info self)) in
    do ldscore <- ldscore_loop (data self) n_samples 0 (block_ranges self) ldscore;
    let merged_blocks := _merge_blocks (block_sizes self) in
    Ok (ldscore, merged_blocks).

(** [save] (lines 177-179) writes the two files and leaves the object
    as it is; the files written are its result. *)
Definition save (self : LDmatrix) : ld_file := mk_file (ld_info self) (data self).



(** The blocks of a truncated matrix agree with its bookkeeping: one
    block for every range, a sample size for every block position, and
    every dense block as wide as its range, which lies inside the
    LD-score vector. *)
Definition block_agrees (rows : nat) (range : nat * nat) (d : ndarray) : bool :=
  match d with
  | Arr2 a =>
      (width a =? snd range - fst range)%nat &&
      (fst range <=? snd range)%nat && (snd range <=? rows)%nat
  | Arr1 _ => true
  end.

Fixpoint blocks_agree (rows : nat) (ranges : list (nat * nat)) (blocks : list ndarray)
  : bool :=
  match ranges, blocks with
  | [], _ => true
  | r :: rt, d :: dt => block_agrees rows r d && blocks_agree rows rt dt
  | _ :: _, [] => false
  end.

Definition consistent (self : LDmatrix) : bool :=
  (List.length (block_ranges self) <=? List.length (ld_info self))%nat &&
  blocks_agree (List.length (ld_info self)) (block_ranges self) (data self).

End Operations.

(** *** Sample matrices *)

(** Two saved matrices of one SNP each, on chromosomes 1 and 2. *)
Definition one_snp_file (chr : Z) (snp : string) : ld_file :=
mk_file
  [mk_info 0 chr snp 0%Q 100 "A" "C" 500 0 0]
  [Arr1 []].

Definition two_prefixes (prefix : string) : option ld_file :=
if String.eqb prefix "chr1" then Some (one_snp_file 1 "rs1")
else if String.eqb prefix "chr2" then Some (one_snp_file 2 "rs2")
else None.

Definition chr1_matrix : LDmatrix :=
mkLD [mk_info 0 1 "rs1" 0%Q 100 "A" "C" 500 0 0]
              [Arr1 []] false [1%nat] [(0%nat, 1%nat)].

(** Two SNPs in one block, truncated with [prop = 1]. *)
Definition two_snp_matrix : LDmatrix :=
mkLD [mk_info 0 1 "rs1" 0%Q 100 "A" "C" 500 0 0;
      mk_info 1 1 "rs2" 0%Q 200 "A" "G" 500 0 1]
     [Arr1 [(1 # 2)%Q]] false [2%nat] [(0%nat, 2%nat)].

Definition no_kernel (prop : Q) (inv : bool) (block : dense) : result dense :=
Raise LinAlgError.








Local Close Scope Z_scope.

(** *** The triangle layout *)

(** Number of entries of the strict lower triangle of [n] rows. *)
Fixpoint tri (n : nat) : nat :=
match n with
| O => 0
| S k => tri k + k
end.

(** [a] has [rows] rows of [cols] entries. *)
Definition has_dims (rows cols : nat) (a : dense) : Prop :=
List.length a = rows /\ forall r, r < rows -> List.length (nth r a []) = cols.

(** The entries of a triangle taken row by row: for every index of
  [rest], its entries at the indices before it. *)
Fixpoint tri_rows {B} (f : nat -> nat -> B) (before rest : list nat) : list B :=
match rest with
| [] => []
| x :: t => map (f x) before ++ tri_rows f (before ++ [x]) t
end.

Fixpoint offsets_of (before rest : list nat) : list (list Z) :=
match rest with
| [] => []
| x :: t =>
    map (Z.add (Z.of_nat (tri x))) (map Z.of_nat before) :: offsets_of (before ++ [x]) t
end.

(** [x :: t] is strictly increasing. *)
Fixpoint ascending (l : list nat) : bool :=
match l with
| x :: (y :: _) as t => (x <? y) && ascending t
| _ => true
end.

(** *** Vocabulary of the statements about tables and blocks *)

Definition total (l : list nat) : nat := fold_right Nat.add 0 l.

(** Every block of [data] is a 1-D triangle with one entry for every
    position below the diagonal of a block of its size. *)
Fixpoint triangles_fit (sizes : list nat) (data : list ndarray) : bool :=
  match sizes, data with
  | [], [] => true
  | s :: st, Arr1 v :: dt => (List.length v =? tri s) && triangles_fit st dt
  | _, _ => false
  end.

(** A column of integers never decreases from one row to the next. *)
Fixpoint nondecreasing (l : list Z) : bool :=
  match l with
  | x :: (y :: _) as t => (x <=? y)%Z && nondecreasing t
  | _ => true
  end.

(** *** [LDmatrixBED._fill_na] (lines 261-270) *)

(** A block of genotypes, samples by SNPs; [None] is not-a-number. *)
Definition genotypes := list (list (option Q)).

Fixpoint numbers (col : list (option Q)) : list Q :=
  match col with
  | [] => []
  | Some x :: t => x :: numbers t
  | None :: t => numbers t
  end.

(** [np.nanmean] of one column: not-a-number when it holds no number. *)
Definition nanmean (col : list (option Q)) : option Q :=
  match numbers col with
  | [] => None
  | xs => Some (fold_right Qplus 0%Q xs / inject_Z (Z.of_nat (List.length xs)))%Q
  end.

Definition column_of (j : nat) (block : genotypes) : list (option Q) :=
  map (fun row => nth j row None) block.

(** [block_avg = np.nanmean(block, axis = 0)], then every not-a-number
    entry is overwritten with the average of its column. *)
Definition _fill_na (block : genotypes) : genotypes :=
  let block_avg :=
    map (fun j => nanmean (column_of j block)) (seq 0 (List.length (hd [] block))) in
  map (fun row =>
         map (fun p => match snd p with
                       | None => nth (fst p) block_avg None
                       | Some x => Some x
                       end)
             (combine (seq 0 (List.length row)) row))
      block.

(** Entry of row [i] and column [j]. *)
Definition entry (block : genotypes) (i j : nat) : option Q :=
  nth j (nth i block []) None.

End ldmatrix.

(** ** make_ld.py *)

Module make_ld.

Local Open Scope Z_scope.

(** [find_loc] (lines 62-73): the body of [while l <= r], for at most
    [fuel] iterations; [None] when the iterations are used up before the
    loop ends.  [num_list[mid]] is Python list indexing. *)
Fixpoint find_loc_loop (fuel : nat) (num_list : list Z) (target l r : Z)
  : option (result Z) :=
  if l <=? r then
    match fuel with
    | O => None
    | S fuel' =>
        let mid := (l + r) / 2 in
        match ldmatrix.py_getitem num_list mid with
        | Raise e => Some (Raise e)
        | Ok x =>
            if x =? target then Some (Ok mid)
            else if target <? x then find_loc_loop fuel' num_list target l (mid - 1)
            else find_loc_loop fuel' num_list target (mid + 1) r
        end
    end
  else Some (Ok r).

(** The interval [l..r] starts with [len(num_list)] positions and loses
    at least one in every iteration, so that many iterations are given. *)
Definition find_loc (num_list : list Z) (target : Z) : option (result Z) :=
  find_loc_loop (List.length num_list) num_list target 0
                (Z.of_nat (List.length num_list) - 1).

(** Entry [i] of a list, for the statements. *)
Definition at_ (num_list : list Z) (i : Z) : Z := nth (Z.to_nat i) num_list 0.

End make_ld.

(** ** The duplicate filter of both pruning steps

    [gwas.drop_duplicates(subset=['SNP'], keep=False, inplace=True)]
    (heig/sumstats.py line 357, heri_gc.py line 121): a row stays when no
    other row has its rsID. *)

Definition count_SNP (snp : string) (gwas : list snp_row) : nat :=
  List.length (filter (fun r => String.eqb (SNP r) snp) gwas).

Definition drop_duplicates_SNP (gwas : list snp_row) : list snp_row :=
  filter (fun r => (count_SNP (SNP r) gwas =? 1)%nat) gwas.

(** * Theorems *)

(** ** Strand-ambiguity filter *)

Section StrandFilter.

Local Open Scope string_scope.

Lemma loc_mask_map_filter {A} (f : A -> bool) (rows : list A) :
  loc_mask rows (map f rows) = filter f rows.
Proof.
  induction rows as [|r rs IH]; simpl; [reflexivity|].
  rewrite IH. reflexivity.
Qed.

Lemma complement_cases (a c : string) :
  dict_get sumstats.complement a = Some c ->
  (a = "A" /\ c = "T") \/ (a = "T" /\ c = "A") \/
  (a = "C" /\ c = "G") \/ (a = "G" /\ c = "C").
Proof.
  unfold sumstats.complement; simpl.
  destruct (String.eqb_spec a "A"); [intros [= <-]; auto|].
  destruct (String.eqb_spec a "T"); [intros [= <-]; auto|].
  destruct (String.eqb_spec a "C"); [intros [= <-]; auto 6|].
  destruct (String.eqb_spec a "G"); [intros [= <-]; auto 6|].
  discriminate.
Qed.

Lemma entry_iff_claim (a2 a1 : string) :
  sumstats.not_strand_ambiguous_entry a2 a1 = true <->
  kept_by_claim sumstats.complement a1 a2.
Proof.
  unfold sumstats.not_strand_ambiguous_entry, kept_by_claim, dict_mem.
  split.
  - intros H.
    rewrite !andb_true_iff in H.
    destruct H as ((((L2 & L1) & M2) & M1) & Hc).
    apply Nat.eqb_eq in L1, L2.
    destruct (dict_get sumstats.complement a2) as [c2|] eqn:E2; [|discriminate].
    destruct (dict_get sumstats.complement a1) as [c1|] eqn:E1; [|discriminate].
    split; [assumption|]. split; [assumption|].
    exists c1, c2. split; [reflexivity|]. split; [reflexivity|].
    intros ->.
    apply complement_cases in E1, E2.
    destruct E1 as [[-> ->]|[[-> ->]|[[-> ->]|[-> ->]]]];
    destruct E2 as [[? ->]|[[? ->]|[[? ->]|[? ->]]]]; discriminate.
  - intros (L1 & L2 & c1 & c2 & E1 & E2 & Hne).
    rewrite L1, L2, E1, E2. simpl.
    apply complement_cases in E1, E2.
    destruct E1 as [[-> ->]|[[-> ->]|[[-> ->]|[-> ->]]]];
    destruct E2 as [[-> ->]|[[-> ->]|[[-> ->]|[-> ->]]]];
    try reflexivity; exfalso; apply Hne; reflexivity.
Qed.

Lemma estimator_entry_same (a2 a1 : string) :
  heri_gc.not_strand_ambiguous_entry a2 a1 = sumstats.not_strand_ambiguous_entry a2 a1.
Proof. reflexivity. Qed.

(** C8.  In the pruning step of the preprocessor and of the estimator, a
    variant is kept if and only if both alleles are single characters of
    the complement map and the complement of A1 differs from A2; the pairs
    A/T, T/A, C/G, G/C and every multi-character allele are dropped, the
    pairs A/C, A/G, T/C, T/G and their reverses are kept. *)
Theorem strand_filter_keeps_iff :
  (forall (gwas : list snp_row) (r : snp_row),
      (In r (sumstats.prune_strand_step gwas) <->
       In r gwas /\ kept_by_claim sumstats.complement (A1 r) (A2 r)) /\
      (In r (heri_gc.prune_strand_step gwas) <->
       In r gwas /\ kept_by_claim heri_gc.COMPLEMENT (A1 r) (A2 r))) /\
  (forall a1 a2, In (a1, a2) [("A", "T"); ("T", "A"); ("C", "G"); ("G", "C")] ->
      sumstats.not_strand_ambiguous_entry a2 a1 = false /\
      heri_gc.not_strand_ambiguous_entry a2 a1 = false) /\
  (forall a1 a2, (1 < String.length a1 \/ 1 < String.length a2) ->
      sumstats.not_strand_ambiguous_entry a2 a1 = false /\
      heri_gc.not_strand_ambiguous_entry a2 a1 = false) /\
  (forall a1 a2,
      In (a1, a2) [("A", "C"); ("A", "G"); ("T", "C"); ("T", "G");
                   ("C", "A"); ("G", "A"); ("C", "T"); ("G", "T")] ->
      sumstats.not_strand_ambiguous_entry a2 a1 = true /\
      heri_gc.not_strand_ambiguous_entry a2 a1 = true).
Proof.
  split; [|split; [|split]].
  - intros gwas r.
    assert (Hs : In r (sumstats.prune_strand_step gwas) <->
                 In r gwas /\ kept_by_claim sumstats.complement (A1 r) (A2 r)).
    { unfold sumstats.prune_strand_step, sumstats.not_strand_ambiguous.
      rewrite loc_mask_map_filter, filter_In, entry_iff_claim. reflexivity. }
    split; [exact Hs|exact Hs].
  - intros a1 a2 H. simpl in H.
    repeat (destruct H as [[= <- <-]|H]; [split; reflexivity|]). destruct H.
  - intros a1 a2 H.
    assert (E : sumstats.not_strand_ambiguous_entry a2 a1 = false).
    { destruct (sumstats.not_strand_ambiguous_entry a2 a1) eqn:E; [|reflexivity].
      apply entry_iff_claim in E. destruct E as (L1 & L2 & _). lia. }
    split; exact E.
  - intros a1 a2 H. simpl in H.
    repeat (destruct H as [[= <- <-]|H]; [split; reflexivity|]). destruct H.
Qed.

End StrandFilter.

(** ** Median sanity check *)

Section MedianCheck.

Local Open Scope Q_scope.

(** What the check of the code tests: the median exceeds the null value
    by more than the double 0.1. *)
Lemma check_median_raises_iff (data : list sumstats.float) (effect : string)
  (null_value : Z) :
  sumstats._check_median data effect null_value = Raise (sumstats.mislabeled effect) <->
  exists median_beta, sumstats.nanmedian data = Some median_beta /\
                      sumstats.tenth < median_beta - inject_Z null_value.
Proof.
  unfold sumstats._check_median, sumstats.np_abs_bool, sumstats.diff_gt_tenth.
  destruct (sumstats.nanmedian data) as [med|].
  - destruct (Qle_bool (med - inject_Z null_value) sumstats.tenth) eqn:E; simpl.
    + split; [discriminate|].
      intros (m' & [= <-] & Hlt). apply Qle_bool_iff in E.
      exfalso. exact (Qlt_not_le _ _ Hlt E).
    + split; [|reflexivity].
      intros _. exists med. split; [reflexivity|].
      apply Qnot_le_lt. intros Hle. apply Qle_bool_iff in Hle. congruence.
  - split; [discriminate|]. intros (m' & [=] & _).
Qed.

(** C2.  The code at a column whose median lies far below the null value:
    for the single effect -5 with null value 0, and for the single effect
    -4 with null value 1, the median is 5 away from the null value and the
    check passes. *)
Theorem check_median_passes_far_below :
  sumstats.nanmedian [Some (-5 # 1)] = Some (-5 # 1) /\
  sumstats.far_from_null (-5 # 1) 0 /\
  sumstats._check_median [Some (-5 # 1)] "EFFECT" 0 = Ok tt /\
  sumstats.nanmedian [Some (-4 # 1)] = Some (-4 # 1) /\
  sumstats.far_from_null (-4 # 1) 1 /\
  sumstats._check_median [Some (-4 # 1)] "EFFECT" 1 = Ok tt.
Proof.
  repeat split; vm_compute; reflexivity.
Qed.

End MedianCheck.

(** ** Block-merge plan *)

(** C4.  The code at the block sizes [100; 1]: the plan is an empty group
    followed by the group of block 1; block 0, which the greedy rule had
    put in the current group, is in no emitted group. *)
Theorem merge_blocks_loses_current_group :
  ldmatrix._merge_blocks [100; 1] = [[]; [1]] /\
  ldmatrix.covered (ldmatrix._merge_blocks [100; 1]) 0 = false.
Proof.
  split; vm_compute; reflexivity.
Qed.

(** ** Merging LD matrices *)

Section MergeOrder.

Local Open Scope Z_scope.

Lemma chr1_matrix_loaded :
  ldmatrix.LDmatrix_init ldmatrix.two_prefixes "chr1" = Ok ldmatrix.chr1_matrix.
Proof. reflexivity. Qed.

Lemma for_each_merge_raises (fs : string -> option ldmatrix.ld_file)
  (self : ldmatrix.LDmatrix) (ld_files : list string) :
  ld_files <> [] ->
  exists e, snd (ldmatrix.for_each (ldmatrix.merge_body fs) self ld_files) = Raise e.
Proof.
  destruct ld_files as [|p rest]; [congruence|]. intros _. simpl.
  unfold ldmatrix.merge_body.
  match goal with |- context [match ?r with Ok _ => _ | Raise _ => _ end] =>
    destruct r as [ld_i|e] end; simpl; eauto.
Qed.

(** No call of [merge] returns normally. *)
Lemma merge_always_raises (fs : string -> option ldmatrix.ld_file)
  (self : ldmatrix.LDmatrix) (ld_files : list string) :
  exists e, snd (ldmatrix.merge fs self ld_files) = Raise e.
Proof.
  unfold ldmatrix.merge.
  destruct (ldmatrix.is_truncated self); [simpl; eauto|].
  destruct ld_files as [|p rest]; [simpl; eauto|].
  change ((List.length (p :: rest) =? 0)%nat) with false. cbv iota.
  apply for_each_merge_raises. congruence.
Qed.

(** C1.  The code at a merge in increasing chromosome order: the matrix
    loaded from chromosome 1 merged with the matrix of chromosome 2
    raises the ordering error and is left unchanged. *)
Theorem merge_rejects_increasing_order :
  ldmatrix.merge ldmatrix.two_prefixes ldmatrix.chr1_matrix ["chr2"%string]
  = (ldmatrix.chr1_matrix, Raise ldmatrix.order_error).
Proof. reflexivity. Qed.

(** In decreasing order the ordering test passes, and the lookup of
    line 74 raises after the blocks were appended. *)
Lemma merge_decreasing_order_key_error :
  ldmatrix.merge ldmatrix.two_prefixes
    (ldmatrix.mkLD [ldmatrix.mk_info 0 2 "rs2" 0%Q 100 "A" "C" 500 0 0]
                   [ldmatrix.Arr1 []] false [1%nat] [(0%nat, 1%nat)])
    ["chr1"%string]
  = (ldmatrix.mkLD [ldmatrix.mk_info 0 2 "rs2" 0%Q 100 "A" "C" 500 0 0]
                   [ldmatrix.Arr1 []; ldmatrix.Arr1 []] false [1%nat] [(0%nat, 1%nat)],
     Raise ldmatrix.tuple_key_error).
Proof. reflexivity. Qed.

End MergeOrder.

(** ** Heritability standard error and jackknife *)

Section Estimator.

Local Open Scope R_scope.

Lemma zip_with_map_map {A B C D} (f : B -> C -> D) (g : A -> B) (h : A -> C)
  (l : list A) :
  heri_gc.zip_with f (map g l) (map h l) = map (fun x => f (g x) (h x)) l.
Proof.
  induction l as [|x l IH]; simpl; [reflexivity|]. rewrite IH. reflexivity.
Qed.

Lemma tiny_threshold : powerRZ 10 (-10) = 1 / 10 ^ 10.
Proof.
  unfold powerRZ. change (Pos.to_nat 10) with 10%nat.
  unfold Rdiv. rewrite Rmult_1_l. reflexivity.
Qed.

(** C9.  [_get_heri_se] returns, entry by entry, the square root of
    2d/n^2 + 2h/n + 2h(1-h)/n, the sum being replaced by 0 when its
    absolute value is below 1e-10.  As for every square root of floats,
    the entry is not-a-number where the sum is still negative; for n = 0
    the divisions give no number and neither does any entry. *)
Theorem heri_se_formula (heri : list R) (d n : R) :
  heri_gc._get_heri_se heri d n =
  map (fun h =>
         if Req_dec_T n 0 then None
         else
           let s := 2 * d / n ^ 2 + 2 * h / n + 2 * h * (1 - h) / n in
           let s := if Rlt_dec (Rabs s) (1 / 10 ^ 10) then 0 else s in
           if Rlt_dec s 0 then None else Some (sqrt s)) heri.
Proof.
  unfold heri_gc._get_heri_se.
  rewrite (map_map (fun h => heri_gc.np_div (2 * h) n)
                   (heri_gc.np_add (heri_gc.np_div (2 * d) (n ^ 2)))).
  rewrite zip_with_map_map, !map_map.
  apply map_ext. intros h. cbv zeta.
  unfold heri_gc.np_div, heri_gc.clip_small. rewrite tiny_threshold.
  destruct (Req_dec_T n 0) as [E|E].
  - destruct (Req_dec_T (n ^ 2) 0); reflexivity.
  - destruct (Req_dec_T (n ^ 2) 0) as [E2|E2].
    + exfalso. exact (pow_nonzero n 2 E E2).
    + reflexivity.
Qed.

End Estimator.

Section Jackknife.

Local Open Scope R_scope.

Lemma zip_with_length {A B C} (f : A -> B -> C) (l : list A) (l' : list B) :
  List.length (heri_gc.zip_with f l l') = Nat.min (List.length l) (List.length l').
Proof.
  revert l'. induction l as [|a l IH]; intros [|b l']; simpl; auto.
Qed.

Lemma vsub_vsub (v b g : heri_gc.vec) :
  heri_gc.vsub (heri_gc.vsub v b) g = heri_gc.vsub v (heri_gc.zip_with Rplus b g).
Proof.
  unfold heri_gc.vsub. revert b g.
  induction v as [|x v IH]; intros [|y b] [|z g]; simpl; try reflexivity.
  rewrite IH. f_equal. ring.
Qed.

Lemma vsub_zero (v : heri_gc.vec) :
  heri_gc.vsub v (repeat 0 (List.length v)) = v.
Proof.
  unfold heri_gc.vsub. induction v as [|x v IH]; simpl; [reflexivity|].
  rewrite IH. f_equal. ring.
Qed.

Lemma group_sum_length (N : nat) (block_est : heri_gc.mat) (blocks : list nat) :
  Forall (fun b => List.length b = N) block_est ->
  List.length (heri_gc.group_sum N block_est blocks) = N.
Proof.
  intros Hshape. unfold heri_gc.group_sum.
  induction blocks as [|ii rest IH]; simpl.
  - apply repeat_length.
  - rewrite zip_with_length, IH.
    assert (Hn : List.length (nth ii block_est (repeat 0 N)) = N).
    { destruct (Nat.lt_ge_cases ii (List.length block_est)) as [Hlt|Hge].
      - rewrite Forall_forall in Hshape. apply Hshape. apply nth_In. exact Hlt.
      - rewrite nth_overflow by exact Hge. apply repeat_length. }
    rewrite Hn. apply Nat.min_id.
Qed.

Lemma subtract_blocks_group_sum (block_est : heri_gc.mat) (blocks : list nat) :
  forall v : heri_gc.vec,
    Forall (fun b => List.length b = List.length v) block_est ->
    Forall (fun ii => (ii < List.length block_est)%nat) blocks ->
    heri_gc.subtract_blocks v block_est blocks
    = Ok (heri_gc.vsub v (heri_gc.group_sum (List.length v) block_est blocks)).
Proof.
  induction blocks as [|ii rest IH]; intros v Hshape Hin.
  - simpl. unfold heri_gc.group_sum. simpl. rewrite vsub_zero. reflexivity.
  - inversion Hin as [|? ? Hii Hrest]; subst.
    simpl.
    destruct (nth_error block_est ii) as [b|] eqn:E.
    2:{ apply nth_error_None in E. lia. }
    assert (Hb : List.length b = List.length v).
    { rewrite Forall_forall in Hshape. apply Hshape.
      eapply nth_error_In. exact E. }
    assert (Hlen : List.length (heri_gc.vsub v b) = List.length v).
    { unfold heri_gc.vsub. rewrite zip_with_length, Hb. apply Nat.min_id. }
    rewrite IH; [|rewrite Hlen; exact Hshape|exact Hrest].
    rewrite Hlen, vsub_vsub.
    unfold heri_gc.group_sum at 2. simpl.
    rewrite (nth_error_nth _ _ _ E). reflexivity.
Qed.

Lemma lobo_estimate_equal_share (total : heri_gc.vec) (block_est : heri_gc.mat)
  (merged_blocks : list (list nat)) (k : R) :
  Forall (fun b => List.length b = List.length total) block_est ->
  Forall (fun blocks =>
            Forall (fun ii => (ii < List.length block_est)%nat) blocks /\
            heri_gc.group_sum (List.length total) block_est blocks
            = map (fun t => t / k) total) merged_blocks ->
  heri_gc._lobo_estimate total block_est merged_blocks
  = Ok (repeat (map (fun t => t - t / k) total) (List.length merged_blocks)).
Proof.
  intros Hshape Hall.
  induction Hall as [|blocks rest [Hin Hsum] _ IH]; simpl; [reflexivity|].
  rewrite subtract_blocks_group_sum by assumption.
  rewrite IH. simpl. rewrite Hsum.
  unfold heri_gc.vsub.
  rewrite <- (map_id total) at 1. rewrite zip_with_map_map. reflexivity.
Qed.

Lemma rsum_repeat (x : R) (k : nat) : heri_gc.rsum (repeat x k) = INR k * x.
Proof.
  induction k as [|k IH].
  - simpl. ring.
  - rewrite S_INR. unfold heri_gc.rsum in *. simpl repeat. simpl fold_right.
    rewrite IH. ring.
Qed.

Lemma column_repeat (j : nat) (row : heri_gc.vec) (k : nat) :
  heri_gc.column j (repeat row k) = repeat (nth j row 0) k.
Proof. unfold heri_gc.column. apply map_repeat. Qed.

Lemma map_nth_seq (l : heri_gc.vec) :
  map (fun j => nth j l 0) (seq 0 (List.length l)) = l.
Proof.
  apply (nth_ext _ _ 0 0).
  - rewrite length_map, length_seq. reflexivity.
  - intros i Hi. rewrite length_map, length_seq in Hi.
    rewrite (nth_indep _ 0 (nth 0 l 0)) by (rewrite length_map, length_seq; exact Hi).
    rewrite (map_nth (fun j => nth j l 0)), seq_nth by exact Hi. reflexivity.
Qed.

Lemma mean_axis0_repeat (row : heri_gc.vec) (k : nat) :
  heri_gc.mean_axis0 (repeat row (S k)) = row.
Proof.
  unfold heri_gc.mean_axis0, heri_gc.width.
  rewrite repeat_length. simpl hd.
  transitivity (map (fun j => nth j row 0) (seq 0 (List.length row)));
    [|apply map_nth_seq].
  apply map_ext. intros j. rewrite column_repeat, rsum_repeat.
  field. apply not_0_INR. discriminate.
Qed.

Lemma sum_axis0_repeat (row : heri_gc.vec) (k : nat) :
  heri_gc.sum_axis0 (repeat row (S k)) = map (fun x => INR (S k) * x) row.
Proof.
  unfold heri_gc.sum_axis0, heri_gc.width. simpl hd.
  transitivity (map (fun x => INR (S k) * x)
                    (map (fun j => nth j row 0) (seq 0 (List.length row))));
    [|rewrite map_nth_seq; reflexivity].
  rewrite map_map. apply map_ext. intros j. rewrite column_repeat, rsum_repeat. reflexivity.
Qed.

Lemma vsub_self (v : heri_gc.vec) : heri_gc.vsub v v = map (fun _ => 0) v.
Proof.
  unfold heri_gc.vsub. induction v as [|x v IH]; simpl; [reflexivity|].
  rewrite IH. f_equal. ring.
Qed.

Lemma map_const_repeat {A B} (c : B) (l : list A) :
  map (fun _ => c) l = repeat c (List.length l).
Proof. induction l as [|x l IH]; simpl; [reflexivity|]. rewrite IH. reflexivity. Qed.

Lemma jackknife_of_equal_lobo (total : heri_gc.vec) (block_est : heri_gc.mat)
  (merged_blocks : list (list nat)) :
  merged_blocks <> [] ->
  heri_gc.equal_share total block_est merged_blocks ->
  let k := INR (List.length merged_blocks) in
  heri_gc.jackknife_of_lobo total block_est merged_blocks
  = Ok (map (fun t => (2 * k - 1) / k * t) total, repeat 0 (List.length total)).
Proof.
  intros Hne [Hshape Hall] k.
  unfold heri_gc.jackknife_of_lobo.
  rewrite (@lobo_estimate_equal_share total block_est merged_blocks k) by assumption.
  simpl bind. unfold heri_gc._jackknife.
  destruct merged_blocks as [|g rest]; [congruence|].
  set (n := List.length rest) in *.
  change (List.length (g :: rest)) with (S n) in *.
  assert (Hk : k <> 0) by (apply not_0_INR; discriminate).
  fold k.
  rewrite mean_axis0_repeat.
  rewrite map_repeat, sum_axis0_repeat.
  f_equal. f_equal.
  - unfold heri_gc.vsub, heri_gc.vscale.
    rewrite map_map, zip_with_map_map.
    apply map_ext. intros t. field. exact Hk.
  - rewrite vsub_self, !map_map.
    rewrite <- map_const_repeat.
    apply map_ext. intros t. fold k.
    replace ((k - 1) / k * (k * 0 ^ 2)) with 0 by (field; exact Hk).
    apply sqrt_0.
Qed.

(** C3, as the code has it.  When every merged block contributes
    [total / k], each leave-one-block-out estimate is [total - total / k];
    the jackknife of these returns the standard error 0 and the estimate
    [(2k - 1) / k * total]. *)
Theorem jackknife_equal_share (total : heri_gc.vec) (block_est : heri_gc.mat)
  (merged_blocks : list (list nat)) :
  merged_blocks <> [] ->
  heri_gc.equal_share total block_est merged_blocks ->
  let k := INR (List.length merged_blocks) in
  heri_gc.jackknife_of_lobo total block_est merged_blocks
  = Ok (map (fun t => (2 * k - 1) / k * t) total, repeat 0 (List.length total)).
Proof. exact (@jackknife_of_equal_lobo total block_est merged_blocks). Qed.

Lemma jackknife_equal_share_witness :
  heri_gc.jackknife_of_lobo [2] [[1]; [1]] [[0%nat]; [1%nat]]
  = Ok (map (fun t => (2 * INR 2 - 1) / INR 2 * t) [2], repeat 0 1).
Proof.
  apply (@jackknife_equal_share [2] [[1]; [1]] [[0%nat]; [1%nat]]).
  - discriminate.
  - split.
    + repeat constructor.
    + repeat constructor; simpl; try lia; f_equal; lra.
Defined.

(** C3, the claim as stated fails: two merged blocks, each contributing
    half of the total estimate 2; the jackknife estimate is 3, not 2. *)
Lemma jackknife_consistency_counterexample :
  heri_gc.equal_share [2] [[1]; [1]] [[0%nat]; [1%nat]] /\
  exists estimate se,
    heri_gc.jackknife_of_lobo [2] [[1]; [1]] [[0%nat]; [1%nat]] = Ok ([estimate], [se]) /\
    se = 0 /\ estimate = 3 /\ Rabs (estimate - 2) = 1.
Proof.
  assert (E : heri_gc.equal_share [2] [[1]; [1]] [[0%nat]; [1%nat]]).
  { split.
    - repeat constructor.
    - repeat constructor; simpl; try lia; f_equal; lra. }
  split; [exact E|].
  exists 3, 0.
  split; [|split; [reflexivity|split; [reflexivity|]]].
  - assert (Hne : [[0%nat]; [1%nat]] <> []) by discriminate.
    rewrite (jackknife_of_equal_lobo Hne E).
    cbn [map repeat List.length].
    assert (H : (2 * INR 2 - 1) / INR 2 * 2 = 3) by (simpl; field).
    rewrite H. reflexivity.
  - replace (3 - 2) with 1 by ring. apply Rabs_R1.
Qed.

End Jackknife.

(** ** PLINK .bed files *)

Section BedFiles.

Import parse.

(** *** Lists *)

Lemma set_nth_length {A} (i : nat) (x : A) (l : list A) :
  List.length (set_nth i x l) = List.length l.
Proof.
  revert i. induction l as [|a l IH]; intros [|i]; simpl; auto.
Qed.

Lemma set_nth_app {A} (pre : list A) (x y : A) (rest : list A) :
  set_nth (List.length pre) x (pre ++ y :: rest) = pre ++ x :: rest.
Proof.
  induction pre as [|a pre IH]; simpl; [reflexivity|]. rewrite IH. reflexivity.
Qed.

Lemma zip_rows_length (i : nat) (snps : matrix) (X : list dosage) :
  List.length X = List.length snps ->
  List.length (zip_rows i snps X) = List.length snps.
Proof.
  revert X. induction snps as [|row rs IH]; intros [|x xs] H; simpl in *;
    try discriminate; auto.
Qed.

Lemma zip_rows_nth (i : nat) (snps : matrix) (X : list dosage) (r : nat) :
  List.length X = List.length snps -> r < List.length snps ->
  nth r (zip_rows i snps X) [] = set_nth i (nth r X D0) (nth r snps []).
Proof.
  revert X r. induction snps as [|row rs IH]; intros [|x xs] [|r] H Hr; simpl in *;
    try discriminate; try lia; auto.
  apply IH; lia.
Qed.

Lemma fill_length (cols : list (list dosage)) :
  forall snps i,
    Forall (fun col => List.length col = List.length snps) cols ->
    List.length (fill snps i cols) = List.length snps.
Proof.
  induction cols as [|col rest IH]; intros snps i Hc; simpl; [reflexivity|].
  inversion Hc as [|? ? Hcol Hrest]; subst.
  rewrite IH.
  - apply zip_rows_length; exact Hcol.
  - rewrite zip_rows_length by exact Hcol. exact Hrest.
Qed.

Lemma fill_nth (cols : list (list dosage)) :
  forall snps i r,
    Forall (fun col => List.length col = List.length snps) cols ->
    r < List.length snps ->
    nth r (fill snps i cols) []
    = fill_row (nth r snps []) i (map (fun col => nth r col D0) cols).
Proof.
  induction cols as [|col rest IH]; intros snps i r Hc Hr; simpl; [reflexivity|].
  inversion Hc as [|? ? Hcol Hrest]; subst.
  rewrite IH.
  - rewrite zip_rows_nth by assumption. reflexivity.
  - rewrite zip_rows_length by exact Hcol. exact Hrest.
  - rewrite zip_rows_length by exact Hcol. exact Hr.
Qed.

Lemma fill_row_app (vals : list dosage) :
  forall pre rest,
    List.length vals <= List.length rest ->
    fill_row (pre ++ rest) (List.length pre) vals
    = pre ++ vals ++ skipn (List.length vals) rest.
Proof.
  induction vals as [|v vals IH]; intros pre rest Hlen; simpl; [reflexivity|].
  destruct rest as [|y rest]; simpl in *; [lia|].
  rewrite set_nth_app.
  replace (pre ++ v :: rest) with ((pre ++ [v]) ++ rest)
    by (rewrite <- app_assoc; reflexivity).
  replace (S (List.length pre)) with (List.length (pre ++ [v]))
    by (rewrite length_app; simpl; lia).
  rewrite IH by lia. rewrite <- app_assoc. reflexivity.
Qed.

Lemma fill_row_zeros (vals : list dosage) :
  fill_row (repeat D0 (List.length vals)) 0 vals = vals.
Proof.
  pose proof (@fill_row_app vals [] (repeat D0 (List.length vals))) as H.
  simpl in H. rewrite H by (rewrite repeat_length; lia).
  rewrite skipn_all2 by (rewrite repeat_length; lia).
  apply app_nil_r.
Qed.

Lemma nth_zeros (rows cols r : nat) :
  r < rows -> nth r (zeros rows cols) [] = repeat D0 cols.
Proof.
  intros Hr. unfold zeros.
  apply nth_repeat_lt. exact Hr.
Qed.

Lemma fill_zeros (n : nat) (cols : list (list dosage)) :
  Forall (fun col => List.length col = n) cols ->
  fill (zeros n (List.length cols)) 0 cols = from_cols n cols.
Proof.
  intros Hc.
  assert (Hz : List.length (zeros n (List.length cols)) = n)
    by apply repeat_length.
  assert (Hc' : Forall (fun col => List.length col
                                   = List.length (zeros n (List.length cols))) cols)
    by (rewrite Hz; exact Hc).
  apply (nth_ext _ _ [] []).
  - rewrite fill_length by exact Hc'.
    unfold from_cols. rewrite length_map, length_seq. exact Hz.
  - intros r Hr. rewrite fill_length in Hr by exact Hc'. rewrite Hz in Hr.
    rewrite fill_nth by (try exact Hc'; rewrite Hz; exact Hr).
    rewrite nth_zeros by exact Hr.
    unfold from_cols.
    rewrite (nth_indep _ [] (map (fun col => nth 0 col D0) cols))
      by (rewrite length_map, length_seq; exact Hr).
    rewrite (map_nth (fun r0 => map (fun col => nth r0 col D0) cols)).
    rewrite seq_nth by exact Hr. simpl.
    rewrite <- (length_map (fun col => nth r col D0) cols).
    apply fill_row_zeros.
Qed.

Lemma from_cols_app (n : nat) (c1 c2 : list (list dosage)) :
  hstack (from_cols n c1) (from_cols n c2) = from_cols n (c1 ++ c2).
Proof.
  unfold from_cols.
  induction (seq 0 n) as [|r l IH]; simpl; [reflexivity|].
  rewrite IH, map_app. reflexivity.
Qed.

(** *** Decoding *)

Lemma symbol_of_bedcode (b0 b1 : bool) :
  symbol_of _bedcode [b0; b1] = Some (symbol b0 b1).
Proof. destruct b0, b1; reflexivity. Qed.

Lemma decode_even (q : nat) :
  forall a : bits, List.length a = 2 * q ->
    decode _bedcode a = Ok (decode_pairs a) /\ List.length (decode_pairs a) = q.
Proof.
  induction q as [|q IH]; intros a Ha.
  - destruct a; [split; reflexivity|discriminate].
  - destruct a as [|b0 [|b1 rest]]; simpl in Ha; try lia.
    destruct (IH rest ltac:(lia)) as [Hd Hl].
    cbn [decode decode_pairs]. rewrite symbol_of_bedcode, Hd. simpl.
    split; [reflexivity|]. rewrite Hl. reflexivity.
Qed.

Lemma decode_pairs_codes (xs : list dosage) :
  decode_pairs (flat_map code_of xs) = xs.
Proof.
  induction xs as [|x xs IH]; simpl; [reflexivity|].
  destruct x; simpl; rewrite IH; reflexivity.
Qed.

Lemma codes_length (xs : list dosage) :
  List.length (flat_map code_of xs) = 2 * List.length xs.
Proof.
  induction xs as [|x xs IH]; simpl; [reflexivity|].
  rewrite length_app, IH. destruct x; simpl; lia.
Qed.

(** *** The cursor loop *)

Lemma valid_n_le_nru (self : PlinkBEDFile) : valid self -> parse.n self <= nru self.
Proof. intros [_ H]. rewrite H. lia. Qed.

Lemma slice_length (self : PlinkBEDFile) (c : nat) :
  valid self -> c < parse.m self ->
  List.length (py_slice (geno self) (2 * c * nru self) (2 * (c + 1) * nru self))
  = 2 * nru self.
Proof.
  intros [Hlen _] Hc. unfold py_slice.
  rewrite length_firstn, length_skipn, Hlen. nia.
Qed.

Lemma py_slice_0 {A} (l : list A) (k : nat) : py_slice l 0 k = firstn k l.
Proof. unfold py_slice. rewrite Nat.sub_0_r. reflexivity. Qed.

Lemma snp_of_length (self : PlinkBEDFile) (c : nat) :
  valid self -> c < parse.m self -> List.length (snp_of self c) = parse.n self.
Proof.
  intros Hv Hc. unfold snp_of.
  destruct (@decode_even _ _ (slice_length Hv Hc)) as [_ Hl].
  rewrite py_slice_0, length_firstn, Hl.
  pose proof (valid_n_le_nru Hv). lia.
Qed.

Lemma loop_returns (k : nat) :
  forall (self : PlinkBEDFile) (snps : matrix) (i : nat),
    valid self -> _currentSNP self + k <= parse.m self ->
    List.length snps = parse.n self ->
    nextSNPs_loop self snps i k
    = (with_cursor self (_currentSNP self + k),
       Ok (fill snps i (map (snp_of self) (seq (_currentSNP self) k)))).
Proof.
  induction k as [|k IH]; intros self snps i Hv Hk Hn.
  - simpl. rewrite Nat.add_0_r. destruct self; reflexivity.
  - cbn [nextSNPs_loop].
    destruct (Nat.ltb_spec (parse.m self) (_currentSNP self + 1)) as [Hlt|_]; [lia|].
    assert (Hc : _currentSNP self < parse.m self) by lia.
    destruct (@decode_even _ _ (slice_length Hv Hc)) as [Hd _].
    rewrite Hd. fold (snp_of self (_currentSNP self)).
    unfold set_col.
    rewrite (snp_of_length Hv Hc), Hn, Nat.eqb_refl.
    rewrite IH.
    + cbn [seq map fill]. simpl. 
      replace (_currentSNP self + 1 + k) with (_currentSNP self + S k) by lia.
      replace (_currentSNP self + 1) with (S (_currentSNP self)) by lia.
      reflexivity.
    + exact Hv.
    + simpl. lia.
    + rewrite zip_rows_length; [exact Hn|].
      rewrite (snp_of_length Hv Hc). symmetry. exact Hn.
Qed.

Lemma nextSNPs_returns (self : PlinkBEDFile) (num : nat) :
  valid self -> _currentSNP self + num <= parse.m self ->
  nextSNPs self num
  = (with_cursor self (_currentSNP self + num),
     Ok (from_cols (parse.n self) (map (snp_of self) (seq (_currentSNP self) num)))).
Proof.
  intros Hv Hk. unfold nextSNPs.
  rewrite loop_returns by (try assumption; apply repeat_length).
  f_equal. f_equal.
  assert (Hcols : Forall (fun col => List.length col = parse.n self)
                         (map (snp_of self) (seq (_currentSNP self) num))).
  2:{ set (cols := map (snp_of self) (seq (_currentSNP self) num)) in *.
      assert (Hl : List.length cols = num)
        by (unfold cols; rewrite length_map, length_seq; reflexivity).
      rewrite <- Hl. apply fill_zeros. exact Hcols. }
  apply Forall_forall. intros col Hin.
  apply in_map_iff in Hin. destruct Hin as (c & <- & Hc).
  apply in_seq in Hc. apply snp_of_length; [exact Hv|lia].
Qed.

(** C10.  On a valid file with at least [a + b] SNPs past the cursor,
    [nextSNPs(a)] and then [nextSNPs(b)] return two matrices whose
    horizontal concatenation is what a single [nextSNPs(a + b)] returns
    from the same cursor; each call advances the cursor by the number of
    SNPs requested. *)
Theorem nextSNPs_compose (self : PlinkBEDFile) (a b : nat) :
  valid self -> _currentSNP self + (a + b) <= parse.m self ->
  exists A B self1 self2,
    nextSNPs self a = (self1, Ok A) /\
    nextSNPs self1 b = (self2, Ok B) /\
    nextSNPs self (a + b) = (self2, Ok (hstack A B)) /\
    _currentSNP self1 = _currentSNP self + a /\
    _currentSNP self2 = _currentSNP self1 + b.
Proof.
  intros Hv Hab.
  set (self1 := with_cursor self (_currentSNP self + a)).
  assert (Hv1 : valid self1) by exact Hv.
  exists (from_cols (parse.n self) (map (snp_of self) (seq (_currentSNP self) a))),
         (from_cols (parse.n self) (map (snp_of self) (seq (_currentSNP self + a) b))),
         self1, (with_cursor self (_currentSNP self + (a + b))).
  split; [apply nextSNPs_returns; [exact Hv|lia]|].
  split.
  { rewrite nextSNPs_returns; [|exact Hv1|simpl; lia].
    simpl. rewrite Nat.add_assoc. reflexivity. }
  split.
  { rewrite nextSNPs_returns by assumption.
    rewrite from_cols_app, <- map_app, <- seq_app. reflexivity. }
  split; [reflexivity|]. simpl. lia.
Qed.

(** *** Reading a file *)

Lemma test_length_ok (g : bits) (m nru : nat) :
  List.length g = 2 * m * nru -> __test_length__ g m nru = Ok tt.
Proof.
  intros H. unfold __test_length__. rewrite H, Nat.eqb_refl. reflexivity.
Qed.

(** A file the constructor accepts is valid, with the cursor at 0. *)
Lemma init_valid (fname : string) (fh : list Byte.byte) (n m : nat) (self : PlinkBEDFile) :
  __init__ fname fh n m = Ok self ->
  valid self /\ _currentSNP self = 0 /\ parse.n self = n /\ parse.m self = m.
Proof.
  unfold __init__, __read__.
  destruct (endswith fname ".bed"); [|discriminate]. cbn [negb].
  destruct (fromfile_n fh 2) as [[magic fh1]|]; [|discriminate]. cbn [bind].
  destruct (fromfile_n fh1 1) as [[mode fh2]|]; [|discriminate]. cbn [bind].
  destruct (bits_eqb magic magic_bits); [|discriminate]. cbn [negb].
  destruct (bits_eqb mode mode_bits); [|discriminate]. cbn [negb].
  unfold __test_length__.
  destruct (Nat.eqb_spec (List.length (fromfile fh2))
              (2 * m * (n + (if negb (n mod 4 =? 0) then 4 - n mod 4 else 0))))
    as [Hlen|]; [|discriminate].
  cbn. intros [= <-]. cbn. repeat split. exact Hlen.
Qed.

(** *** The encoder *)

Lemma fromfile_pack (q : nat) :
  forall a : bits, List.length a = 8 * q -> fromfile (pack a) = a.
Proof.
  induction q as [|q IH]; intros a Ha.
  - destruct a; [reflexivity|discriminate].
  - do 8 (destruct a as [|? a]; [simpl in Ha; lia|]).
    cbn [pack fromfile flat_map]. unfold bits_of_byte.
    rewrite Byte.to_bits_of_bits.
    cbn [app]. do 8 f_equal.
    apply IH. simpl in Ha. lia.
Qed.

Lemma padding_eq (n : nat) :
  padding n = if negb (n mod 4 =? 0) then 4 - n mod 4 else 0.
Proof.
  unfold padding.
  pose proof (Nat.mod_upper_bound n 4 ltac:(discriminate)) as Hlt.
  destruct (Nat.eqb_spec (n mod 4) 0) as [E|E]; cbn [negb].
  - rewrite E. reflexivity.
  - apply Nat.mod_small. lia.
Qed.

Lemma padded_multiple (n : nat) : exists q, n + padding n = 4 * q.
Proof.
  rewrite padding_eq.
  pose proof (Nat.div_mod_eq n 4) as Hd.
  pose proof (Nat.mod_upper_bound n 4 ltac:(discriminate)) as Hlt.
  destruct (Nat.eqb_spec (n mod 4) 0) as [E|E]; cbn [negb].
  - exists (n / 4). lia.
  - exists (S (n / 4)). lia.
Qed.

Lemma snp_bits_length (n : nat) (G : matrix) (j : nat) :
  List.length G = n -> List.length (snp_bits n G j) = 2 * (n + padding n).
Proof.
  intros HG. unfold snp_bits, snp_column.
  rewrite codes_length, length_app, length_map, repeat_length, HG. reflexivity.
Qed.

Lemma fromfile_encode_snp (n : nat) (G : matrix) (j : nat) :
  List.length G = n -> fromfile (encode_snp n G j) = snp_bits n G j.
Proof.
  intros HG. unfold encode_snp. fold (snp_bits n G j).
  destruct (padded_multiple n) as [q Hq].
  apply (@fromfile_pack q). rewrite snp_bits_length by exact HG. lia.
Qed.

Lemma fromfile_app (x y : list Byte.byte) : fromfile (x ++ y) = fromfile x ++ fromfile y.
Proof. unfold fromfile. apply flat_map_app. Qed.

Lemma fromfile_body (n : nat) (G : matrix) (js : list nat) :
  List.length G = n ->
  fromfile (flat_map (encode_snp n G) js) = flat_map (snp_bits n G) js.
Proof.
  intros HG. induction js as [|j js IH]; simpl; [reflexivity|].
  rewrite fromfile_app, IH, fromfile_encode_snp by exact HG. reflexivity.
Qed.

(** Chunks of equal length: the [c]-th chunk of a concatenation. *)
Lemma chunks_length {A} (f : nat -> list A) (L : nat) (js : list nat) :
  (forall j, List.length (f j) = L) ->
  List.length (flat_map f js) = List.length js * L.
Proof.
  intros Hf. induction js as [|j js IH]; simpl; [reflexivity|].
  rewrite length_app, IH, Hf. reflexivity.
Qed.

Lemma chunk_slice {A} (f : nat -> list A) (L : nat) :
  (forall j, List.length (f j) = L) ->
  forall (k start c : nat), c < k ->
    py_slice (flat_map f (seq start k)) (c * L) ((c + 1) * L) = f (start + c).
Proof.
  intros Hf. unfold py_slice.
  induction k as [|k IH]; intros start c Hc; [lia|].
  cbn [seq flat_map].
  destruct c as [|c].
  - simpl. rewrite Nat.add_0_r, Nat.sub_0_r, Nat.add_0_r.
    rewrite firstn_app, (Hf start), Nat.sub_diag, firstn_O, app_nil_r.
    apply firstn_all2. rewrite Hf. lia.
  - replace (S c * L) with (List.length (f start) + c * L) by (rewrite Hf; lia).
    rewrite skipn_app, skipn_all2 by lia.
    replace (List.length (f start) + c * L - List.length (f start)) with (c * L) by lia.
    cbn [app].
    replace ((S c + 1) * L - (List.length (f start) + c * L)) with ((c + 1) * L - c * L)
      by (rewrite Hf; lia).
    rewrite IH by lia. f_equal. lia.
Qed.

Lemma firstn_column (G : matrix) (j pad : nat) :
  firstn (List.length G) (snp_column G j ++ repeat D0 pad) = snp_column G j.
Proof.
  rewrite firstn_app.
  unfold snp_column at 2. rewrite length_map, Nat.sub_diag, firstn_O, app_nil_r.
  apply firstn_all2. unfold snp_column. rewrite length_map. lia.
Qed.

Lemma from_cols_columns (n m : nat) (G : matrix) :
  shape n m G -> from_cols n (map (snp_column G) (seq 0 m)) = G.
Proof.
  intros [Hn Hm]. unfold from_cols.
  apply (nth_ext _ _ [] []).
  - rewrite length_map, length_seq. symmetry. exact Hn.
  - intros r Hr. rewrite length_map, length_seq in Hr.
    rewrite (nth_indep _ [] (map (fun col => nth 0 col D0) (map (snp_column G) (seq 0 m))))
      by (rewrite length_map, length_seq; exact Hr).
    rewrite (map_nth (fun r0 => map (fun col => nth r0 col D0) (map (snp_column G) (seq 0 m)))).
    rewrite seq_nth by exact Hr. simpl.
    rewrite map_map.
    assert (Hrow : List.length (nth r G []) = m).
    { rewrite Forall_forall in Hm. apply Hm. apply nth_In. lia. }
    apply (nth_ext _ _ D0 D0).
    + rewrite length_map, length_seq. symmetry. exact Hrow.
    + intros c Hc. rewrite length_map, length_seq in Hc.
      rewrite (nth_indep _ D0 (nth r (snp_column G 0) D0))
        by (rewrite length_map, length_seq; exact Hc).
      rewrite (map_nth (fun j => nth r (snp_column G j) D0)).
      rewrite seq_nth by exact Hc. simpl.
      unfold snp_column.
      rewrite (nth_indep _ D0 (nth c [] D0)) by (rewrite length_map; lia).
      rewrite (map_nth (fun row => nth c row D0)). reflexivity.
Qed.

(** C5.  A genotype matrix of [n] samples and [m] SNPs with entries 0, 1,
    2 or missing, encoded as a .bed file, is accepted by the constructor,
    and [nextSNPs(m)] returns the matrix itself (missing being
    not-a-number on both sides) and leaves the cursor at [m]. *)
Theorem bed_round_trip (fname : string) (n m : nat) (G : matrix) :
  endswith fname ".bed" = true ->
  shape n m G ->
  exists self self',
    __init__ fname (encode_bed n m G) n m = Ok self /\
    nextSNPs self m = (self', Ok G) /\
    _currentSNP self' = m.
Proof.
  intros Hname HG. pose proof HG as [Hn Hm].
  set (g := flat_map (snp_bits n G) (seq 0 m)).
  set (self := mkBED m n (n + padding n) g 0).
  assert (Hchunk : forall j, List.length (snp_bits n G j) = 2 * (n + padding n))
    by (intros j; apply snp_bits_length; exact Hn).
  assert (Hlen : List.length g = 2 * m * (n + padding n)).
  { unfold g. rewrite (chunks_length _ _ Hchunk), length_seq. lia. }
  assert (Hinit : __init__ fname (encode_bed n m G) n m = Ok self).
  { unfold __init__, __read__. rewrite Hname. cbn [negb].
    unfold encode_bed, header. cbn [app].
    unfold fromfile_n. cbn [List.length Nat.leb firstn skipn bind].
    change (bits_eqb (fromfile [Byte.x6c; Byte.x1b]) magic_bits) with true.
    change (bits_eqb (fromfile [Byte.x01]) mode_bits) with true.
    cbn [negb]. rewrite <- (padding_eq n).
    rewrite fromfile_body by exact Hn. fold g.
    rewrite test_length_ok by exact Hlen. reflexivity. }
  assert (Hv : valid self).
  { split; [exact Hlen|]. cbn [nru parse.n self]. rewrite <- (padding_eq n). reflexivity. }
  exists self, (with_cursor self m).
  split; [exact Hinit|]. split; [|reflexivity].
  rewrite nextSNPs_returns; [|exact Hv|cbn; lia].
  cbn [_currentSNP self Nat.add]. unfold self at 1. cbn [parse.n].
  f_equal. f_equal. 
  transitivity (from_cols n (map (snp_column G) (seq 0 m)));
    [|apply from_cols_columns; exact HG].
  f_equal.
  apply map_ext_in. intros c Hc. apply in_seq in Hc.
  unfold snp_of. cbn [geno nru parse.n self].
  replace (2 * c * (n + padding n)) with (c * (2 * (n + padding n))) by lia.
  replace (2 * (c + 1) * (n + padding n)) with ((c + 1) * (2 * (n + padding n))) by lia.
  unfold g. rewrite (chunk_slice _ Hchunk) by lia. cbn [Nat.add].
  unfold snp_bits. rewrite decode_pairs_codes, py_slice_0.
  rewrite <- Hn. apply firstn_column.
Qed.

Lemma bed_round_trip_witness :
  exists self self',
    __init__ "geno.bed" (encode_bed 3 2 sample_matrix) 3 2 = Ok self /\
    nextSNPs self 2 = (self', Ok sample_matrix) /\
    _currentSNP self' = 2.
Proof.
  apply (@bed_round_trip "geno.bed" 3 2 sample_matrix).
  - reflexivity.
  - split; [reflexivity|]. repeat constructor.
Defined.

Lemma nextSNPs_compose_witness :
  exists A B self1 self2,
    nextSNPs sample_bed 1 = (self1, Ok A) /\
    nextSNPs self1 1 = (self2, Ok B) /\
    nextSNPs sample_bed (1 + 1) = (self2, Ok (hstack A B)) /\
    _currentSNP self1 = _currentSNP sample_bed + 1 /\
    _currentSNP self2 = _currentSNP self1 + 1.
Proof.
  apply (@nextSNPs_compose sample_bed 1 1).
  - split; reflexivity.
  - simpl. lia.
Defined.

End BedFiles.

(** ** Extraction from an LD block *)

Section ExtractIndex.

Import ldmatrix.

Lemma tril_indices_S (n : nat) :
  tril_indices (S n) = tril_indices n ++ map (fun c => (n, c)) (seq 0 n).
Proof.
  unfold tril_indices. rewrite seq_S, flat_map_app. simpl.
  rewrite app_nil_r. reflexivity.
Qed.

Lemma tril_indices_length (n : nat) : List.length (tril_indices n) = tri n.
Proof.
  induction n as [|n IH]; [reflexivity|].
  rewrite tril_indices_S, length_app, length_map, length_seq, IH. reflexivity.
Qed.

Lemma tri_le (r n : nat) : r <= n -> tri r <= tri n.
Proof.
  induction 1 as [|n _ IH]; [lia|]. simpl. lia.
Qed.

Lemma tril_indices_In (n r c : nat) :
  In (r, c) (tril_indices n) <-> c < r < n.
Proof.
  unfold tril_indices. rewrite in_flat_map. split.
  - intros (r' & Hr' & Hin). apply in_seq in Hr'.
    apply in_map_iff in Hin. destruct Hin as (c' & [= <- <-] & Hc').
    apply in_seq in Hc'. lia.
  - intros H. exists r. split; [apply in_seq; lia|].
    apply in_map_iff. exists c. split; [reflexivity|apply in_seq; lia].
Qed.

Lemma tril_indices_nth (n r c : nat) :
  c < r -> r < n -> nth (tri r + c) (tril_indices n) (0, 0) = (r, c).
Proof.
  intros Hc. induction n as [|n IH]; intros Hr; [lia|].
  rewrite tril_indices_S.
  destruct (Nat.eq_dec r n) as [->|Hne].
  - rewrite app_nth2 by (rewrite tril_indices_length; lia).
    rewrite tril_indices_length.
    replace (tri n + c - tri n) with c by lia.
    rewrite (nth_indep _ (0, 0) ((fun c0 => (n, c0)) 0))
      by (rewrite length_map, length_seq; exact Hc).
    rewrite (map_nth (fun c0 => (n, c0))), seq_nth by exact Hc. reflexivity.
  - rewrite app_nth1.
    + apply IH. lia.
    + rewrite tril_indices_length.
      pose proof (@tri_le (S r) n ltac:(lia)) as H. simpl in H. lia.
Qed.

Lemma tril_indices_NoDup (n : nat) : NoDup (tril_indices n).
Proof.
  induction n as [|n IH]; [constructor|].
  rewrite tril_indices_S. apply NoDup_app.
  - exact IH.
  - apply Injective_map_NoDup_in; [|apply seq_NoDup].
    intros x y _ _ [= ->]. reflexivity.
  - intros [r c] Hin Hin'. apply tril_indices_In in Hin.
    apply in_map_iff in Hin'. destruct Hin' as (c' & [= <- <-] & _). lia.
Qed.

(** *** Reading and writing entries *)

Lemma set_nth_len {A} (i : nat) (x : A) (l : list A) :
  List.length (set_nth i x l) = List.length l.
Proof. revert i. induction l as [|a l IH]; intros [|i]; simpl; auto. Qed.

Lemma set_nth_same {A} (i : nat) (x d : A) (l : list A) :
  i < List.length l -> nth i (set_nth i x l) d = x.
Proof.
  revert i. induction l as [|a l IH]; intros [|i] H; simpl in *; try lia; auto.
  apply IH. lia.
Qed.

Lemma set_nth_other {A} (i j : nat) (x d : A) (l : list A) :
  i <> j -> nth j (set_nth i x l) d = nth j l d.
Proof.
  revert i j. induction l as [|a l IH]; intros [|i] [|j] H; simpl; try lia; auto.
Qed.

Lemma mat_set_dims (rows cols r c : nat) (x : Q) (a : dense) :
  has_dims rows cols a -> has_dims rows cols (mat_set a r c x).
Proof.
  intros [Hr Hc]. unfold mat_set. split.
  - rewrite set_nth_len. exact Hr.
  - intros r' Hr'. destruct (Nat.eq_dec r r') as [<-|Hne].
    + rewrite set_nth_same by lia. rewrite set_nth_len. apply Hc. exact Hr'.
    + rewrite set_nth_other by exact Hne. apply Hc. exact Hr'.
Qed.

Lemma mat_get_set_same (rows cols r c : nat) (x : Q) (a : dense) :
  has_dims rows cols a -> r < rows -> c < cols ->
  mat_get (mat_set a r c x) r c = x.
Proof.
  intros [Hr Hc] Hlt Hlt'. unfold mat_get, mat_set.
  rewrite set_nth_same by lia. apply set_nth_same. rewrite Hc by exact Hlt. exact Hlt'.
Qed.

Lemma mat_get_set_other (r c r' c' : nat) (x : Q) (a : dense) :
  (r, c) <> (r', c') -> mat_get (mat_set a r c x) r' c' = mat_get a r' c'.
Proof.
  intros Hne. unfold mat_get, mat_set.
  destruct (Nat.eq_dec r r') as [<-|Hr].
  - destruct (Nat.lt_ge_cases r (List.length a)) as [Hlt|Hge].
    + rewrite set_nth_same by exact Hlt. apply set_nth_other. congruence.
    + rewrite !(nth_overflow _ []); try (rewrite ?set_nth_len; exact Hge).
      reflexivity.
  - rewrite set_nth_other by exact Hr. reflexivity.
Qed.

Lemma scatter_dims (rows cols : nat) (indices : list (nat * nat)) (values : list Q) :
  forall a, has_dims rows cols a -> has_dims rows cols (scatter a indices values).
Proof.
  unfold scatter. generalize (combine indices values) as l.
  induction l as [|[[r c] x] l IH]; intros a Ha; simpl; [exact Ha|].
  apply IH. apply mat_set_dims. exact Ha.
Qed.

Lemma fold_set_untouched (l : list (nat * nat * Q)) (r c : nat) :
  forall a : dense,
    ~ In (r, c) (map fst l) ->
    mat_get (fold_left (fun a' p => mat_set a' (fst (fst p)) (snd (fst p)) (snd p)) l a) r c
    = mat_get a r c.
Proof.
  induction l as [|[[r0 c0] x] l IH]; intros a Hn; simpl; [reflexivity|].
  simpl in Hn. rewrite IH by tauto.
  apply mat_get_set_other. tauto.
Qed.

Lemma fold_set_written (rows cols : nat) (l : list (nat * nat * Q)) (r c : nat) (x : Q) :
  forall a : dense,
    has_dims rows cols a -> r < rows -> c < cols ->
    NoDup (map fst l) -> In (r, c, x) l ->
    mat_get (fold_left (fun a' p => mat_set a' (fst (fst p)) (snd (fst p)) (snd p)) l a) r c
    = x.
Proof.
  induction l as [|[[r0 c0] x0] l IH]; intros a Ha Hr Hc Hnd Hin; [destruct Hin|].
  simpl in *. inversion Hnd as [|? ? Hnotin Hnd']; subst.
  destruct Hin as [[= -> -> ->]|Hin].
  - rewrite fold_set_untouched by exact Hnotin.
    apply (mat_get_set_same x Ha Hr Hc).
  - apply IH; try assumption. apply mat_set_dims. exact Ha.
Qed.

Lemma zeros_dims (rows cols : nat) : has_dims rows cols (np_zeros rows cols).
Proof.
  unfold np_zeros. split; [apply repeat_length|].
  intros r Hr. rewrite nth_repeat_lt by exact Hr. apply repeat_length.
Qed.

Lemma zeros_get (rows cols r c : nat) : mat_get (np_zeros rows cols) r c = 0%Q.
Proof.
  unfold mat_get, np_zeros.
  destruct (Nat.lt_ge_cases r rows) as [Hr|Hr].
  - rewrite nth_repeat_lt by exact Hr. apply nth_repeat.
  - rewrite (nth_overflow _ []) by (rewrite repeat_length; exact Hr).
    destruct c; reflexivity.
Qed.

Lemma mk_matrix_get (rows cols : nat) (f : nat -> nat -> Q) (r c : nat) :
  r < rows -> c < cols -> mat_get (mk_matrix rows cols f) r c = f r c.
Proof.
  intros Hr Hc. unfold mat_get, mk_matrix.
  rewrite (nth_indep _ [] ((fun r0 => map (fun c0 => f r0 c0) (seq 0 cols)) 0))
    by (rewrite length_map, length_seq; exact Hr).
  rewrite (map_nth (fun r0 => map (fun c0 => f r0 c0) (seq 0 cols))).
  rewrite seq_nth by exact Hr.
  rewrite (nth_indep _ 0%Q ((fun c0 => f (0 + r) c0) 0))
    by (rewrite length_map, length_seq; exact Hc).
  rewrite (map_nth (fun c0 => f (0 + r) c0)), seq_nth by exact Hc. reflexivity.
Qed.

Lemma map_fst_combine {A B} (l : list A) (l' : list B) :
  List.length l = List.length l' -> map fst (combine l l') = l.
Proof.
  revert l'. induction l as [|a l IH]; intros [|b l'] H; simpl in *;
    try discriminate; [reflexivity|].
  rewrite IH by lia. reflexivity.
Qed.

Lemma Qplus_0_r_eq (x : Q) : (x + 0 = x)%Q.
Proof.
  destruct x as [p q]. unfold Qplus. simpl.
  rewrite Z.mul_1_r, Z.add_0_r, Pos.mul_1_r. reflexivity.
Qed.

(** The dense block rebuilt from a triangle: below the diagonal, the
    entry of row [r] and column [c] is entry [tri r + c] of the triangle. *)
Lemma get_2d_matrix_lower (dim : nat) (tril : list Q) :
  List.length tril = tri dim ->
  exists D,
    _get_2d_matrix dim (Arr1 tril) = Ok D /\
    forall r c, c < r -> r < dim -> mat_get D r c = nth (tri r + c) tril 0%Q.
Proof.
  intros Hlen. unfold _get_2d_matrix.
  rewrite tril_indices_length, Hlen, Nat.eqb_refl. cbn [bind].
  eexists. split; [reflexivity|].
  intros r c Hc Hr.
  unfold fill_diagonal. rewrite mk_matrix_get by lia.
  destruct (Nat.eqb_spec r c) as [E|_]; [lia|].
  unfold add_transpose. rewrite mk_matrix_get by lia.
  unfold scatter.
  rewrite (@fold_set_written dim dim _ r c (nth (tri r + c) tril 0%Q)).
  - rewrite fold_set_untouched.
    + rewrite zeros_get. apply Qplus_0_r_eq.
    + intros Hin. apply in_map_iff in Hin. destruct Hin as ([[r' c'] x] & [= -> ->] & Hin).
      apply in_combine_l in Hin. apply tril_indices_In in Hin. lia.
  - apply zeros_dims.
  - exact Hr.
  - lia.
  - rewrite map_fst_combine.
    + apply tril_indices_NoDup.
    + rewrite tril_indices_length. symmetry. exact Hlen.
  - rewrite <- (tril_indices_nth Hc Hr).
    rewrite <- (@combine_nth _ _ (tril_indices dim) tril (tri r + c) (0, 0) 0%Q)
      by (rewrite tril_indices_length; symmetry; exact Hlen).
    apply nth_In. rewrite length_combine, tril_indices_length, Hlen, Nat.min_id.
    pose proof (@tri_le (S r) dim ltac:(lia)) as H. simpl in H. lia.
Qed.

(** *** The offsets of [_extract_by_idxs] *)

Lemma cumsum_from_nth (k : nat) :
  forall s j, j < k ->
    nth_error (cumsum_from (Z.of_nat (tri s)) (map Z.of_nat (seq s k))) j
    = Some (Z.of_nat (tri (S (s + j)))).
Proof.
  induction k as [|k IH]; intros s j Hj; [lia|].
  cbn [seq map cumsum_from].
  replace (Z.of_nat (tri s) + Z.of_nat s)%Z with (Z.of_nat (tri (S s)))
    by (simpl; lia).
  destruct j as [|j].
  - rewrite Nat.add_0_r. reflexivity.
  - cbn [nth_error]. rewrite IH by lia. do 3 f_equal. lia.
Qed.

Lemma cumsum_from_length (l : list Z) : forall acc, List.length (cumsum_from acc l) = List.length l.
Proof. induction l as [|x l IH]; intros acc; simpl; auto. Qed.

Lemma cum_sum_getitem (size x : nat) :
  1 <= x -> x < size ->
  py_getitem (cumsum (range (size - 1))) (Z.of_nat x - 1) = Ok (Z.of_nat (tri x)).
Proof.
  intros H1 Hx. unfold py_getitem, cumsum, range.
  rewrite cumsum_from_length, length_map, length_seq.
  destruct (Z.ltb_spec (Z.of_nat x - 1) 0) as [H|_]; [lia|].
  destruct (Z.ltb_spec (Z.of_nat x - 1) 0) as [H|_]; [lia|].
  destruct (Z.leb_spec (Z.of_nat (size - 1)) (Z.of_nat x - 1)) as [H|_]; [lia|].
  cbn [orb].
  replace (Z.to_nat (Z.of_nat x - 1)) with (x - 1) by lia.
  change 0%Z with (Z.of_nat (tri 0)).
  rewrite cumsum_from_nth by lia.
  do 3 f_equal. lia.
Qed.

Lemma data_getitem {A} (data : list A) (d : A) (k : nat) :
  k < List.length data -> py_getitem data (Z.of_nat k) = Ok (nth k data d).
Proof.
  intros Hk. unfold py_getitem.
  destruct (Z.ltb_spec (Z.of_nat k) 0) as [H|_]; [lia|].
  destruct (Z.ltb_spec (Z.of_nat k) 0) as [H|_]; [lia|].
  destruct (Z.leb_spec (Z.of_nat (List.length data)) (Z.of_nat k)) as [H|_]; [lia|].
  cbn [orb]. rewrite Nat2Z.id.
  rewrite (nth_error_nth' data d Hk). reflexivity.
Qed.

Lemma np_take_app {A} (data : list A) (i1 i2 : list Z) (r1 r2 : list A) :
  np_take data i1 = Ok r1 -> np_take data i2 = Ok r2 ->
  np_take data (i1 ++ i2) = Ok (r1 ++ r2).
Proof.
  revert r1. induction i1 as [|i i1 IH]; intros r1 H1 H2; simpl in *.
  - injection H1 as <-. exact H2.
  - destruct (py_getitem data i) as [x|]; [|discriminate]. cbn [bind] in *.
    destruct (np_take data i1) as [xs|]; [|discriminate]. cbn [bind] in *.
    injection H1 as <-. rewrite (IH xs eq_refl H2). reflexivity.
Qed.

Lemma offsets_returns (size : nat) (rest : list nat) :
  forall before,
    Forall (fun x => 1 <= x < size) rest ->
    offsets (cumsum (range (size - 1))) (map Z.of_nat before) (map Z.of_nat rest)
    = Ok (offsets_of before rest).
Proof.
  induction rest as [|x t IH]; intros before Hall; [reflexivity|].
  inversion Hall as [|? ? [H1 Hx] Ht]; subst.
  cbn [map offsets]. rewrite cum_sum_getitem by assumption. cbn [bind].
  change [Z.of_nat x] with (map Z.of_nat [x]). rewrite <- map_app.
  rewrite IH by exact Ht. reflexivity.
Qed.

Lemma take_row (data : list Q) (D : dense) (size x : nat) (before : list nat) :
  List.length data = tri size ->
  (forall r c, c < r -> r < size -> mat_get D r c = nth (tri r + c) data 0%Q) ->
  x < size -> Forall (fun y => y < x) before ->
  np_take data (map (Z.add (Z.of_nat (tri x))) (map Z.of_nat before))
  = Ok (map (mat_get D x) before).
Proof.
  intros Hlen HD Hx Hb.
  induction Hb as [|y before Hy _ IH]; [reflexivity|].
  cbn [map np_take].
  rewrite <- Nat2Z.inj_add.
  rewrite (@data_getitem _ data 0%Q).
  - cbn [bind]. rewrite IH. cbn [bind]. rewrite HD by assumption. reflexivity.
  - rewrite Hlen. pose proof (@tri_le (S x) size ltac:(lia)) as H. simpl in H. lia.
Qed.

Lemma ascending_cons (x : nat) (t : list nat) :
  ascending (x :: t) = true -> Forall (fun y => x < y) t /\ ascending t = true.
Proof.
  revert x. induction t as [|y t IH]; intros x H; [split; [constructor|reflexivity]|].
  cbn [ascending] in H. apply andb_true_iff in H. destruct H as [Hxy Ht].
  apply Nat.ltb_lt in Hxy. split; [|exact Ht].
  constructor; [exact Hxy|].
  destruct (IH y Ht) as [Hall _].
  eapply Forall_impl; [|exact Hall]. simpl. intros z Hz. lia.
Qed.

Lemma take_offsets (data : list Q) (D : dense) (size : nat) (rest : list nat) :
  List.length data = tri size ->
  (forall r c, c < r -> r < size -> mat_get D r c = nth (tri r + c) data 0%Q) ->
  forall before,
    ascending rest = true ->
    Forall (fun x => x < size) rest ->
    Forall (fun y => Forall (fun x => y < x) rest) before ->
    np_take data (List.concat (offsets_of before rest))
    = Ok (tri_rows (mat_get D) before rest).
Proof.
  intros Hlen HD.
  induction rest as [|x t IH]; intros before Hasc Hsize Hlt; [reflexivity|].
  inversion Hsize as [|? ? Hx Ht]; subst.
  destruct (@ascending_cons _ _ Hasc) as [Hxt Hasc'].
  cbn [offsets_of List.concat tri_rows].
  apply np_take_app.
  - apply (@take_row data D size x before Hlen HD Hx).
    eapply Forall_impl; [|exact Hlt]. simpl. intros y Hy.
    inversion Hy; assumption.
  - apply IH; try assumption.
    apply Forall_app. split.
    + eapply Forall_impl; [|exact Hlt]. simpl. intros y Hy.
      inversion Hy; assumption.
    + constructor; [exact Hxt|constructor].
Qed.

(** *** The triangle of the indexed dense block *)

Lemma tri_rows_snoc {B} (f : nat -> nat -> B) (rest : list nat) (x : nat) :
  forall before,
    tri_rows f before (rest ++ [x])
    = tri_rows f before rest ++ map (f x) (before ++ rest).
Proof.
  induction rest as [|y t IH]; intros before; simpl.
  - rewrite !app_nil_r. reflexivity.
  - rewrite IH, <- !app_assoc. reflexivity.
Qed.

Lemma submatrix_get (D : dense) (l : list nat) (i j : nat) :
  i < List.length l -> j < List.length l ->
  mat_get (submatrix D l) i j = mat_get D (nth i l 0) (nth j l 0).
Proof.
  intros Hi Hj. unfold submatrix, mat_get at 1.
  rewrite (nth_indep _ [] ((fun r => map (fun c => mat_get D r c) l) 0))
    by (rewrite length_map; exact Hi).
  rewrite (map_nth (fun r => map (fun c => mat_get D r c) l)).
  rewrite (nth_indep _ 0%Q ((fun c => mat_get D (nth i l 0) c) 0))
    by (rewrite length_map; exact Hj).
  rewrite (map_nth (fun c => mat_get D (nth i l 0) c)). reflexivity.
Qed.

Lemma map_nth_all {B} (h : nat -> B) (l : list nat) :
  map (fun c => h (nth c l 0)) (seq 0 (List.length l)) = map h l.
Proof.
  induction l as [|x l IH]; [reflexivity|].
  cbn [List.length seq map]. f_equal.
  rewrite <- seq_shift, map_map. exact IH.
Qed.

Lemma lower_triangle_of_submatrix (D : dense) (l : list nat) :
  _get_lower_triangle (submatrix D l) = tri_rows (mat_get D) [] l.
Proof.
  unfold _get_lower_triangle, submatrix at 2. rewrite length_map.
  induction l as [|x l IH] using rev_ind; [reflexivity|].
  rewrite tri_rows_snoc, length_app. cbn [List.length app].
  rewrite Nat.add_1_r, tril_indices_S.
  unfold gather in *. rewrite map_app. f_equal.
  - rewrite <- IH. apply map_ext_in. intros [i j] Hin.
    apply tril_indices_In in Hin. cbn [fst snd].
    rewrite !submatrix_get by (rewrite ?length_app; simpl; lia).
    rewrite !app_nth1 by lia. reflexivity.
  - rewrite map_map. cbn [fst snd].
    rewrite <- (map_nth_all (mat_get D x) l).
    apply map_ext_in. intros c Hc. apply in_seq in Hc.
    rewrite submatrix_get by (rewrite length_app; simpl; lia).
    rewrite app_nth2, Nat.sub_diag by lia.
    rewrite app_nth1 by lia. reflexivity.
Qed.

(** C6.  For the strict lower triangle [data] of a block of [size >= 2]
    SNPs and a strictly increasing list [idxs] of at least two indices
    below [size], [_extract_by_idxs] returns the strict lower triangle of
    the dense block of [_get_2d_matrix] indexed at rows and columns
    [idxs]; a single index gives the empty array. *)
Theorem extract_by_idxs_index_law (data : list Q) (size : nat) (idxs : list nat) :
  2 <= size ->
  List.length data = List.length (tril_indices size) ->
  2 <= List.length idxs ->
  ascending idxs = true ->
  forallb (fun i => i <? size) idxs = true ->
  (exists D,
      _get_2d_matrix size (Arr1 data) = Ok D /\
      _extract_by_idxs data size (map Z.of_nat idxs)
      = Ok (_get_lower_triangle (submatrix D idxs))) /\
  (forall i : Z, _extract_by_idxs data size [i] = Ok []).
Proof.
  intros Hsize Hlen Hk Hasc Hbound.
  rewrite tril_indices_length in Hlen.
  split; [|reflexivity].
  destruct (@get_2d_matrix_lower size data Hlen) as (D & HD & Hget).
  exists D. split; [exact HD|].
  rewrite lower_triangle_of_submatrix.
  destruct idxs as [|x0 [|x1 t]]; simpl in Hk; try lia.
  rewrite forallb_forall in Hbound.
  assert (Hall : Forall (fun x => x < size) (x0 :: x1 :: t)).
  { apply Forall_forall. intros x Hx. apply Nat.ltb_lt. apply Hbound. exact Hx. }
  inversion Hall as [|? ? Hx0 Hrest]; subst.
  destruct (@ascending_cons _ _ Hasc) as [Hlt Hasc'].
  unfold _extract_by_idxs, offset_lists. cbn [map].
  change [Z.of_nat x0] with (map Z.of_nat [x0]).
  change (Z.of_nat x1 :: map Z.of_nat t) with (map Z.of_nat (x1 :: t)).
  rewrite offsets_returns.
  - cbn [bind]. cbn [offsets_of List.length Nat.ltb Nat.leb].
    change (tri_rows (mat_get D) [] (x0 :: x1 :: t))
      with (tri_rows (mat_get D) [x0] (x1 :: t)).
    apply (@take_offsets data D size (x1 :: t) Hlen Hget); try assumption.
    constructor; [exact Hlt|constructor].
  - rewrite Forall_forall in *. intros x Hx.
    specialize (Hlt x Hx). specialize (Hrest x Hx). lia.
Qed.

Lemma extract_by_idxs_index_law_witness :
  (exists D,
      _get_2d_matrix 3 (Arr1 [(1 # 2); (1 # 3); (1 # 4)]%Q) = Ok D /\
      _extract_by_idxs [(1 # 2); (1 # 3); (1 # 4)]%Q 3 (map Z.of_nat [0; 2])
      = Ok (_get_lower_triangle (submatrix D [0; 2]))) /\
  (forall i : Z, _extract_by_idxs [(1 # 2); (1 # 3); (1 # 4)]%Q 3 [i] = Ok []).
Proof.
  apply (@extract_by_idxs_index_law [(1 # 2); (1 # 3); (1 # 4)]%Q 3 [0; 2]).
  - lia.
  - reflexivity.
  - simpl. lia.
  - reflexivity.
  - reflexivity.
Defined.

End ExtractIndex.

(** ** The truncated state of an LD matrix *)

Section TruncatedState.

Import ldmatrix.

Variable fs : string -> option ld_file.
Variable eig_kernel : Q -> bool -> dense -> result dense.

Lemma slice_assign_length (ldscore : list float) (b e : nat) (adj_ld : list float + float)
  (l : list float) :
  slice_assign ldscore b e adj_ld = Ok l -> List.length l = List.length ldscore.
Proof.
  unfold slice_assign.
  set (len := List.length ldscore).
  set (b' := Nat.min b len). set (e' := Nat.min e len).
  assert (Hput : forall v, List.length v = e' - b' ->
            List.length (firstn b' ldscore ++ v ++ skipn (b' + (e' - b')) ldscore) = len).
  { intros v Hv. rewrite !length_app, length_firstn, length_skipn, Hv.
    fold len. unfold b', e'. lia. }
  destruct adj_ld as [v|x].
  - destruct (Nat.eqb_spec (List.length v) (e' - b')) as [E|E].
    + intros [= <-]. apply Hput. exact E.
    + destruct v as [|x [|y v]]; try discriminate.
      intros [= <-]. apply Hput. apply repeat_length.
  - intros [= <-]. apply Hput. apply repeat_length.
Qed.

Lemma slice_assign_agrees (ldscore : list float) (b e : nat) (block : ndarray) (n_i : Z) :
  block_agrees (List.length ldscore) (b, e) block = true ->
  exists l,
    slice_assign ldscore b e
      match raw_ld_of block with
      | inl v => inl (map (adjust n_i) v)
      | inr x => inr (adjust n_i x)
      end = Ok l.
Proof.
  destruct block as [v|a]; simpl.
  - intros _. unfold slice_assign. eauto.
  - rewrite !andb_true_iff, !Nat.eqb_eq, !Nat.leb_le. intros [[Hw Hbe] He].
    unfold slice_assign.
    rewrite !length_map, length_seq, Hw.
    replace (Nat.min e (List.length ldscore) - Nat.min b (List.length ldscore))
      with (e - b) by lia.
    rewrite Nat.eqb_refl. eauto.
Qed.

Lemma ldscore_loop_returns (blocks : list ndarray) (n_samples : list Z)
  (ranges : list (nat * nat)) :
  forall (i : nat) (ldscore : list float),
    blocks_agree (List.length ldscore) ranges (skipn i blocks) = true ->
    i + List.length ranges <= List.length n_samples ->
    exists l, ldscore_loop blocks n_samples i ranges ldscore = Ok l.
Proof.
  induction ranges as [|[b e] ranges IH]; intros i ldscore Hag Hn.
  - simpl. eauto.
  - cbn [ldscore_loop]. cbn [blocks_agree] in Hag.
    destruct (skipn i blocks) as [|d rest] eqn:Esk; [discriminate|].
    apply andb_true_iff in Hag. destruct Hag as [Hd Hrest].
    assert (Hnth : nth_error blocks i = Some d).
    { rewrite <- (firstn_skipn i blocks), Esk.
      assert (Hi : i <= List.length blocks).
      { destruct (Nat.le_gt_cases i (List.length blocks)) as [H|H]; [exact H|].
        rewrite skipn_all2 in Esk by lia. discriminate. }
      rewrite nth_error_app2 by (rewrite length_firstn; lia).
      rewrite length_firstn, Nat.min_l, Nat.sub_diag by exact Hi. reflexivity. }
    rewrite Hnth.
    destruct (nth_error n_samples i) as [n_i|] eqn:En.
    2:{ apply nth_error_None in En. simpl in Hn. lia. }
    destruct (@slice_assign_agrees _ _ _ _ n_i Hd) as [l Hl].
    rewrite Hl. cbn [bind].
    apply IH.
    + rewrite (@slice_assign_length _ _ _ _ _ Hl).
      replace (skipn (S i) blocks) with rest; [exact Hrest|].
      change (S i) with (1 + i). rewrite <- skipn_skipn, Esk. reflexivity.
    + simpl in Hn. lia.
Qed.

Lemma estimate_ldscore_returns (self : LDmatrix) :
  is_truncated self = true -> consistent self = true ->
  exists r, estimate_ldscore self = Ok r.
Proof.
  intros Ht Hc. unfold estimate_ldscore. rewrite Ht. cbn [negb].
  unfold consistent in Hc. apply andb_true_iff in Hc. destruct Hc as [Hn Hag].
  apply Nat.leb_le in Hn.
  destruct (@ldscore_loop_returns (data self) (map N (ld_info self)) (block_ranges self)
              0 (repeat (Some 0%Q) (List.length (ld_info self)))) as [l Hl].
  - rewrite repeat_length. exact Hag.
  - rewrite length_map. simpl. exact Hn.
  - rewrite Hl. cbn [bind]. eauto.
Qed.











End TruncatedState.

Section TruncatedStateExample.

Import ldmatrix.

Local Open Scope Z_scope.



End TruncatedStateExample.

(** ** Mean imputation *)

Section FillNa.

Import ldmatrix.

Lemma fill_row_entry (block_avg : list (option Q)) (row : list (option Q)) (j : nat) :
  j < List.length row ->
  nth j (map (fun p => match snd p with
                       | None => nth (fst p) block_avg None
                       | Some x => Some x
                       end)
             (combine (seq 0 (List.length row)) row)) None
  = match nth j row None with
    | None => nth j block_avg None
    | Some x => Some x
    end.
Proof.
  intros Hj.
  set (f := fun p : nat * option Q =>
              match snd p with None => nth (fst p) block_avg None | Some x => Some x end).
  assert (Hd : f (0, None) = nth 0 block_avg None) by reflexivity.
  rewrite (nth_indep _ None (f (0, None)))
    by (rewrite length_map, length_combine, length_seq; lia).
  rewrite (map_nth f), combine_nth by (rewrite length_seq; reflexivity).
  rewrite seq_nth by exact Hj. reflexivity.
Qed.

(** X19.  On a rectangular block [_fill_na] keeps the shape and every
    entry that is a number; a missing entry becomes the mean of the
    numbers of its column, so an entry is still missing afterwards only
    when its whole column was missing. *)
Theorem fill_na_imputes_column_mean (block : genotypes) (w : nat) :
  Forall (fun row => List.length row = w) block ->
  List.length (_fill_na block) = List.length block /\
  Forall (fun row => List.length row = w) (_fill_na block) /\
  forall i j, i < List.length block -> j < w ->
    entry (_fill_na block) i j
    = match entry block i j with
      | Some x => Some x
      | None => nanmean (column_of j block)
      end /\
    (entry (_fill_na block) i j = None <->
     entry block i j = None /\ numbers (column_of j block) = []).
Proof.
  intros Hrect. unfold _fill_na.
  set (block_avg := map (fun j => nanmean (column_of j block))
                        (seq 0 (List.length (hd [] block)))).
  split; [apply length_map|]. split.
  - apply Forall_forall. intros row' Hin. apply in_map_iff in Hin.
    destruct Hin as (row & <- & Hrow).
    rewrite length_map, length_combine, length_seq, Nat.min_id.
    rewrite Forall_forall in Hrect. apply Hrect. exact Hrow.
  - intros i j Hi Hj.
    assert (Hrow : List.length (nth i block []) = w).
    { rewrite Forall_forall in Hrect. apply Hrect. apply nth_In. exact Hi. }
    assert (Hhd : List.length (hd [] block) = w).
    { destruct block as [|r0 block]; [simpl in Hi; lia|].
      inversion Hrect; assumption. }
    assert (Havg : nth j block_avg None = nanmean (column_of j block)).
    { unfold block_avg.
      rewrite (nth_indep _ None ((fun j0 => nanmean (column_of j0 block)) 0))
        by (rewrite length_map, length_seq; lia).
      rewrite (map_nth (fun j0 => nanmean (column_of j0 block))), seq_nth by lia.
      reflexivity. }
    assert (E : entry (map (fun row =>
                  map (fun p => match snd p with
                                | None => nth (fst p) block_avg None
                                | Some x => Some x
                                end)
                      (combine (seq 0 (List.length row)) row)) block) i j
                = match entry block i j with
                  | Some x => Some x
                  | None => nanmean (column_of j block)
                  end).
    { unfold entry.
      set (g := fun row : list (option Q) =>
                  map (fun p => match snd p with
                                | None => nth (fst p) block_avg None
                                | Some x => Some x
                                end)
                      (combine (seq 0 (List.length row)) row)).
      rewrite (nth_indep _ [] (g [])) by (rewrite length_map; exact Hi).
      rewrite (map_nth g). unfold g.
      rewrite fill_row_entry by lia. rewrite Havg.
      destruct (nth j (nth i block []) None); reflexivity. }
    split; [exact E|]. rewrite E.
    destruct (entry block i j) as [x|].
    + split; [discriminate|]. intros [H _]. discriminate.
    + unfold nanmean. destruct (numbers (column_of j block)); split; auto.
      * discriminate.
      * intros [_ H]. discriminate.
Qed.

Lemma fill_na_imputes_column_mean_witness :
  List.length (_fill_na [[Some 0; None]; [Some 2; None]; [None; None]]%Q)
  = List.length [[Some 0; None]; [Some 2; None]; [None; @None Q]]%Q /\
  Forall (fun row => List.length row = 2)
         (_fill_na [[Some 0; None]; [Some 2; None]; [None; None]]%Q) /\
  forall i j, i < List.length [[Some 0; None]; [Some 2; None]; [None; @None Q]]%Q -> j < 2 ->
    entry (_fill_na [[Some 0; None]; [Some 2; None]; [None; None]]%Q) i j
    = match entry [[Some 0; None]; [Some 2; None]; [None; None]]%Q i j with
      | Some x => Some x
      | None => nanmean (column_of j [[Some 0; None]; [Some 2; None]; [None; None]]%Q)
      end /\
    (entry (_fill_na [[Some 0; None]; [Some 2; None]; [None; None]]%Q) i j = None <->
     entry [[Some 0; None]; [Some 2; None]; [None; None]]%Q i j = None /\
     numbers (column_of j [[Some 0; None]; [Some 2; None]; [None; None]]%Q) = []).
Proof.
  apply (@fill_na_imputes_column_mean
           [[Some 0; None]; [Some 2; None]; [None; None]]%Q 2).
  repeat constructor.
Defined.

End FillNa.

(** ** Aligning alleles *)

Section AlignAlleles.

Lemma Qopp_opp_eq (x : Q) : Qopp (Qopp x) = x.
Proof. destruct x as [p q]. unfold Qopp. simpl. rewrite Z.opp_involutive. reflexivity. Qed.

Lemma map_Qopp_opp (row : list Q) : map Qopp (map Qopp row) = row.
Proof.
  rewrite map_map. rewrite <- (map_id row) at 2. apply map_ext. apply Qopp_opp_eq.
Qed.

Lemma aligned_rows_flipped (z : list (list Q)) (alleles : list (string * string)) :
  forall i,
    List.length alleles = List.length (skipn i z) ->
    heri_gc.aligned_rows z i alleles = Ok (heri_gc.flipped (skipn i z) alleles).
Proof.
  induction alleles as [|[a b] rest IH]; intros i Hlen.
  - destruct (skipn i z); reflexivity.
  - destruct (skipn i z) as [|row rt] eqn:Esk; [discriminate|].
    assert (Hnth : nth_error z i = Some row).
    { rewrite <- (firstn_skipn i z), Esk.
      assert (Hi : i <= List.length z).
      { destruct (Nat.le_gt_cases i (List.length z)) as [H|H]; [exact H|].
        rewrite skipn_all2 in Esk by lia. discriminate. }
      rewrite nth_error_app2 by (rewrite length_firstn; lia).
      rewrite length_firstn, Nat.min_l, Nat.sub_diag by exact Hi. reflexivity. }
    assert (Hnext : skipn (S i) z = rt).
    { change (S i) with (1 + i). rewrite <- skipn_skipn, Esk. reflexivity. }
    cbn [heri_gc.aligned_rows]. rewrite Hnth, IH by (rewrite Hnext; simpl in Hlen; lia).
    rewrite Hnext. reflexivity.
Qed.

Lemma flipped_length (rows : list (list Q)) (alleles : list (string * string)) :
  List.length alleles = List.length rows ->
  List.length (heri_gc.flipped rows alleles) = List.length rows.
Proof.
  revert alleles. induction rows as [|row rt IH]; intros [|[a b] at_] H;
    simpl in *; try discriminate; auto.
Qed.

Lemma flipped_same (rows : list (list Q)) (a : list string) :
  List.length a = List.length rows -> heri_gc.flipped rows (combine a a) = rows.
Proof.
  revert a. induction rows as [|row rt IH]; intros [|x a] H; simpl in *;
    try discriminate; [reflexivity|].
  rewrite String.eqb_refl. cbn [negb]. rewrite IH by lia. reflexivity.
Qed.

Lemma flipped_back (rows : list (list Q)) (a b : list string) :
  List.length a = List.length rows -> List.length b = List.length rows ->
  heri_gc.flipped (heri_gc.flipped rows (combine a b)) (combine b a) = rows.
Proof.
  revert a b. induction rows as [|row rt IH]; intros [|x a] [|y b] Ha Hb;
    simpl in *; try discriminate; [reflexivity|].
  rewrite (String.eqb_sym y x), IH by lia.
  destruct (String.eqb x y); cbn [negb]; [reflexivity|].
  rewrite map_Qopp_opp. reflexivity.
Qed.

Lemma same_SNP_passes (s : list string) :
  existsb (fun p => negb (String.eqb (fst p) (snd p))) (combine s s) = false.
Proof.
  induction s as [|x s IH]; [reflexivity|].
  simpl. rewrite String.eqb_refl, IH. reflexivity.
Qed.

(** X16.  For two objects over the same SNPs whose columns have one entry
    for every SNP, [align_alleles] returns the second object with the
    alleles of the first and as many rows of Z-scores as before; aligning
    the result again changes nothing, and aligning the original second
    object against the result gives the original back. *)
Theorem align_alleles_idempotent_and_reversible (gwas1 gwas2 : heri_gc.GWAS) :
  heri_gc.aligned_columns gwas1 = true ->
  heri_gc.aligned_columns gwas2 = true ->
  heri_gc.SNP gwas1 = heri_gc.SNP gwas2 ->
  exists g,
    heri_gc.align_alleles gwas1 gwas2 = Ok g /\
    heri_gc.A1 g = heri_gc.A1 gwas1 /\
    heri_gc.SNP g = heri_gc.SNP gwas2 /\
    List.length (heri_gc.z_mat g) = List.length (heri_gc.z_mat gwas2) /\
    heri_gc.align_alleles gwas1 g = Ok g /\
    heri_gc.align_alleles gwas2 g = Ok gwas2.
Proof.
  unfold heri_gc.aligned_columns. rewrite !andb_true_iff, !Nat.eqb_eq.
  intros [Ha1 Hz1] [Ha2 Hz2] Hsnp.
  destruct gwas1 as [z1 s1 a1 b1 n1], gwas2 as [z2 s2 a2 b2 n2]. cbn in *. subst s2.
  assert (Hlen : List.length (combine a1 a2) = List.length (skipn 0 z2)).
  { rewrite length_combine. cbn [skipn]. lia. }
  unfold heri_gc.align_alleles. cbn [heri_gc.SNP heri_gc.A1 heri_gc.z_mat heri_gc.A2 heri_gc.N].
  rewrite Nat.eqb_refl, same_SNP_passes. cbn [negb].
  rewrite (aligned_rows_flipped _ _ 0 Hlen). cbn [skipn bind].
  eexists. split; [reflexivity|].
  cbn [heri_gc.SNP heri_gc.A1 heri_gc.z_mat heri_gc.A2 heri_gc.N].
  assert (Hfl : List.length (heri_gc.flipped z2 (combine a1 a2)) = List.length z2).
  { apply flipped_length. rewrite length_combine. lia. }
  split; [reflexivity|]. split; [reflexivity|]. split; [exact Hfl|].
  rewrite Nat.eqb_refl, same_SNP_passes. cbn [negb].
  split.
  - rewrite aligned_rows_flipped by (rewrite length_combine; cbn [skipn]; lia).
    cbn [skipn bind]. rewrite flipped_same by lia. reflexivity.
  - rewrite aligned_rows_flipped by (rewrite length_combine; cbn [skipn]; lia).
    cbn [skipn bind]. rewrite flipped_back by lia. reflexivity.
Qed.

Lemma align_alleles_idempotent_and_reversible_witness :
  exists g,
    heri_gc.align_alleles heri_gc.image_gwas heri_gc.trait_gwas = Ok g /\
    heri_gc.A1 g = heri_gc.A1 heri_gc.image_gwas /\
    heri_gc.SNP g = heri_gc.SNP heri_gc.trait_gwas /\
    List.length (heri_gc.z_mat g) = List.length (heri_gc.z_mat heri_gc.trait_gwas) /\
    heri_gc.align_alleles heri_gc.image_gwas g = Ok g /\
    heri_gc.align_alleles heri_gc.trait_gwas g = Ok heri_gc.trait_gwas.
Proof.
  apply (@align_alleles_idempotent_and_reversible heri_gc.image_gwas heri_gc.trait_gwas);
    reflexivity.
Defined.

End AlignAlleles.

(** ** Common SNPs *)

Section CommonSnps.

Lemma existsb_eqb_string (x : string) (l : list string) :
  existsb (String.eqb x) l = true <-> In x l.
Proof.
  rewrite existsb_exists. split.
  - intros (y & Hy & E). apply String.eqb_eq in E. subst. exact Hy.
  - intros H. exists x. split; [exact H|apply String.eqb_refl].
Qed.

Lemma intersection_In (s snp : list string) (x : string) :
  In x (heri_gc.intersection s snp) <-> In x s /\ In x snp.
Proof.
  unfold heri_gc.intersection. rewrite filter_In, existsb_eqb_string. reflexivity.
Qed.

Lemma not_falsy_of_In (x : string) (s : list string) :
  In x s -> heri_gc.falsy (Some s) = false.
Proof. destruct s; [intros []|reflexivity]. Qed.

Lemma common_loop_from_set (x0 : string) (snp_list : list (option (list string))) :
  (forall snp, In (Some snp) snp_list -> In x0 snp) ->
  forall s,
    In x0 s -> NoDup s ->
    exists s',
      heri_gc.common_loop (Some s) snp_list = Some s' /\
      NoDup s' /\
      forall x, In x s' <-> In x s /\ forall snp, In (Some snp) snp_list -> In x snp.
Proof.
  induction snp_list as [|[snp|] rest IH]; intros Hall s Hx0 Hnd.
  - exists s. split; [reflexivity|]. split; [exact Hnd|].
    intros x. split; [intros H; split; [exact H|intros snp []]|tauto].
  - cbn [heri_gc.common_loop]. rewrite (not_falsy_of_In _ _ Hx0).
    destruct (IH (fun snp' H => Hall snp' (or_intror H)) (heri_gc.intersection s snp))
      as (s' & Hloop & Hnd' & Hmem).
    + apply intersection_In. split; [exact Hx0|]. apply Hall. left. reflexivity.
    + apply NoDup_filter. exact Hnd.
    + exists s'. split; [exact Hloop|]. split; [exact Hnd'|].
      intros x. rewrite Hmem, intersection_In. split.
      * intros [[Hs Hsnp] Hrest]. split; [exact Hs|].
        intros snp' [[= <-]|H]; auto.
      * intros [Hs Hrest]. split; [split; [exact Hs|]|]; intros; apply Hrest; simpl; auto.
  - cbn [heri_gc.common_loop].
    destruct (IH (fun snp' H => Hall snp' (or_intror H)) s Hx0 Hnd)
      as (s' & Hloop & Hnd' & Hmem).
    exists s'. split; [exact Hloop|]. split; [exact Hnd'|].
    intros x. rewrite Hmem. split.
    + intros [Hs Hrest]. split; [exact Hs|].
      intros snp' [E|H]; [discriminate|auto].
    + intros [Hs Hrest]. split; [exact Hs|]. intros; apply Hrest; simpl; auto.
Qed.

Lemma common_loop_from_none (x0 : string) (snp_list : list (option (list string))) :
  (forall snp, In (Some snp) snp_list -> In x0 snp) ->
  (exists snp, In (Some snp) snp_list) ->
  exists s',
    heri_gc.common_loop None snp_list = Some s' /\
    NoDup s' /\
    forall x, In x s' <-> forall snp, In (Some snp) snp_list -> In x snp.
Proof.
  induction snp_list as [|[snp|] rest IH]; intros Hall [snp0 Hsome].
  - destruct Hsome.
  - cbn [heri_gc.common_loop heri_gc.falsy].
    destruct (@common_loop_from_set x0 rest (fun snp' H => Hall snp' (or_intror H))
                (heri_gc.set_of snp)) as (s' & Hloop & Hnd' & Hmem).
    + apply nodup_In. apply Hall. left. reflexivity.
    + apply NoDup_nodup.
    + exists s'. split; [exact Hloop|]. split; [exact Hnd'|].
      intros x. rewrite Hmem. unfold heri_gc.set_of. rewrite nodup_In. split.
      * intros [Hs Hrest] snp' [[= <-]|H]; auto.
      * intros H. split; [|intros]; apply H; simpl; auto.
  - cbn [heri_gc.common_loop].
    destruct Hsome as [E|Hsome]; [discriminate|].
    destruct (IH (fun snp' H => Hall snp' (or_intror H)) (ex_intro _ snp0 Hsome))
      as (s' & Hloop & Hnd' & Hmem).
    exists s'. split; [exact Hloop|]. split; [exact Hnd'|].
    intros x. rewrite Hmem. split.
    + intros H snp' [E|H']; [discriminate|auto].
    + intros H snp' H'. apply H. right. exact H'.
Qed.

(** X17.  When some rsID belongs to every argument that has a SNP column,
    and there is such an argument, [get_common_snps] returns a set without
    repetitions that holds exactly the rsIDs belonging to all of them;
    arguments without a SNP column are skipped. *)
Theorem get_common_snps_is_intersection (x0 : string) (snp0 : list string)
  (snp_list : list (option (list string))) :
  In (Some snp0) snp_list ->
  (forall snp, In (Some snp) snp_list -> In x0 snp) ->
  exists s,
    heri_gc.get_common_snps snp_list = Ok s /\
    NoDup s /\
    forall x, In x s <-> forall snp, In (Some snp) snp_list -> In x snp.
Proof.
  intros Hsome Hall. unfold heri_gc.get_common_snps.
  destruct snp_list as [|item rest]; [destruct Hsome|].
  change ((List.length (item :: rest) =? 0)%nat) with false. cbv iota.
  destruct (@common_loop_from_none x0 (item :: rest) Hall (ex_intro _ snp0 Hsome))
    as (s' & Hloop & Hnd & Hmem).
  rewrite Hloop.
  destruct s' as [|x s'].
  - exfalso. apply (proj2 (Hmem x0)). exact Hall.
  - exists (x :: s'). auto.
Qed.

Lemma get_common_snps_is_intersection_witness :
  exists s,
    heri_gc.get_common_snps [Some ["rs1"; "rs2"]; None; Some ["rs2"; "rs3"]]%string = Ok s /\
    NoDup s /\
    forall x, In x s <->
      forall snp, In (Some snp) [Some ["rs1"; "rs2"]; None; Some ["rs2"; "rs3"]]%string ->
                  In x snp.
Proof.
  apply (@get_common_snps_is_intersection "rs2"%string ["rs1"; "rs2"]%string).
  - left. reflexivity.
  - intros snp [[= <-]|[E|[[= <-]|[]]]]; [|discriminate|]; simpl; auto.
Defined.

End CommonSnps.

(** ** Duplicated rsIDs *)

Section Duplicates.

Lemma count_SNP_count_occ (snp : string) (gwas : list snp_row) :
  count_SNP snp gwas = count_occ string_dec (map SNP gwas) snp.
Proof.
  unfold count_SNP. induction gwas as [|r gwas IH]; [reflexivity|].
  simpl. destruct (String.eqb_spec (SNP r) snp) as [E|E];
    destruct (string_dec (SNP r) snp) as [E'|E']; try contradiction; simpl;
    rewrite IH; reflexivity.
Qed.

Lemma count_occ_filter_le (f : string -> bool) (l : list string) (x : string) :
  count_occ string_dec (filter f l) x <= count_occ string_dec l x.
Proof.
  induction l as [|y l IH]; [apply Nat.le_refl|].
  simpl. destruct (f y); simpl; destruct (string_dec y x); lia.
Qed.

Lemma map_SNP_drop (gwas : list snp_row) :
  map SNP (drop_duplicates_SNP gwas)
  = filter (fun s => count_occ string_dec (map SNP gwas) s =? 1) (map SNP gwas).
Proof.
  unfold drop_duplicates_SNP.
  assert (H : forall l,
             map SNP (filter (fun r => count_SNP (SNP r) gwas =? 1) l)
             = filter (fun s => count_occ string_dec (map SNP gwas) s =? 1) (map SNP l)).
  { induction l as [|r l IH]; [reflexivity|].
    simpl. rewrite count_SNP_count_occ.
    destruct (count_occ string_dec (map SNP gwas) (SNP r) =? 1); simpl;
      rewrite IH; reflexivity. }
  apply H.
Qed.

(** X18.  After the duplicate filter no rsID occurs twice; a row stays
    exactly when it is the only row with its rsID, so every occurrence of
    a repeated rsID is dropped; a table without repeated rsIDs is
    unchanged. *)
Theorem drop_duplicates_keeps_unique_ids (gwas : list snp_row) :
  NoDup (map SNP (drop_duplicates_SNP gwas)) /\
  (forall r, In r (drop_duplicates_SNP gwas) <->
             In r gwas /\ count_SNP (SNP r) gwas = 1) /\
  (NoDup (map SNP gwas) -> drop_duplicates_SNP gwas = gwas).
Proof.
  split; [|split].
  - rewrite map_SNP_drop. apply (NoDup_count_occ string_dec). intros x.
    set (f := fun s => count_occ string_dec (map SNP gwas) s =? 1).
    destruct (in_dec string_dec x (filter f (map SNP gwas))) as [Hin|Hout].
    + apply filter_In in Hin. destruct Hin as [_ Hf]. unfold f in Hf.
      apply Nat.eqb_eq in Hf. rewrite <- Hf. apply count_occ_filter_le.
    + apply (count_occ_not_In string_dec) in Hout. lia.
  - intros r. unfold drop_duplicates_SNP. rewrite filter_In, Nat.eqb_eq. reflexivity.
  - intros Hnd. unfold drop_duplicates_SNP.
    apply forallb_filter_id. apply forallb_forall. intros r Hr.
    apply Nat.eqb_eq. rewrite count_SNP_count_occ.
    apply (in_map SNP) in Hr.
    pose proof (proj1 (NoDup_count_occ string_dec (map SNP gwas)) Hnd (SNP r)) as Hle.
    apply (count_occ_In string_dec) in Hr. lia.
Qed.

End Duplicates.

(** ** Triangles and dense blocks *)

Section TriangleRoundTrip.

Import ldmatrix.

Lemma Qplus_0_l_eq (x : Q) : (0 + x = x)%Q.
Proof.
  destruct x as [p q]. unfold Qplus. simpl.
  rewrite Z.mul_1_r. reflexivity.
Qed.

Lemma mk_matrix_dims (rows cols : nat) (f : nat -> nat -> Q) :
  has_dims rows cols (mk_matrix rows cols f).
Proof.
  unfold mk_matrix. split.
  - rewrite length_map, length_seq. reflexivity.
  - intros r Hr.
    rewrite (nth_indep _ [] ((fun r0 => map (fun c0 => f r0 c0) (seq 0 cols)) 0))
      by (rewrite length_map, length_seq; exact Hr).
    rewrite (map_nth (fun r0 => map (fun c0 => f r0 c0) (seq 0 cols))).
    rewrite length_map, length_seq. reflexivity.
Qed.

Lemma dense_ext (rows cols : nat) (a b : dense) :
  has_dims rows cols a -> has_dims rows cols b ->
  (forall r c, r < rows -> c < cols -> mat_get a r c = mat_get b r c) ->
  a = b.
Proof.
  intros [Ha Ha'] [Hb Hb'] Heq.
  apply (nth_ext _ _ [] []); [congruence|].
  intros r Hr. rewrite Ha in Hr.
  apply (nth_ext _ _ 0%Q 0%Q); [rewrite Ha', Hb' by exact Hr; reflexivity|].
  intros c Hc. rewrite Ha' in Hc by exact Hr.
  apply (Heq r c Hr Hc).
Qed.

Lemma tril_indices_at (n : nat) :
  forall k, k < tri n ->
    exists r c, nth k (tril_indices n) (0, 0) = (r, c) /\ c < r /\ r < n /\ tri r + c = k.
Proof.
  induction n as [|n IH]; intros k Hk; [simpl in Hk; lia|].
  rewrite tril_indices_S. simpl in Hk.
  destruct (Nat.lt_ge_cases k (tri n)) as [Hlt|Hge].
  - destruct (IH k Hlt) as (r & c & E & Hc & Hr & Hs).
    exists r, c. rewrite app_nth1 by (rewrite tril_indices_length; exact Hlt).
    repeat split; try assumption. lia.
  - exists n, (k - tri n).
    rewrite app_nth2 by (rewrite tril_indices_length; exact Hge).
    rewrite tril_indices_length.
    rewrite (nth_indep _ (0, 0) ((fun c0 => (n, c0)) 0))
      by (rewrite length_map, length_seq; lia).
    rewrite (map_nth (fun c0 => (n, c0))), seq_nth by lia.
    repeat split; lia.
Qed.

Lemma scatter_upper (dim : nat) (tril : list Q) (r c : nat) :
  r <= c ->
  mat_get (scatter (np_zeros dim dim) (tril_indices dim) tril) r c = 0%Q.
Proof.
  intros Hrc. unfold scatter. rewrite fold_set_untouched.
  - apply zeros_get.
  - intros Hin. apply in_map_iff in Hin.
    destruct Hin as ([[r' c'] x] & [= -> ->] & Hin).
    apply in_combine_l in Hin. apply tril_indices_In in Hin. lia.
Qed.

Lemma scatter_lower (dim : nat) (tril : list Q) (r c : nat) :
  List.length tril = tri dim -> c < r -> r < dim ->
  mat_get (scatter (np_zeros dim dim) (tril_indices dim) tril) r c
  = nth (tri r + c) tril 0%Q.
Proof.
  intros Hlen Hc Hr. unfold scatter.
  apply (@fold_set_written dim dim).
  - apply zeros_dims.
  - exact Hr.
  - lia.
  - rewrite map_fst_combine.
    + apply tril_indices_NoDup.
    + rewrite tril_indices_length. symmetry. exact Hlen.
  - rewrite <- (tril_indices_nth Hc Hr).
    rewrite <- (@combine_nth _ _ (tril_indices dim) tril (tri r + c) (0, 0) 0%Q)
      by (rewrite tril_indices_length; symmetry; exact Hlen).
    apply nth_In. rewrite length_combine, tril_indices_length, Hlen, Nat.min_id.
    pose proof (@tri_le (S r) dim ltac:(lia)) as H. simpl in H. lia.
Qed.

(** The entries of the dense block rebuilt from a triangle. *)
Lemma get_2d_matrix_entries (dim : nat) (tril : list Q) (D : dense) :
  List.length tril = tri dim ->
  _get_2d_matrix dim (Arr1 tril) = Ok D ->
  has_dims dim dim D /\
  (forall r c, c < r -> r < dim -> mat_get D r c = nth (tri r + c) tril 0%Q) /\
  (forall r c, r < c -> c < dim -> mat_get D r c = nth (tri c + r) tril 0%Q) /\
  (forall r, r < dim -> mat_get D r r = 1%Q).
Proof.
  intros Hlen HD.
  unfold _get_2d_matrix in HD.
  rewrite tril_indices_length, Hlen, Nat.eqb_refl in HD. cbn [bind] in HD.
  injection HD as <-.
  split; [apply mk_matrix_dims|].
  split; [|split].
  - intros r c Hc Hr.
    unfold fill_diagonal. rewrite mk_matrix_get by lia.
    destruct (Nat.eqb_spec r c) as [E|_]; [lia|].
    unfold add_transpose. rewrite mk_matrix_get by lia.
    rewrite scatter_lower, scatter_upper by (assumption || lia).
    apply Qplus_0_r_eq.
  - intros r c Hrc Hc.
    unfold fill_diagonal. rewrite mk_matrix_get by lia.
    destruct (Nat.eqb_spec r c) as [E|_]; [lia|].
    unfold add_transpose. rewrite mk_matrix_get by lia.
    rewrite scatter_upper, scatter_lower by (assumption || lia).
    apply Qplus_0_l_eq.
  - intros r Hr. unfold fill_diagonal. rewrite mk_matrix_get by lia.
    rewrite Nat.eqb_refl. reflexivity.
Qed.

(** X4.  From a triangle with one entry for every position below the
    diagonal, [_get_2d_matrix] builds a [dim] x [dim] array that is
    symmetric and has ones on its diagonal; a 2-D input raises. *)
Theorem get_2d_matrix_symmetric_unit (dim : nat) (tril : list Q) :
  List.length tril = List.length (tril_indices dim) ->
  (exists D,
      _get_2d_matrix dim (Arr1 tril) = Ok D /\
      List.length D = dim /\
      (forall r, r < dim -> List.length (nth r D []) = dim) /\
      (forall r c, r < dim -> c < dim -> mat_get D r c = mat_get D c r) /\
      (forall r, r < dim -> mat_get D r r = 1%Q)) /\
  (forall a, exists msg, _get_2d_matrix dim (Arr2 a) = Raise (ValueError msg)).
Proof.
  intros Hlen. rewrite tril_indices_length in Hlen.
  split; [|intros a; eexists; reflexivity].
  destruct (@get_2d_matrix_lower dim _ Hlen) as (D & HD & _).
  destruct (@get_2d_matrix_entries dim _ D Hlen HD) as ([Hrows Hcols] & Hlow & Hup & Hdiag).
  exists D. repeat split; try assumption.
  intros r c Hr Hc.
  destruct (Nat.lt_total r c) as [H|[->|H]].
  - rewrite Hup, Hlow by assumption. reflexivity.
  - reflexivity.
  - rewrite Hlow, Hup by assumption. reflexivity.
Qed.

Lemma get_2d_matrix_symmetric_unit_witness :
  (exists D,
      _get_2d_matrix 3 (Arr1 [(1 # 2); (1 # 3); (1 # 4)]%Q) = Ok D /\
      List.length D = 3 /\
      (forall r, r < 3 -> List.length (nth r D []) = 3) /\
      (forall r c, r < 3 -> c < 3 -> mat_get D r c = mat_get D c r) /\
      (forall r, r < 3 -> mat_get D r r = 1%Q)) /\
  (forall a, exists msg, _get_2d_matrix 3 (Arr2 a) = Raise (ValueError msg)).
Proof.
  apply (@get_2d_matrix_symmetric_unit 3 [(1 # 2); (1 # 3); (1 # 4)]%Q).
  reflexivity.
Defined.

Lemma lower_triangle_of_entries (dim : nat) (D : dense) (f : nat -> nat -> Q) :
  List.length D = dim ->
  (forall r c, c < r -> r < dim -> mat_get D r c = f r c) ->
  _get_lower_triangle D = map (fun p => f (fst p) (snd p)) (tril_indices dim).
Proof.
  intros Hd Hf. unfold _get_lower_triangle, gather. rewrite Hd.
  apply map_ext_in. intros [r c] Hin. apply tril_indices_In in Hin.
  cbn [fst snd]. apply Hf; lia.
Qed.

Lemma triangle_enumeration (dim : nat) (tril : list Q) :
  List.length tril = tri dim ->
  map (fun p => nth (tri (fst p) + snd p) tril 0%Q) (tril_indices dim) = tril.
Proof.
  intros Hlen.
  apply (nth_ext _ _ 0%Q 0%Q).
  - rewrite length_map, tril_indices_length. symmetry. exact Hlen.
  - intros k Hk. rewrite length_map, tril_indices_length in Hk.
    destruct (@tril_indices_at dim k Hk) as (r & c & E & _ & _ & Hs).
    rewrite (nth_indep _ 0%Q ((fun p => nth (tri (fst p) + snd p) tril 0%Q) (0, 0)))
      by (rewrite length_map, tril_indices_length; exact Hk).
    rewrite (map_nth (fun p => nth (tri (fst p) + snd p) tril 0%Q)), E.
    cbn [fst snd]. rewrite Hs. reflexivity.
Qed.

(** X5.  Triangle round trip: the strict lower triangle of the block that
    [_get_2d_matrix] rebuilds from a triangle is that triangle. *)
Theorem lower_triangle_of_get_2d_matrix (dim : nat) (tril : list Q) (D : dense) :
  List.length tril = List.length (tril_indices dim) ->
  _get_2d_matrix dim (Arr1 tril) = Ok D ->
  _get_lower_triangle D = tril.
Proof.
  intros Hlen HD. rewrite tril_indices_length in Hlen.
  destruct (@get_2d_matrix_entries dim _ D Hlen HD) as ([Hrows _] & Hlow & _ & _).
  rewrite (@lower_triangle_of_entries dim D (fun r c => nth (tri r + c) tril 0%Q) Hrows Hlow).
  apply triangle_enumeration. exact Hlen.
Qed.

Lemma lower_triangle_of_get_2d_matrix_witness :
  _get_lower_triangle
    [[1; 1 # 2; 1 # 3]; [1 # 2; 1; 1 # 4]; [1 # 3; 1 # 4; 1]]%Q
  = [(1 # 2); (1 # 3); (1 # 4)]%Q.
Proof.
  apply (@lower_triangle_of_get_2d_matrix 3 [(1 # 2); (1 # 3); (1 # 4)]%Q).
  - reflexivity.
  - reflexivity.
Defined.

(** X6.  Dense round trip: a square array that is symmetric and has ones
    on its diagonal is rebuilt exactly from its strict lower triangle. *)
Theorem get_2d_matrix_of_lower_triangle (dim : nat) (M : dense) :
  has_dims dim dim M ->
  (forall r c, r < dim -> c < dim -> mat_get M r c = mat_get M c r) ->
  (forall r, r < dim -> mat_get M r r = 1%Q) ->
  _get_2d_matrix dim (Arr1 (_get_lower_triangle M)) = Ok M.
Proof.
  intros HM Hsym Hdiag. pose proof HM as [Hrows Hcols].
  assert (Hlen : List.length (_get_lower_triangle M) = tri dim).
  { unfold _get_lower_triangle, gather.
    rewrite length_map, Hrows. apply tril_indices_length. }
  destruct (@get_2d_matrix_lower dim _ Hlen) as (D & HD & _).
  destruct (@get_2d_matrix_entries dim _ D Hlen HD) as (HDd & Hlow & Hup & Hone).
  rewrite HD. f_equal.
  assert (Hentry : forall r c, c < r -> r < dim ->
            nth (tri r + c) (_get_lower_triangle M) 0%Q = mat_get M r c).
  { intros r c Hc Hr. unfold _get_lower_triangle, gather. rewrite Hrows.
    rewrite (nth_indep _ 0%Q ((fun p => mat_get M (fst p) (snd p)) (0, 0))).
    - rewrite (map_nth (fun p => mat_get M (fst p) (snd p))).
      rewrite (tril_indices_nth Hc Hr). reflexivity.
    - rewrite length_map, tril_indices_length.
      pose proof (@tri_le (S r) dim ltac:(lia)) as H. simpl in H. lia. }
  apply (@dense_ext dim dim D M HDd HM). intros r c Hr Hc.
  destruct (Nat.lt_total r c) as [H|[->|H]].
  - rewrite Hup, Hentry by assumption. apply Hsym; assumption.
  - rewrite Hone, Hdiag by assumption. reflexivity.
  - rewrite Hlow, Hentry by assumption. reflexivity.
Qed.

Lemma get_2d_matrix_of_lower_triangle_witness :
  _get_2d_matrix 2 (Arr1 (_get_lower_triangle [[1; 1 # 2]; [1 # 2; 1]]%Q))
  = Ok [[1; 1 # 2]; [1 # 2; 1]]%Q.
Proof.
  apply (@get_2d_matrix_of_lower_triangle 2 [[1; 1 # 2]; [1 # 2; 1]]%Q).
  - split; [reflexivity|]. intros [|[|r]] Hr; try reflexivity; lia.
  - intros [|[|r]] [|[|c]] Hr Hc; try reflexivity; lia.
  - intros [|[|r]] Hr; try reflexivity; lia.
Defined.

End TriangleRoundTrip.

(** ** Block bookkeeping *)

Section BlockInfo.

Import ldmatrix.

Local Open Scope Z_scope.

Lemma insert_sorted_In (x y : Z) (l : list Z) :
  In x (insert_sorted y l) <-> x = y \/ In x l.
Proof.
  induction l as [|z l IH]; simpl; [intuition|].
  destruct (y <=? z); simpl; [intuition|]. rewrite IH. intuition.
Qed.

Lemma sorted_In (x : Z) (l : list Z) :
  In x (fold_right insert_sorted [] l) <-> In x l.
Proof.
  induction l as [|z l IH]; simpl; [reflexivity|].
  rewrite insert_sorted_In, IH. intuition.
Qed.

Lemma existsb_eqb_In (x : Z) (seen : list Z) :
  existsb (Z.eqb x) seen = true <-> In x seen.
Proof.
  rewrite existsb_exists. split.
  - intros (y & Hy & E). apply Z.eqb_eq in E. subst. exact Hy.
  - intros H. exists x. split; [exact H|apply Z.eqb_refl].
Qed.

Lemma unique_from_In (l : list Z) :
  forall seen x, In x (unique_from seen l) <-> In x l /\ ~ In x seen.
Proof.
  induction l as [|y l IH]; intros seen x; simpl; [intuition|].
  destruct (existsb (Z.eqb y) seen) eqn:E.
  - apply existsb_eqb_In in E. rewrite IH. split.
    + intuition.
    + intros [[->|H] Hn]; [contradiction|auto].
  - assert (Hy : ~ In y seen).
    { intros H. apply existsb_eqb_In in H. congruence. }
    simpl. rewrite IH. simpl. split.
    + intros [->|[H Hn]]; [auto|]. split; [auto|]. intros Hs. apply Hn. auto.
    + intros [[->|H] Hn]; [auto|].
      destruct (Z.eq_dec y x) as [->|Hne]; [auto|].
      right. split; [exact H|]. intros [E'|Hs]; [congruence|contradiction].
Qed.

Lemma unique_from_NoDup (l : list Z) : forall seen, NoDup (unique_from seen l).
Proof.
  induction l as [|y l IH]; intros seen; simpl; [constructor|].
  destruct (existsb (Z.eqb y) seen); [apply IH|].
  constructor; [|apply IH].
  rewrite unique_from_In. simpl. intuition.
Qed.

Lemma block_labels_In (ld_info : list info_row) (k : Z) :
  In k (block_labels ld_info) <-> exists r, In r ld_info /\ block r = k.
Proof.
  unfold block_labels, unique. rewrite unique_from_In, sorted_In, in_map_iff.
  simpl. split.
  - intros [(r & E & Hr) _]. exists r. auto.
  - intros (r & Hr & E). split; [exists r; auto|auto].
Qed.

Lemma block_labels_NoDup (ld_info : list info_row) : NoDup (block_labels ld_info).
Proof. apply unique_from_NoDup. Qed.

Local Close Scope Z_scope.

Lemma total_indicator (x : Z) (keys : list Z) :
  NoDup keys -> In x keys ->
  total (map (fun k => if (x =? k)%Z then 1 else 0) keys) = 1.
Proof.
  induction 1 as [|k keys Hk Hnd IH]; intros Hin; [destruct Hin|].
  simpl. destruct (Z.eqb_spec x k) as [->|Hne].
  - f_equal. clear IH Hin Hnd.
    induction keys as [|k' keys IH]; [reflexivity|].
    simpl. destruct (Z.eqb_spec k k') as [->|_].
    + exfalso. apply Hk. left. reflexivity.
    + apply IH. intros H. apply Hk. right. exact H.
  - destruct Hin as [->|Hin]; [congruence|]. apply IH. exact Hin.
Qed.

Lemma total_map_add {A} (f g : A -> nat) (l : list A) :
  total (map (fun k => f k + g k) l) = total (map f l) + total (map g l).
Proof.
  induction l as [|a l IH]; simpl; [reflexivity|]. unfold total in *. lia.
Qed.

Lemma groups_cover (rows : list info_row) (keys : list Z) :
  NoDup keys -> (forall r, In r rows -> In (block r) keys) ->
  total (map (fun k => List.length (group rows k)) keys) = List.length rows.
Proof.
  intros Hnd. induction rows as [|r rows IH]; intros Hall.
  - clear Hnd Hall. induction keys as [|k keys IHk]; [reflexivity|].
    simpl. exact IHk.
  - simpl List.length. change (S (List.length rows)) with (1 + List.length rows).
    rewrite <- IH by (intros r' Hr'; apply Hall; right; exact Hr').
    rewrite <- (@total_indicator (block r) keys Hnd) by (apply Hall; left; reflexivity).
    rewrite <- total_map_add. f_equal. apply map_ext. intros k.
    unfold group. simpl. destruct (block r =? k)%Z; reflexivity.
Qed.

Lemma ranges_from_chain (sizes : list nat) :
  forall e,
    map (fun p => snd p - fst p) (ranges_from e sizes) = sizes /\
    map fst (ranges_from e sizes) ++ [e + total sizes]
    = e :: map snd (ranges_from e sizes).
Proof.
  induction sizes as [|s sizes IH]; intros e.
  - simpl. rewrite Nat.add_0_r. auto.
  - cbn [ranges_from map fst snd]. destruct (IH (e + s)) as [H1 H2]. split.
    + rewrite H1. f_equal. lia.
    + cbn [app]. f_equal.
      replace (e + total (s :: sizes)) with (e + s + total sizes)
        by (unfold total; simpl; lia).
      exact H2.
Qed.

Lemma block_info_facts (ld_info : list info_row) (sizes : list nat)
  (ranges : list (nat * nat)) :
  _get_block_info ld_info = (sizes, ranges) ->
  Forall (fun s => 1 <= s) sizes /\
  fold_right Nat.add 0 sizes = List.length ld_info /\
  map (fun p => snd p - fst p) ranges = sizes /\
  map fst ranges ++ [List.length ld_info] = 0 :: map snd ranges.
Proof.
  unfold _get_block_info. intros E. injection E as <- <-.
  set (sizes := map (fun k => List.length (group ld_info k)) (block_labels ld_info)).
  assert (Htotal : total sizes = List.length ld_info).
  { apply groups_cover; [apply block_labels_NoDup|].
    intros r Hr. apply block_labels_In. exists r. auto. }
  split; [|split; [exact Htotal|]].
  - apply Forall_forall. intros s Hs. unfold sizes in Hs.
    apply in_map_iff in Hs. destruct Hs as (k & <- & Hk).
    apply block_labels_In in Hk. destruct Hk as (r & Hr & E).
    assert (Hin : In r (group ld_info k)).
    { unfold group. apply filter_In. split; [exact Hr|]. apply Z.eqb_eq. exact E. }
    destruct (group ld_info k); [destruct Hin|simpl; lia].
  - destruct (ranges_from_chain sizes 0) as [H1 H2].
    split; [exact H1|]. rewrite <- Htotal. exact H2.
Qed.

(** X7.  The block bookkeeping of an info table: every block has at
    least one SNP, the sizes add up to the number of rows, and the ranges
    are contiguous, the first starting at 0, each as long as its block and
    the last ending at the number of rows. *)
Theorem block_info_partitions_rows (ld_info : list info_row) :
  let '(block_sizes, block_ranges) := _get_block_info ld_info in
  Forall (fun s => 1 <= s) block_sizes /\
  fold_right Nat.add 0 block_sizes = List.length ld_info /\
  map (fun p => snd p - fst p) block_ranges = block_sizes /\
  map fst block_ranges ++ [List.length ld_info] = 0 :: map snd block_ranges.
Proof.
  destruct (_get_block_info ld_info) as [sizes ranges] eqn:E.
  exact (@block_info_facts ld_info sizes ranges E).
Qed.

(** *** The merge plan *)

Lemma merge_blocks_loop_covers (n_blocks : nat) (mean_size : Q) (sizes : list nat) :
  forall (i j : nat) (merged : list (list nat)) (cur_size : nat) (cur_group : list nat),
    sizes <> [] ->
    i + List.length sizes = n_blocks ->
    j <= i ->
    List.concat merged = seq 0 j ->
    cur_group = seq j (i - j) ->
    exists j',
      j' <= n_blocks - 1 /\
      List.concat (merge_blocks_loop n_blocks mean_size i sizes merged cur_size cur_group)
      = seq 0 j' ++ [n_blocks - 1].
Proof.
  induction sizes as [|b rest IH]; intros i j merged cur_size cur_group Hne Hn Hj Hm Hc;
    [congruence|].
  cbn [merge_blocks_loop]. simpl in Hn.
  assert (Hsnoc : cur_group ++ [i] = seq j (S i - j)).
  { rewrite Hc. replace (S i - j) with ((i - j) + 1) by lia.
    rewrite seq_app. simpl. do 2 f_equal. lia. }
  assert (Hall : seq 0 j ++ cur_group = seq 0 i).
  { rewrite Hc. replace i with (j + (i - j)) at 2 by lia.
    rewrite seq_app. reflexivity. }
  destruct (Nat.ltb_spec i (n_blocks - 1)) as [Hlt|Hge].
  - assert (Hrest : rest <> []) by (destruct rest; [simpl in Hn; lia|discriminate]).
    destruct (fits mean_size cur_size b).
    + apply (IH (S i) j); try assumption; lia.
    + apply (IH (S i) i); try assumption; try lia.
      * rewrite concat_app. simpl. rewrite app_nil_r, Hm. exact Hall.
      * replace (S i - i) with 1 by lia. reflexivity.
  - assert (rest = []) by (destruct rest; [reflexivity|simpl in Hn; lia]). subst rest.
    assert (Hi : i = n_blocks - 1) by (simpl in Hn; lia).
    cbn [merge_blocks_loop].
    destruct (fits mean_size cur_size b).
    + exists i. split; [lia|].
      rewrite concat_app. simpl. rewrite app_nil_r, Hm, app_assoc, Hall, Hi.
      reflexivity.
    + exists j. split; [lia|].
      rewrite concat_app. simpl. rewrite Hm, Hi. reflexivity.
Qed.

(** X8.  For a non-empty list of block sizes, the groups of the merge
    plan, read in order, list the block indices 0, ..., j-1 for some j
    and then the last index: no index is listed twice, the last block is
    always in the plan, and only blocks just before the last one can be
    missing; for no blocks the plan is empty. *)
Theorem merge_blocks_covers_prefix_and_last (block_sizes : list nat) :
  block_sizes <> [] ->
  exists j,
    j <= List.length block_sizes - 1 /\
    List.concat (_merge_blocks block_sizes)
    = seq 0 j ++ [List.length block_sizes - 1].
Proof.
  intros Hne. unfold _merge_blocks.
  apply (@merge_blocks_loop_covers _ _ block_sizes 0 0); try reflexivity; try lia.
  exact Hne.
Qed.

Lemma merge_blocks_covers_prefix_and_last_witness :
  exists j,
    j <= List.length [100; 1] - 1 /\
    List.concat (_merge_blocks [100; 1]) = seq 0 j ++ [List.length [100; 1] - 1].
Proof.
  apply (@merge_blocks_covers_prefix_and_last [100; 1]). discriminate.
Defined.

End BlockInfo.

(** ** No merge returns *)

Section MergeNeverReturns.

Import ldmatrix.

Variable fs : string -> option ld_file.

Lemma merge_body_raises (self : LDmatrix) (ld_prefix : string) :
  exists self' e,
    merge_body fs self ld_prefix = (self', Raise e) /\
    ld_info self' = ld_info self /\
    is_truncated self' = is_truncated self /\
    block_sizes self' = block_sizes self /\
    block_ranges self' = block_ranges self /\
    exists added, data self' = data self ++ added.
Proof.
  unfold merge_body.
  match goal with |- context [match ?r with Ok _ => _ | Raise _ => _ end] =>
    destruct r as [ld_i|e] end.
  - eexists. eexists. split; [reflexivity|]. cbn. repeat split. eauto.
  - exists self, e. repeat split. exists []. rewrite app_nil_r. reflexivity.
Qed.

(** X9.  No call of [merge] returns normally: it raises for a truncated
    matrix, for an empty list and in the first iteration of its loop.  It
    leaves the info table, the truncated flag and the block bookkeeping as
    they were; only blocks may have been appended to the data. *)
Theorem merge_never_returns (self : LDmatrix) (ld_files : list string) :
  exists self' e,
    merge fs self ld_files = (self', Raise e) /\
    ld_info self' = ld_info self /\
    is_truncated self' = is_truncated self /\
    block_sizes self' = block_sizes self /\
    block_ranges self' = block_ranges self /\
    exists added, data self' = data self ++ added.
Proof.
  unfold merge.
  destruct (is_truncated self) eqn:Et.
  - exists self. eexists. split; [reflexivity|]. rewrite Et. repeat split.
    exists []. rewrite app_nil_r. reflexivity.
  - destruct ld_files as [|p rest].
    + exists self. eexists. split; [reflexivity|]. rewrite Et. repeat split.
      exists []. rewrite app_nil_r. reflexivity.
    + change ((List.length (p :: rest) =? 0)%nat) with false. cbv iota.
      cbn [for_each].
      destruct (merge_body_raises self p) as (self' & e & E & H).
      rewrite E. exists self', e. rewrite <- Et. split; [reflexivity|].
      destruct H as (H1 & H2 & H3 & H4 & H5). rewrite H2. auto.
Qed.

End MergeNeverReturns.

(** ** Extraction, truncation and loading *)

Section ExtractAndTruncate.

Import ldmatrix.

Lemma ascending_seq (k s : nat) : ascending (seq s k) = true.
Proof.
  revert s. induction k as [|k IH]; intros s; [reflexivity|].
  destruct k as [|k]; [reflexivity|].
  pose proof (IH (S s)) as H.
  change (seq s (S (S k))) with (s :: S s :: seq (S (S s)) k).
  change (seq (S s) (S k)) with (S s :: seq (S (S s)) k) in H.
  change (ascending (s :: S s :: seq (S (S s)) k))
    with ((s <? S s) && ascending (S s :: seq (S (S s)) k)).
  rewrite H. destruct (Nat.ltb_spec s (S s)); [reflexivity|lia].
Qed.

Lemma submatrix_all (dim : nat) (D : dense) (f : nat -> nat -> Q) :
  (forall r c, c < r -> r < dim -> mat_get D r c = f r c) ->
  forall r c, c < r -> r < dim -> mat_get (submatrix D (seq 0 dim)) r c = f r c.
Proof.
  intros HD r c Hc Hr.
  rewrite submatrix_get by (rewrite length_seq; lia).
  rewrite !seq_nth by lia. apply HD; assumption.
Qed.

(** X10.  Keeping every index of a block changes nothing: on a triangle
    with one entry for every position below the diagonal,
    [_extract_by_idxs] with the indices 0, ..., size-1 returns the
    triangle itself. *)
Theorem extract_by_idxs_all (data : list Q) (size : nat) :
  List.length data = List.length (tril_indices size) ->
  _extract_by_idxs data size (range size) = Ok data.
Proof.
  intros Hlen. rewrite tril_indices_length in Hlen.
  destruct size as [|[|size]].
  - destruct data; [reflexivity|discriminate].
  - destruct data; [reflexivity|discriminate].
  - set (n := S (S size)) in *.
    destruct (@get_2d_matrix_lower n data Hlen) as (D & _ & Hget).
    unfold _extract_by_idxs, offset_lists.
    change (range n) with (Z.of_nat 0 :: map Z.of_nat (seq 1 (S size))).
    cbv iota.
    change [Z.of_nat 0] with (map Z.of_nat [0]).
    rewrite offsets_returns.
    + cbn [bind].
      assert (Hpos : (0 <? List.length (offsets_of [0] (seq 1 (S size)))) = true)
        by reflexivity.
      rewrite Hpos.
      rewrite (@take_offsets data D n (seq 1 (S size)) Hlen Hget).
      * f_equal.
        change (tri_rows (mat_get D) [0] (seq 1 (S size)))
          with (tri_rows (mat_get D) [] (seq 0 n)).
        rewrite <- lower_triangle_of_submatrix.
        rewrite (@lower_triangle_of_entries n (submatrix D (seq 0 n))
                   (fun r c => nth (tri r + c) data 0%Q)).
        -- apply triangle_enumeration. exact Hlen.
        -- unfold submatrix. rewrite length_map, length_seq. reflexivity.
        -- apply submatrix_all. exact Hget.
      * apply ascending_seq.
      * apply Forall_forall. intros x Hx. apply in_seq in Hx. unfold n. lia.
      * constructor; [|constructor].
        apply Forall_forall. intros x Hx. apply in_seq in Hx. lia.
    + apply Forall_forall. intros x Hx. apply in_seq in Hx. unfold n. lia.
Qed.

Lemma extract_by_idxs_all_witness :
  _extract_by_idxs [(1 # 2); (1 # 3); (1 # 4)]%Q 3 (range 3)
  = Ok [(1 # 2); (1 # 3); (1 # 4)]%Q.
Proof.
  apply (@extract_by_idxs_all [(1 # 2); (1 # 3); (1 # 4)]%Q 3). reflexivity.
Defined.

(** *** [extract] on the object *)

Lemma extract_loop_keep (sizes : list nat) (block_dict : list (Z * list Z))
  (todo : list ndarray) :
  forall (i : nat) (done keep d keep' : list ndarray),
    extract_loop sizes block_dict i done todo keep = (d, Ok keep') ->
    List.length keep' <= List.length keep + List.length todo.
Proof.
  induction todo as [|b todo IH]; intros i done keep d keep' H.
  - cbn in H. injection H as _ <-. lia.
  - cbn [extract_loop] in H.
    destruct (assoc_get block_dict (Z.of_nat i)) as [idxs|].
    + destruct (nth_error sizes i) as [size|]; [|discriminate].
      destruct (extract_block b size idxs) as [b'|]; [|discriminate].
      apply IH in H. rewrite length_app in H. simpl in *. lia.
    + apply IH in H. simpl. lia.
Qed.

Lemma set_block_idx_columns (new_idx : list Z) (info : list info_row) :
  List.length new_idx = List.length info ->
  map SNP (map (fun p => set_block_idx (fst p) (snd p)) (combine new_idx info))
  = map SNP info.
Proof.
  revert info. induction new_idx as [|x new_idx IH]; intros [|r info] H;
    simpl in *; try discriminate; [reflexivity|].
  rewrite IH by lia. reflexivity.
Qed.

Lemma filter_map_SNP (snps : list string) (info : list info_row) :
  map SNP (filter (fun r => isin snps (SNP r)) info)
  = filter (isin snps) (map SNP info).
Proof.
  induction info as [|r info IH]; [reflexivity|].
  simpl. destruct (isin snps (SNP r)); simpl; rewrite IH; reflexivity.
Qed.

(** X11.  When [extract] returns, the matrix was not truncated and is not
    truncated afterwards; the SNP column is the old one restricted to the
    requested ids, in the old order; the block bookkeeping is that of the
    new info table; and no block was added. *)
Theorem extract_restricts_info (self self' : LDmatrix) (snps : list string) :
  extract self snps = (self', Ok tt) ->
  is_truncated self = false /\
  is_truncated self' = false /\
  map SNP (ld_info self') = filter (isin snps) (map SNP (ld_info self)) /\
  (block_sizes self', block_ranges self') = _get_block_info (ld_info self') /\
  List.length (data self') <= List.length (data self).
Proof.
  unfold extract.
  destruct (is_truncated self) eqn:Et; [discriminate|].
  match goal with |- context [extract_loop ?a ?b ?c ?d ?e ?f] =>
    destruct (extract_loop a b c d e f) as [d' [keep|err]] eqn:Eloop end;
    [|discriminate].
  match goal with |- context [if negb ?c then _ else _] =>
    destruct c eqn:Elen end; cbn [negb]; [|discriminate].
  apply Nat.eqb_eq in Elen.
  match goal with |- context [_get_block_info ?x] =>
    destruct (_get_block_info x) as [sizes ranges] eqn:Einfo end.
  intros [= <-]. cbn.
  split; [reflexivity|]. split; [exact Et|].
  split; [rewrite set_block_idx_columns by exact Elen; apply filter_map_SNP|].
  split; [symmetry; exact Einfo|].
  apply extract_loop_keep in Eloop. simpl in Eloop. exact Eloop.
Qed.

Lemma extract_restricts_info_witness :
  is_truncated two_snp_matrix = false /\
  is_truncated (fst (extract two_snp_matrix ["rs2"%string])) = false /\
  map SNP (ld_info (fst (extract two_snp_matrix ["rs2"%string])))
  = filter (isin ["rs2"%string]) (map SNP (ld_info two_snp_matrix)) /\
  (block_sizes (fst (extract two_snp_matrix ["rs2"%string])),
   block_ranges (fst (extract two_snp_matrix ["rs2"%string])))
  = _get_block_info (ld_info (fst (extract two_snp_matrix ["rs2"%string]))) /\
  List.length (data (fst (extract two_snp_matrix ["rs2"%string])))
  <= List.length (data two_snp_matrix).
Proof.
  apply (@extract_restricts_info two_snp_matrix
           (fst (extract two_snp_matrix ["rs2"%string])) ["rs2"%string]).
  reflexivity.
Defined.

End ExtractAndTruncate.

(** ** Loading, truncating, estimating *)

Section LoadTruncateEstimate.

Import ldmatrix.

Variable fs : string -> option ld_file.
Variable eig_kernel : Q -> bool -> dense -> result dense.

Lemma nondecreasing_cons (x : Z) (t : list Z) :
  nondecreasing (x :: t) = true -> Forall (Z.le x) t /\ nondecreasing t = true.
Proof.
  revert x. induction t as [|y t IH]; intros x H; [split; [constructor|reflexivity]|].
  cbn [nondecreasing] in H. apply andb_true_iff in H. destruct H as [Hxy Ht].
  apply Z.leb_le in Hxy. split; [|exact Ht].
  constructor; [exact Hxy|].
  destruct (IH y Ht) as [Hall _].
  eapply Forall_impl; [|exact Hall]. simpl. intros z Hz. lia.
Qed.

Lemma unique_sorted_increasing (l : list Z) :
  nondecreasing l = true ->
  forall seen, diff_all_positive (unique_from seen l) = true.
Proof.
  induction l as [|x t IH]; intros Hs seen; [reflexivity|].
  destruct (nondecreasing_cons _ _ Hs) as [Hle Ht].
  cbn [unique_from].
  destruct (existsb (Z.eqb x) seen); [apply IH; exact Ht|].
  specialize (IH Ht (x :: seen)).
  destruct (unique_from (x :: seen) t) as [|y R] eqn:E; [reflexivity|].
  unfold diff_all_positive in *. cbn [tl combine forallb fst snd].
  rewrite andb_true_iff. split; [|exact IH].
  assert (Hy : In y (unique_from (x :: seen) t)) by (rewrite E; left; reflexivity).
  apply unique_from_In in Hy. destruct Hy as [Hin Hnot].
  rewrite Forall_forall in Hle. specialize (Hle y Hin).
  assert (y <> x) by (intros ->; apply Hnot; left; reflexivity).
  apply Z.ltb_lt. lia.
Qed.

Lemma range_index_columns (rows : list info_row) :
  map label (range_index rows) = range (List.length rows) /\
  map CHR (range_index rows) = map CHR rows /\
  map SNP (range_index rows) = map SNP rows /\
  map block (range_index rows) = map block rows.
Proof.
  unfold range_index.
  assert (Hl : List.length (range (List.length rows)) = List.length rows)
    by (unfold range; rewrite length_map, length_seq; reflexivity).
  revert Hl. generalize (range (List.length rows)) as labels.
  induction rows as [|r rows IH]; intros [|l labels] Hl; simpl in *;
    try discriminate; [repeat split|].
  destruct (IH labels ltac:(lia)) as (H1 & H2 & H3 & H4).
  rewrite H1, H2, H3, H4. repeat split.
Qed.

(** X13.  A saved matrix whose chromosome column never decreases is
    loaded: the object is not truncated, holds the blocks of the data
    file, labels the rows 0, 1, 2, ..., keeps the SNP column, and its
    bookkeeping is that of its info table. *)
Theorem sorted_chromosomes_load (ld_prefix : string) (f : ld_file) :
  fs ld_prefix = Some f ->
  nondecreasing (map CHR (info_txt f)) = true ->
  exists self,
    LDmatrix_init fs ld_prefix = Ok self /\
    is_truncated self = false /\
    data self = ld_dat f /\
    map label (ld_info self) = range (List.length (info_txt f)) /\
    map SNP (ld_info self) = map SNP (info_txt f) /\
    (block_sizes self, block_ranges self) = _get_block_info (ld_info self).
Proof.
  intros Hf Hs. unfold LDmatrix_init. rewrite Hf.
  destruct (range_index_columns (info_txt f)) as (Hlab & Hchr & Hsnp & _).
  rewrite Hchr. unfold unique. rewrite (unique_sorted_increasing _ Hs). cbn [negb].
  destruct (_get_block_info (range_index (info_txt f))) as [sizes ranges] eqn:E.
  eexists. split; [reflexivity|]. cbn.
  repeat split; try assumption. symmetry. exact E.
Qed.

Lemma truncate_loop_prop_one (prop : Q) (inv : bool) (sizes : list nat) (blocks : list ndarray) :
  Qeq_bool prop 1 = true ->
  forall i,
    triangles_fit (skipn i sizes) blocks = true ->
    exists ld_bd,
      truncate_loop eig_kernel prop inv sizes i blocks = Ok ld_bd /\
      Forall2 (fun s D => has_dims s s D) (skipn i sizes) ld_bd.
Proof.
  intros Hprop. induction blocks as [|d blocks IH]; intros i Hfit.
  - destruct (skipn i sizes); [|discriminate].
    exists []. split; [reflexivity|constructor].
  - destruct (skipn i sizes) as [|s rest] eqn:Esk; [discriminate|].
    cbn [triangles_fit] in Hfit.
    destruct d as [v|a]; [|discriminate].
    apply andb_true_iff in Hfit. destruct Hfit as [Hv Hrest].
    apply Nat.eqb_eq in Hv.
    assert (Hnth : nth_error sizes i = Some s).
    { rewrite <- (firstn_skipn i sizes), Esk.
      assert (Hi : i <= List.length sizes).
      { destruct (Nat.le_gt_cases i (List.length sizes)) as [H|H]; [exact H|].
        rewrite skipn_all2 in Esk by lia. discriminate. }
      rewrite nth_error_app2 by (rewrite length_firstn; lia).
      rewrite length_firstn, Nat.min_l, Nat.sub_diag by exact Hi. reflexivity. }
    assert (Hnext : skipn (S i) sizes = rest).
    { change (S i) with (1 + i). rewrite <- skipn_skipn, Esk. reflexivity. }
    cbn [truncate_loop]. rewrite Hnth.
    destruct (@get_2d_matrix_lower s v Hv) as (D & HD & _).
    destruct (@get_2d_matrix_entries s v D Hv HD) as (Hdims & _).
    rewrite HD. cbn [bind]. rewrite Hprop. cbn [bind].
    destruct (IH (S i)) as (ld_bd & Hloop & Hall); [rewrite Hnext; exact Hrest|].
    rewrite Hloop. cbn [bind]. exists (D :: ld_bd). split; [reflexivity|].
    constructor; [exact Hdims|]. rewrite <- Hnext. exact Hall.
Qed.

Lemma width_of_dims (s : nat) (D : dense) :
  1 <= s -> has_dims s s D -> width D = s.
Proof.
  intros Hs [Hrows Hcols]. unfold width.
  destruct D as [|row D]; [simpl in Hrows; lia|].
  apply (Hcols 0). lia.
Qed.

Lemma dense_blocks_agree (rows : nat) (sizes : list nat) :
  forall (ld_bd : list dense) (e : nat),
    Forall2 (fun s D => has_dims s s D) sizes ld_bd ->
    Forall (fun s => 1 <= s) sizes ->
    e + total sizes <= rows ->
    blocks_agree rows (ranges_from e sizes) (map Arr2 ld_bd) = true.
Proof.
  induction sizes as [|s sizes IH]; intros ld_bd e Hall Hpos Hsum; [reflexivity|].
  inversion Hall as [|? D ? ld_bd' HD Hrest]; subst.
  inversion Hpos as [|? ? Hs Hpos']; subst.
  unfold total in Hsum. simpl in Hsum. fold (total sizes) in Hsum.
  cbn [ranges_from map blocks_agree block_agrees fst snd].
  rewrite (width_of_dims Hs HD).
  rewrite IH by (try assumption; lia).
  rewrite !andb_true_iff, Nat.eqb_eq, !Nat.leb_le. repeat split; lia.
Qed.

Lemma length_le_total (sizes : list nat) :
  Forall (fun s => 1 <= s) sizes -> List.length sizes <= total sizes.
Proof.
  induction 1 as [|s sizes Hs _ IH]; [apply Nat.le_refl|].
  unfold total in *. simpl. lia.
Qed.

Lemma ranges_from_length (sizes : list nat) :
  forall e, List.length (ranges_from e sizes) = List.length sizes.
Proof. induction sizes as [|s sizes IH]; intros e; simpl; auto. Qed.

(** X12.  Loading, truncating with [prop = 1] and estimating compose: for
    a loaded matrix whose blocks are triangles of the sizes of its info
    table, [truncate] returns without calling the eigen-decomposition and
    leaves the info table as it was, and [estimate_ldscore] then returns
    the merge plan of the block sizes. *)
Theorem load_truncate_estimate (ld_prefix : string) (self : LDmatrix)
  (prop : Q) (inv : bool) :
  LDmatrix_init fs ld_prefix = Ok self ->
  triangles_fit (block_sizes self) (data self) = true ->
  Qeq_bool prop 1 = true ->
  exists self' ldscore,
    truncate eig_kernel self prop inv = (self', Ok tt) /\
    ld_info self' = ld_info self /\
    List.length (data self') = List.length (data self) /\
    estimate_ldscore self' = Ok (ldscore, _merge_blocks (block_sizes self)).
Proof.
  intros Hinit Hfit Hprop.
  assert (Hself : is_truncated self = false /\
                  (block_sizes self, block_ranges self) = _get_block_info (ld_info self)).
  { unfold LDmatrix_init in Hinit.
    destruct (fs ld_prefix) as [f|]; [|discriminate].
    destruct (negb _); [discriminate|].
    destruct (_get_block_info (range_index (info_txt f))) as [sizes ranges] eqn:E.
    injection Hinit as <-. cbn. split; [reflexivity|]. symmetry. exact E. }
  destruct Hself as [Et Einfo].
  destruct (@block_info_facts (ld_info self) _ _ (eq_sym Einfo))
    as (Hpos & Hsum & _ & _).
  assert (Eranges : block_ranges self = ranges_from 0 (block_sizes self)).
  { unfold _get_block_info in Einfo. injection Einfo as E1 E2.
    rewrite E2, <- E1. reflexivity. }
  destruct (@truncate_loop_prop_one prop inv (block_sizes self) (data self) Hprop 0 Hfit)
    as (ld_bd & Hloop & Hall).
  cbn [skipn] in Hall.
  unfold truncate. rewrite Et, Hloop.
  set (self' := mkLD (ld_info self) (map Arr2 ld_bd) true (block_sizes self)
                     (block_ranges self)).
  assert (Hcons : consistent self' = true).
  { unfold consistent. cbn [block_ranges ld_info data self'].
    rewrite Eranges, ranges_from_length.
    rewrite andb_true_iff, Nat.leb_le. split.
    - rewrite <- Hsum. apply length_le_total. exact Hpos.
    - apply dense_blocks_agree; try assumption.
      unfold total. rewrite Hsum. simpl. lia. }
  destruct (@estimate_ldscore_returns self' eq_refl Hcons) as [[ldscore merged] Hest].
  exists self', ldscore.
  split; [reflexivity|]. split; [reflexivity|].
  split.
  - cbn [data self']. rewrite length_map.
    clear - Hall Hfit. revert Hfit Hall.
    generalize (block_sizes self) as sizes. generalize (data self) as blocks.
    intros blocks sizes Hfit Hall. revert blocks Hfit.
    induction Hall as [|s D sizes ld_bd _ _ IH]; intros [|[v|a] blocks] Hfit;
      try discriminate; [reflexivity|].
    cbn [triangles_fit] in Hfit. apply andb_true_iff in Hfit.
    simpl. f_equal. apply IH. tauto.
  - rewrite Hest. unfold estimate_ldscore in Hest. cbn [is_truncated self' negb] in Hest.
    destruct (ldscore_loop _ _ _ _ _) as [l|]; [|discriminate].
    cbn [bind] in Hest. injection Hest as _ <-. reflexivity.
Qed.

End LoadTruncateEstimate.

Section LoadTruncateEstimateExamples.

Import ldmatrix.

Lemma sorted_chromosomes_load_witness :
  exists self,
    LDmatrix_init two_prefixes "chr1"%string = Ok self /\
    is_truncated self = false /\
    data self = ld_dat (one_snp_file 1 "rs1"%string) /\
    map label (ld_info self) = range (List.length (info_txt (one_snp_file 1 "rs1"%string))) /\
    map SNP (ld_info self) = map SNP (info_txt (one_snp_file 1 "rs1"%string)) /\
    (block_sizes self, block_ranges self) = _get_block_info (ld_info self).
Proof.
  apply (@sorted_chromosomes_load two_prefixes "chr1"%string (one_snp_file 1 "rs1"%string)).
  - reflexivity.
  - reflexivity.
Defined.

Lemma load_truncate_estimate_witness :
  exists self' ldscore,
    truncate no_kernel chr1_matrix 1%Q false = (self', Ok tt) /\
    ld_info self' = ld_info chr1_matrix /\
    List.length (data self') = List.length (data chr1_matrix) /\
    estimate_ldscore self' = Ok (ldscore, _merge_blocks (block_sizes chr1_matrix)).
Proof.
  apply (@load_truncate_estimate two_prefixes no_kernel "chr1"%string chr1_matrix 1%Q false).
  - reflexivity.
  - reflexivity.
  - reflexivity.
Defined.

End LoadTruncateEstimateExamples.

(** ** Binary search of the partition builder *)

Section FindLoc.

Import make_ld.

Local Open Scope Z_scope.

Lemma getitem_in_range (num_list : list Z) (i : Z) :
  0 <= i < Z.of_nat (List.length num_list) ->
  ldmatrix.py_getitem num_list i = Ok (at_ num_list i).
Proof.
  intros Hi. unfold ldmatrix.py_getitem, at_.
  destruct (Z.ltb_spec i 0) as [H|_]; [lia|].
  destruct (Z.ltb_spec i 0) as [H|_]; [lia|].
  destruct (Z.leb_spec (Z.of_nat (List.length num_list)) i) as [H|_]; [lia|].
  cbn [orb].
  rewrite (nth_error_nth' num_list 0) by lia. reflexivity.
Qed.

Lemma find_loc_loop_returns (num_list : list Z) (target : Z) (fuel : nat) :
  forall l r,
    0 <= l -> r < Z.of_nat (List.length num_list) -> l <= r + 1 ->
    r - l + 1 <= Z.of_nat fuel ->
    exists res,
      find_loc_loop fuel num_list target l r = Some (Ok res) /\ l - 1 <= res <= r.
Proof.
  induction fuel as [|fuel IH]; intros l r Hl Hr Hinv Hfuel.
  - cbn [find_loc_loop]. destruct (Z.leb_spec l r) as [H|H]; [simpl in Hfuel; lia|].
    exists r. split; [reflexivity|lia].
  - cbn [find_loc_loop]. destruct (Z.leb_spec l r) as [Hlr|Hlr].
    2:{ exists r. split; [reflexivity|lia]. }
    assert (Hmid : l <= (l + r) / 2 <= r).
    { split; [apply Z.div_le_lower_bound|apply Z.div_le_upper_bound]; lia. }
    rewrite getitem_in_range by lia.
    destruct (Z.eqb_spec (at_ num_list ((l + r) / 2)) target) as [E|E].
    + exists ((l + r) / 2). split; [reflexivity|lia].
    + destruct (Z.ltb_spec target (at_ num_list ((l + r) / 2))) as [Hgt|Hle].
      * destruct (IH l ((l + r) / 2 - 1)) as (res & Hres & Hb); try lia.
        exists res. split; [exact Hres|lia].
      * destruct (IH ((l + r) / 2 + 1) r) as (res & Hres & Hb); try lia.
        exists res. split; [exact Hres|lia].
Qed.

(** X14.  [find_loc] ends for every list, sorted or not, without an
    index error, and its result lies between -1 and the last position. *)
Theorem find_loc_returns (num_list : list Z) (target : Z) :
  exists res,
    find_loc num_list target = Some (Ok res) /\
    -1 <= res < Z.of_nat (List.length num_list).
Proof.
  unfold find_loc.
  destruct (@find_loc_loop_returns num_list target (List.length num_list) 0
              (Z.of_nat (List.length num_list) - 1)) as (res & Hres & Hb); try lia.
  exists res. split; [exact Hres|lia].
Qed.

Lemma nondecreasing_nth (l : list Z) :
  ldmatrix.nondecreasing l = true ->
  forall i j, (i <= j)%nat -> (j < List.length l)%nat -> nth i l 0 <= nth j l 0.
Proof.
  induction l as [|x t IH]; intros Hs i j Hij Hj; [simpl in Hj; lia|].
  destruct (@nondecreasing_cons x t Hs) as [Hall Ht].
  destruct j as [|j].
  - assert (i = 0%nat) by lia. subst. lia.
  - destruct i as [|i].
    + simpl. rewrite Forall_forall in Hall. apply Hall. apply nth_In. simpl in Hj. lia.
    + simpl. apply IH; [exact Ht|lia|simpl in Hj; lia].
Qed.

Lemma find_loc_loop_sorted (num_list : list Z) (target : Z) (fuel : nat) :
  ldmatrix.nondecreasing num_list = true ->
  forall l r res,
    0 <= l -> r < Z.of_nat (List.length num_list) ->
    (forall i, 0 <= i < l -> at_ num_list i < target) ->
    (forall i, r < i < Z.of_nat (List.length num_list) -> target < at_ num_list i) ->
    find_loc_loop fuel num_list target l r = Some (Ok res) ->
    (forall i, 0 <= i <= res -> at_ num_list i <= target) /\
    (forall i, res < i < Z.of_nat (List.length num_list) -> target <= at_ num_list i).
Proof.
  intros Hs. induction fuel as [|fuel IH]; intros l r res Hl Hr Hlow Hhigh Hres.
  - cbn [find_loc_loop] in Hres.
    destruct (Z.leb_spec l r) as [H|H]; [discriminate|].
    injection Hres as <-. split; intros i Hi.
    + apply Z.lt_le_incl. apply Hlow. lia.
    + destruct (Z.le_gt_cases l i) as [Hli|Hli].
      * apply Z.lt_le_incl. apply Hhigh. lia.
      * apply Z.lt_le_incl. apply Hhigh. lia.
  - cbn [find_loc_loop] in Hres. destruct (Z.leb_spec l r) as [Hlr|Hlr].
    2:{ injection Hres as <-. split; intros i Hi.
        - apply Z.lt_le_incl. apply Hlow. lia.
        - apply Z.lt_le_incl. apply Hhigh. lia. }
    assert (Hmid : l <= (l + r) / 2 <= r).
    { split; [apply Z.div_le_lower_bound|apply Z.div_le_upper_bound]; lia. }
    set (mid := (l + r) / 2) in *.
    assert (Hmono : forall i j, 0 <= i <= j -> j < Z.of_nat (List.length num_list) ->
                     at_ num_list i <= at_ num_list j).
    { intros i j Hij Hj. unfold at_. apply nondecreasing_nth; [exact Hs|lia|lia]. }
    rewrite getitem_in_range in Hres by lia.
    destruct (Z.eqb_spec (at_ num_list mid) target) as [E|E].
    + injection Hres as <-. split; intros i Hi.
      * rewrite <- E. apply Hmono; lia.
      * rewrite <- E. apply Hmono; lia.
    + destruct (Z.ltb_spec target (at_ num_list mid)) as [Hgt|Hle].
      * apply (IH l (mid - 1) res); try assumption; try lia.
        intros i Hi. apply Z.lt_le_trans with (at_ num_list mid); [exact Hgt|].
        apply Hmono; lia.
      * apply (IH (mid + 1) r res); try assumption; try lia.
        intros i Hi. apply Z.le_lt_trans with (at_ num_list mid); [|lia].
        apply Hmono; lia.
Qed.

(** X15.  On a list that never decreases, the position [find_loc]
    returns splits it: every entry up to that position is at most the
    target and every entry after it is at least the target. *)
Theorem find_loc_splits_sorted (num_list : list Z) (target res : Z) :
  ldmatrix.nondecreasing num_list = true ->
  find_loc num_list target = Some (Ok res) ->
  (forall i, 0 <= i <= res -> at_ num_list i <= target) /\
  (forall i, res < i < Z.of_nat (List.length num_list) -> target <= at_ num_list i).
Proof.
  intros Hs Hres.
  apply (@find_loc_loop_sorted num_list target (List.length num_list) Hs 0
           (Z.of_nat (List.length num_list) - 1) res); try lia.
  exact Hres.
Qed.

Lemma find_loc_splits_sorted_witness :
  (forall i, 0 <= i <= 1 -> at_ [100; 200; 300] i <= 250) /\
  (forall i, 1 < i < Z.of_nat (List.length [100; 200; 300]) ->
             250 <= at_ [100; 200; 300] i).
Proof.
  apply (@find_loc_splits_sorted [100; 200; 300] 250 1).
  - reflexivity.
  - reflexivity.
Defined.

End FindLoc.

(** ** Restricting an object to a SNP set *)

Section ExtractSnps.

Lemma loc_mask_length {A B} (f : B -> bool) (l : list A) (keys : list B) :
  List.length l = List.length keys ->
  List.length (loc_mask l (map f keys)) = List.length (filter f keys).
Proof.
  revert keys. induction l as [|a l IH]; intros [|k keys] H; simpl in *;
    try discriminate; [reflexivity|].
  destruct (f k); simpl; rewrite IH by lia; reflexivity.
Qed.

Lemma filter_all_true {A} (f : A -> bool) (l : list A) :
  map f (filter f l) = map (fun _ => true) (filter f l).
Proof.
  induction l as [|a l IH]; [reflexivity|].
  simpl. destruct (f a) eqn:E; [|exact IH]. simpl. rewrite E, IH. reflexivity.
Qed.

Lemma loc_mask_all_true {A B} (l : list A) (keys : list B) :
  List.length l = List.length keys ->
  loc_mask l (map (fun _ => true) keys) = l.
Proof.
  revert keys. induction l as [|a l IH]; intros [|k keys] H; simpl in *;
    try discriminate; [reflexivity|].
  rewrite IH by lia. reflexivity.
Qed.

Lemma loc_mask_combine {A B} (a : list A) (b : list B) (m : list bool) :
  combine (loc_mask a m) (loc_mask b m) = loc_mask (combine a b) m.
Proof.
  revert a b. induction m as [|c m IH]; intros [|x a] [|y b]; try reflexivity.
  - simpl. destruct c; [reflexivity|]. apply combine_nil.
  - simpl. destruct c; simpl; rewrite IH; reflexivity.
Qed.

Lemma loc_mask_combine_keys {A B} (f : A -> bool) (keys : list A) (rest : list B) :
  loc_mask (combine keys rest) (map f keys)
  = filter (fun p => f (fst p)) (combine keys rest).
Proof.
  revert rest. induction keys as [|k keys IH]; intros [|r rest]; try reflexivity.
  simpl. rewrite IH. reflexivity.
Qed.

(** X20.  On an object whose columns all have one entry for every SNP,
    [extract_snps] returns; the rows of the new object are the old rows
    whose rsID is requested, in the old order and each with its own
    Z-scores, alleles and sample size; all columns again have one entry
    for every SNP; and extracting the same ids again changes nothing. *)
Theorem extract_snps_restricts (self : heri_gc.GWAS) (keep_snps : list string) :
  heri_gc.all_columns_aligned self = true ->
  exists g,
    heri_gc.extract_snps self keep_snps = Ok g /\
    heri_gc.SNP g
    = filter (fun s => existsb (String.eqb s) keep_snps) (heri_gc.SNP self) /\
    heri_gc.rows g
    = filter (fun r => existsb (String.eqb (fst r)) keep_snps) (heri_gc.rows self) /\
    heri_gc.all_columns_aligned g = true /\
    heri_gc.extract_snps g keep_snps = Ok g.
Proof.
  unfold heri_gc.all_columns_aligned, heri_gc.aligned_columns.
  rewrite !andb_true_iff, !Nat.eqb_eq.
  intros [[[Ha Hz] Hb] Hn].
  destruct self as [z s a b n]. cbn in *.
  set (f := fun x => existsb (String.eqb x) keep_snps).
  unfold heri_gc.extract_snps.
  cbn [heri_gc.SNP heri_gc.A1 heri_gc.z_mat heri_gc.A2 heri_gc.N]. fold f.
  rewrite length_map, Hz, Nat.eqb_refl. cbn [negb].
  assert (Hs : loc_mask s (map f s) = filter f s) by apply loc_mask_map_filter.
  eexists. split; [reflexivity|].
  cbn [heri_gc.SNP heri_gc.A1 heri_gc.z_mat heri_gc.A2 heri_gc.N]. fold f.
  split; [exact Hs|]. split; [|split].
  - unfold heri_gc.rows.
    cbn [heri_gc.SNP heri_gc.A1 heri_gc.z_mat heri_gc.A2 heri_gc.N].
    rewrite !loc_mask_combine. exact (@loc_mask_combine_keys _ _ f s _).
  - rewrite Hs, !loc_mask_length by assumption. rewrite !Nat.eqb_refl. reflexivity.
  - rewrite Hs, length_map, loc_mask_length by assumption.
    rewrite Nat.eqb_refl. cbn [negb].
    rewrite filter_all_true.
    rewrite !loc_mask_all_true; try reflexivity;
      try (rewrite loc_mask_length by assumption; reflexivity).
Qed.

Lemma extract_snps_restricts_witness :
  exists g,
    heri_gc.extract_snps heri_gc.image_gwas ["rs2"%string] = Ok g /\
    heri_gc.SNP g
    = filter (fun s => existsb (String.eqb s) ["rs2"%string])
             (heri_gc.SNP heri_gc.image_gwas) /\
    heri_gc.rows g
    = filter (fun r => existsb (String.eqb (fst r)) ["rs2"%string])
             (heri_gc.rows heri_gc.image_gwas) /\
    heri_gc.all_columns_aligned g = true /\
    heri_gc.extract_snps g ["rs2"%string] = Ok g.
Proof.
  apply (@extract_snps_restricts heri_gc.image_gwas ["rs2"%string]); reflexivity.
Defined.

End ExtractSnps.

(** ** The median check over a whole column *)

Section MedianRange.

Local Open Scope Q_scope.

Lemma insert_sorted_Q_In (x y : Q) (l : list Q) :
  In x (sumstats.insert_sorted y l) <-> x = y \/ In x l.
Proof.
  induction l as [|z l IH]; simpl; [intuition|].
  destruct (Qle_bool y z); simpl; [intuition|]. rewrite IH. intuition.
Qed.

Lemma sort_In (x : Q) (l : list Q) : In x (sumstats.sort l) <-> In x l.
Proof.
  unfold sumstats.sort. induction l as [|z l IH]; simpl; [reflexivity|].
  rewrite insert_sorted_Q_In, IH. intuition.
Qed.

Lemma insert_sorted_Q_length (y : Q) (l : list Q) :
  List.length (sumstats.insert_sorted y l) = S (List.length l).
Proof.
  induction l as [|z l IH]; simpl; [reflexivity|].
  destruct (Qle_bool y z); simpl; [reflexivity|]. rewrite IH. reflexivity.
Qed.

Lemma sort_length (l : list Q) : List.length (sumstats.sort l) = List.length l.
Proof.
  unfold sumstats.sort. induction l as [|z l IH]; simpl; [reflexivity|].
  rewrite insert_sorted_Q_length, IH. reflexivity.
Qed.

Lemma drop_nan_In (x : Q) (data : list sumstats.float) :
  In x (sumstats.drop_nan data) <-> In (Some x) data.
Proof.
  induction data as [|[y|] data IH]; simpl; [reflexivity| |].
  - rewrite IH. split; intros [H|H]; auto; [left; congruence|].
    injection H as ->. auto.
  - rewrite IH. split; [auto|]. intros [H|H]; [discriminate|exact H].
Qed.

(** The median of a column is one of its numbers or the mean of two of
    them; it exists as soon as the column holds a number. *)
Lemma nanmedian_cases (data : list sumstats.float) :
  match sumstats.nanmedian data with
  | Some m =>
      (In (Some m) data) \/
      (exists a b, In (Some a) data /\ In (Some b) data /\ m = (a + b) / 2)
  | None => forall x, ~ In (Some x) data
  end.
Proof.
  unfold sumstats.nanmedian.
  set (xs := sumstats.sort (sumstats.drop_nan data)).
  assert (Hin : forall x, In x xs -> In (Some x) data).
  { intros x H. apply drop_nan_In. apply sort_In. exact H. }
  destruct (Nat.eqb_spec (List.length xs) 0) as [E|E].
  - intros x H. apply drop_nan_In in H. apply sort_In in H. fold xs in H.
    destruct xs; [destruct H|discriminate].
  - assert (Hhalf : (List.length xs / 2 < List.length xs)%nat)
      by (apply Nat.div_lt; lia).
    destruct (Nat.odd (List.length xs)).
    + destruct (nth_error xs (List.length xs / 2)) as [m|] eqn:Em.
      * left. apply Hin. eapply nth_error_In. exact Em.
      * apply nth_error_None in Em. lia.
    + destruct (nth_error xs (List.length xs / 2 - 1)) as [a|] eqn:Ea.
      2:{ apply nth_error_None in Ea. lia. }
      destruct (nth_error xs (List.length xs / 2)) as [b|] eqn:Eb.
      2:{ apply nth_error_None in Eb. lia. }
      right. exists a, b. split; [apply Hin; eapply nth_error_In; exact Ea|].
      split; [apply Hin; eapply nth_error_In; exact Eb|reflexivity].
Qed.

(** X21.  The median check as it behaves on a whole column, 0.1 being
    the double the code compares with: it passes when no number of the
    column exceeds the null value by more than 0.1 (in particular for a
    column without numbers, for a column far below the null value, and
    for the column that holds the double 0.1 with null value 0), and it
    raises the error naming the column when the column holds a number and
    all its numbers exceed the null value by more than 0.1. *)
Theorem check_median_by_column (data : list sumstats.float) (effect : string)
  (null_value : Z) :
  ((forall x, In (Some x) data -> x - inject_Z null_value <= sumstats.tenth) ->
   sumstats._check_median data effect null_value = Ok tt) /\
  ((exists x, In (Some x) data) ->
   (forall x, In (Some x) data -> sumstats.tenth < x - inject_Z null_value) ->
   sumstats._check_median data effect null_value = Raise (sumstats.mislabeled effect)).
Proof.
  pose proof (nanmedian_cases data) as Hcases.
  split.
  - intros Hall.
    destruct (sumstats._check_median data effect null_value) as [[]|e] eqn:E;
      [reflexivity|exfalso].
    assert (E' : sumstats._check_median data effect null_value
                 = Raise (sumstats.mislabeled effect)).
    { unfold sumstats._check_median in *.
      destruct (sumstats.np_abs_bool _); [reflexivity|discriminate]. }
    apply check_median_raises_iff in E'. destruct E' as (m & Hm & Hlt).
    rewrite Hm in Hcases. destruct Hcases as [Hin|(a & b & Ha & Hb & ->)].
    + specialize (Hall m Hin). Lqa.lra.
    + pose proof (Hall a Ha). pose proof (Hall b Hb).
      assert (H1 : (a + b) / 2 == (1 # 2) * a + (1 # 2) * b) by field.
      rewrite H1 in Hlt. Lqa.lra.
  - intros [x0 Hx0] Hall. apply check_median_raises_iff.
    destruct (sumstats.nanmedian data) as [m|]; [|exfalso; exact (Hcases x0 Hx0)].
    exists m. split; [reflexivity|].
    destruct Hcases as [Hin|(a & b & Ha & Hb & ->)].
    + apply Hall. exact Hin.
    + pose proof (Hall a Ha). pose proof (Hall b Hb).
      assert (H1 : (a + b) / 2 == (1 # 2) * a + (1 # 2) * b) by field.
      rewrite H1. Lqa.lra.
Qed.

Lemma check_median_by_column_witness :
  sumstats._check_median [Some sumstats.tenth; None] "Z"%string 0 = Ok tt /\
  sumstats._check_median [Some (1 # 1); None; Some (2 # 1)] "Z"%string 0
  = Raise (sumstats.mislabeled "Z"%string).
Proof.
  split.
  - apply (proj1 (@check_median_by_column [Some sumstats.tenth; None] "Z"%string 0%Z)).
    intros x [H|[H|[]]]; [|discriminate].
    injection H as <-. vm_compute. discriminate.
  - apply (proj2 (@check_median_by_column
                    [Some (1 # 1); None; Some (2 # 1)] "Z"%string 0%Z)).
    + exists (1 # 1). left. reflexivity.
    + intros x [H|[H|[H|[]]]]; [|discriminate|];
        injection H as <-; vm_compute; reflexivity.
Defined.

End MedianRange.

(** ** More on PLINK .bed files *)

Section BedFilesMore.

Import parse.

Lemma bits_eqb_eq (a b : bits) : bits_eqb a b = true <-> a = b.
Proof.
  unfold bits_eqb. rewrite andb_true_iff, Nat.eqb_eq.
  revert b. induction a as [|x a IH]; intros [|y b]; simpl;
    try (split; [intros [H _]; discriminate|discriminate]).
  - split; auto.
  - rewrite andb_true_iff. split.
    + intros [Hl [Hxy Hrest]]. apply eqb_prop in Hxy. subst y.
      f_equal. apply IH. split; [lia|exact Hrest].
    + intros [= -> ->]. split; [reflexivity|].
      split; [apply eqb_reflx|]. apply IH. reflexivity.
Qed.

Lemma bits_of_byte_inj (x y : Byte.byte) : bits_of_byte x = bits_of_byte y -> x = y.
Proof.
  unfold bits_of_byte. intros H.
  rewrite <- (Byte.of_bits_to_bits x), <- (Byte.of_bits_to_bits y).
  destruct (Byte.to_bits x) as (a0 & a1 & a2 & a3 & a4 & a5 & a6 & a7).
  destruct (Byte.to_bits y) as (b0 & b1 & b2 & b3 & b4 & b5 & b6 & b7).
  injection H as -> -> -> -> -> -> -> ->. reflexivity.
Qed.

Lemma fromfile_length (bytes : list Byte.byte) :
  List.length (fromfile bytes) = 8 * List.length bytes.
Proof.
  induction bytes as [|b bytes IH]; [reflexivity|].
  unfold fromfile in *. cbn [flat_map]. rewrite length_app, IH.
  unfold bits_of_byte.
  destruct (Byte.to_bits b) as (a0 & a1 & a2 & a3 & a4 & a5 & a6 & a7).
  simpl. lia.
Qed.

Lemma nru_of_bounds (n : nat) :
  n <= nru_of n /\ nru_of n < n + 4 /\ nru_of n mod 4 = 0.
Proof.
  unfold nru_of.
  pose proof (Nat.div_mod_eq n 4) as Hd.
  pose proof (Nat.mod_upper_bound n 4 ltac:(discriminate)) as Hlt.
  destruct (Nat.eqb_spec (n mod 4) 0) as [E|E]; cbn [negb].
  - rewrite Nat.add_0_r. repeat split; [lia|lia|exact E].
  - repeat split; [lia|lia|].
    replace (n + (4 - n mod 4)) with ((n / 4 + 1) * 4) by lia.
    apply Nat.Div0.mod_mul.
Qed.

(** X1.  The constructor accepts a file exactly when its name ends in
    [.bed], its first three bytes are 0x6c, 0x1b, 0x01, and the rest holds
    two bits for each of the [m] SNPs and [nru] padded samples; the object
    then holds the bits of the rest, the cursor 0, and [nru] is the least
    multiple of four that is at least [n]. *)
Theorem bed_file_accepted_iff (fname : string) (fh : list Byte.byte) (n m : nat)
  (self : PlinkBEDFile) :
  __init__ fname fh n m = Ok self <->
  endswith fname ".bed" = true /\
  exists body,
    fh = header ++ body /\
    8 * List.length body = 2 * m * nru_of n /\
    self = mkBED m n (nru_of n) (fromfile body) 0 /\
    n <= nru_of n < n + 4 /\ nru_of n mod 4 = 0.
Proof.
  unfold __init__, __read__. fold (nru_of n). split.
  - destruct (endswith fname ".bed"); [|discriminate]. cbn [negb].
    unfold fromfile_n.
    destruct fh as [|b0 [|b1 [|b2 body]]]; try discriminate.
    cbn [List.length Nat.leb firstn skipn bind].
    destruct (bits_eqb (fromfile [b0; b1]) magic_bits) eqn:Emagic; [|discriminate].
    destruct (bits_eqb (fromfile [b2]) mode_bits) eqn:Emode; [|discriminate].
    cbn [negb]. unfold __test_length__.
    destruct (Nat.eqb_spec (List.length (fromfile body)) (2 * m * nru_of n))
      as [Hlen|]; [|discriminate].
    cbn [bind]. intros [= <-].
    split; [reflexivity|]. exists body.
    apply bits_eqb_eq in Emagic, Emode.
    assert (H0 : b0 = Byte.x6c /\ b1 = Byte.x1b).
    { unfold fromfile in Emagic. cbn [flat_map] in Emagic. rewrite app_nil_r in Emagic.
      change magic_bits with (bits_of_byte Byte.x6c ++ bits_of_byte Byte.x1b) in Emagic.
      assert (Hl : List.length (bits_of_byte b0) = List.length (bits_of_byte Byte.x6c)).
      { unfold bits_of_byte.
        destruct (Byte.to_bits b0) as (a0 & a1 & a2 & a3 & a4 & a5 & a6 & a7).
        reflexivity. }
      destruct (app_eq_app _ _ _ _ Emagic) as [l [[H1 H2]|[H1 H2]]].
      - destruct l as [|z l].
        + rewrite app_nil_r in H1. simpl in H2.
          split; apply bits_of_byte_inj; congruence.
        + rewrite H1, length_app in Hl. simpl in Hl. lia.
      - destruct l as [|z l].
        + rewrite app_nil_r in H1. simpl in H2.
          split; apply bits_of_byte_inj; congruence.
        + rewrite H1, length_app in Hl. simpl in Hl. lia. }
    assert (H2 : b2 = Byte.x01).
    { unfold fromfile in Emode. cbn [flat_map] in Emode. rewrite app_nil_r in Emode.
      apply bits_of_byte_inj. exact Emode. }
    destruct H0 as [-> ->]. subst b2.
    split; [reflexivity|].
    split; [rewrite <- fromfile_length; exact Hlen|].
    split; [reflexivity|].
    pose proof (nru_of_bounds n). tauto.
  - intros [Hname (body & -> & Hlen & -> & _)].
    rewrite Hname. cbn [negb]. unfold header. cbn [app].
    unfold fromfile_n. cbn [List.length Nat.leb firstn skipn bind].
    change (bits_eqb (fromfile [Byte.x6c; Byte.x1b]) magic_bits) with true.
    change (bits_eqb (fromfile [Byte.x01]) mode_bits) with true.
    cbn [negb]. unfold __test_length__.
    rewrite fromfile_length, Hlen, Nat.eqb_refl. reflexivity.
Qed.

Lemma loop_exhausted (d : nat) :
  forall (self : PlinkBEDFile) (snps : matrix) (i k : nat),
    valid self -> _currentSNP self + d = parse.m self -> d < k ->
    List.length snps = parse.n self ->
    nextSNPs_loop self snps i k
    = (with_cursor self (parse.m self), Raise (ValueError "No more SNPs remaining")).
Proof.
  induction d as [|d IH]; intros self snps i k Hv Hd Hk Hn.
  - destruct k as [|k]; [lia|]. cbn [nextSNPs_loop].
    destruct (Nat.ltb_spec (parse.m self) (_currentSNP self + 1)) as [_|H]; [|lia].
    assert (E : _currentSNP self = parse.m self) by lia.
    destruct self as [m0 n0 nru0 g0 c0]. cbn in E. subst c0. reflexivity.
  - destruct k as [|k]; [lia|]. cbn [nextSNPs_loop].
    destruct (Nat.ltb_spec (parse.m self) (_currentSNP self + 1)) as [H|_]; [lia|].
    assert (Hc : _currentSNP self < parse.m self) by lia.
    destruct (@decode_even _ _ (slice_length Hv Hc)) as [Hdec _].
    rewrite Hdec. fold (snp_of self (_currentSNP self)).
    unfold set_col. rewrite (snp_of_length Hv Hc), Hn, Nat.eqb_refl.
    rewrite IH.
    + reflexivity.
    + exact Hv.
    + cbn. lia.
    + lia.
    + rewrite zip_rows_length; [exact Hn|].
      rewrite (snp_of_length Hv Hc). symmetry. exact Hn.
Qed.

(** X2.  Asking a valid file for more SNPs than remain past the cursor
    raises the no-more-SNPs error and leaves the cursor at the end of the
    file: the SNPs read before the failure cannot be read again. *)
Theorem nextSNPs_exhausted (self : PlinkBEDFile) (num : nat) :
  valid self -> _currentSNP self <= parse.m self ->
  parse.m self < _currentSNP self + num ->
  nextSNPs self num
  = (with_cursor self (parse.m self), Raise (ValueError "No more SNPs remaining")).
Proof.
  intros Hv Hcur Hnum. unfold nextSNPs.
  apply (@loop_exhausted (parse.m self - _currentSNP self)); try assumption;
    try lia.
  apply repeat_length.
Qed.

Lemma nextSNPs_exhausted_witness :
  nextSNPs sample_bed 3
  = (with_cursor sample_bed (parse.m sample_bed),
     Raise (ValueError "No more SNPs remaining")).
Proof.
  apply (@nextSNPs_exhausted sample_bed 3).
  - split; reflexivity.
  - simpl. lia.
  - simpl. lia.
Defined.

Lemma gen_SNPs_over_valid (self : PlinkBEDFile) (cs : list nat) :
  valid self -> Forall (fun c => c < parse.m self) cs ->
  gen_SNPs_over self cs = (map (fun c => (c, snp_of self c)) cs, Ok tt).
Proof.
  intros Hv Hcs. induction Hcs as [|c cs Hc _ IH]; [reflexivity|].
  cbn [gen_SNPs_over map].
  destruct (@decode_even _ _ (slice_length Hv Hc)) as [Hdec _].
  rewrite Hdec. fold (snp_of self c). rewrite IH. reflexivity.
Qed.

Lemma snp_column_from_cols (rows : nat) (cols : list (list dosage)) (c : nat) :
  c < List.length cols ->
  List.length (nth c cols []) = rows ->
  snp_column (from_cols rows cols) c = nth c cols [].
Proof.
  intros Hc Hlen. unfold snp_column, from_cols. rewrite map_map.
  apply (nth_ext _ _ D0 D0).
  - rewrite length_map, length_seq. symmetry. exact Hlen.
  - intros r Hr. rewrite length_map, length_seq in Hr.
    rewrite (nth_indep _ D0 ((fun x => nth c (map (fun col => nth x col D0) cols) D0) 0))
      by (rewrite length_map, length_seq; exact Hr).
    rewrite (map_nth (fun x => nth c (map (fun col => nth x col D0) cols) D0)).
    rewrite seq_nth by exact Hr. cbn [Nat.add].
    rewrite (nth_indep _ D0 ((fun col => nth r col D0) [])) by (rewrite length_map; exact Hc).
    rewrite (map_nth (fun col => nth r col D0)). reflexivity.
Qed.

(** X3.  On a valid file the generator yields one pair for every SNP
    index 0, ..., m-1 and ends normally; the vector of index [c] is column
    [c] of the matrix that [nextSNPs(m)] returns from cursor 0. *)
Theorem gen_SNPs_agrees_with_nextSNPs (self : PlinkBEDFile) :
  valid self ->
  exists G self',
    nextSNPs (with_cursor self 0) (parse.m self) = (self', Ok G) /\
    gen_SNPs self = (map (fun c => (c, snp_column G c)) (seq 0 (parse.m self)), Ok tt).
Proof.
  intros Hv.
  assert (Hv0 : valid (with_cursor self 0)) by exact Hv.
  eexists. eexists. split.
  - apply (@nextSNPs_returns (with_cursor self 0) (parse.m self) Hv0). cbn. lia.
  - unfold gen_SNPs. rewrite gen_SNPs_over_valid.
    + f_equal. apply map_ext_in. intros c Hc. apply in_seq in Hc.
      f_equal. cbn [_currentSNP with_cursor parse.n].
      rewrite snp_column_from_cols.
      * rewrite (nth_indep _ [] (snp_of (with_cursor self 0) 0))
          by (rewrite length_map, length_seq; lia).
        rewrite (map_nth (snp_of (with_cursor self 0))), seq_nth by lia. reflexivity.
      * rewrite length_map, length_seq. cbn. lia.
      * rewrite (nth_indep _ [] (snp_of (with_cursor self 0) 0))
          by (rewrite length_map, length_seq; lia).
        rewrite (map_nth (snp_of (with_cursor self 0))), seq_nth by lia.
        apply (snp_of_length Hv0). cbn. lia.
    + exact Hv.
    + apply Forall_forall. intros c Hc. apply in_seq in Hc. lia.
Qed.

Lemma gen_SNPs_agrees_with_nextSNPs_witness :
  exists G self',
    nextSNPs (with_cursor sample_bed 0) (parse.m sample_bed) = (self', Ok G) /\
    gen_SNPs sample_bed
    = (map (fun c => (c, snp_column G c)) (seq 0 (parse.m sample_bed)), Ok tt).
Proof.
  apply (@gen_SNPs_agrees_with_nextSNPs sample_bed).
  split; reflexivity.
Defined.

End BedFilesMore.
